(** * oh-my-claudeclaw: the multi-session orchestration core

  A shallow embedding of the session registry ([src/session-registry.ts]),
  the token estimator ([src/token-estimator.ts]), the runner with its
  per-group queue and rotation policy ([runner.ts]) and the Telegram router
  ([router.ts]), with the properties the specification states about them.

  Conventions.  A JavaScript string is a [string]: one [ascii] per UTF-16
  code unit, restricted to the code units below 256, so [String.length] is
  [.length].  [new Date().toISOString()] and [Date.now()] are inputs of the
  operations that read the clock.  An [async] function is a function on the
  state it awaits; promise scheduling is modelled where the queue needs it. *)

From Stdlib Require Import ZArith String Ascii DecimalString.
From Stdlib Require DecimalPos DecimalZ.
From stdpp Require Import base tactics option list strings gmap.

Local Open Scope string_scope.
Local Open Scope Z_scope.
Local Open Scope list_scope.

(** ** JavaScript strings *)

Module JsString.

(** [s.includes(needle)] *)
Fixpoint includes (s needle : string) : bool :=
  String.prefix needle s ||
  match s with
  | EmptyString => false
  | String _ rest => includes rest needle
  end.

(** [`${n}`] for an integral number [n] (below 1e21 in magnitude, where
    JavaScript prints plain decimal digits). *)
Definition decimal (n : Z) : string := NilEmpty.string_of_int (Z.to_int n).

(** A Number that counts something: a whole number, or [NaN], which every
    comparison answers with false and a template literal prints as NaN. *)
Inductive num := Whole (n : Z) | NaN.
Coercion Whole : Z >-> num.

(** [a < b] and [a >= b] *)
Definition numLt (a : num) (b : Z) : bool :=
  match a with Whole n => n <? b | NaN => false end.

Definition numGe (a : num) (b : Z) : bool :=
  match a with Whole n => b <=? n | NaN => false end.

(** [`${a}`] *)
Definition numText (a : num) : string :=
  match a with Whole n => decimal n | NaN => "NaN" end.

(** White space as [trim] sees it, among the code units below 256: tab, line
    feed, vertical tab, form feed, carriage return, space, no-break space. *)
Definition isWhite (c : ascii) : bool :=
  let n := nat_of_ascii c in
  ((9 <=? n) && (n <=? 13) || (n =? 32) || (n =? 160))%nat.

Definition isEmpty (s : string) : bool :=
  match s with EmptyString => true | _ => false end.

Fixpoint trimStart (s : string) : string :=
  match s with
  | EmptyString => EmptyString
  | String c rest => if isWhite c then trimStart rest else s
  end.

Fixpoint trimEnd (s : string) : string :=
  match s with
  | EmptyString => EmptyString
  | String c rest =>
      let rest' := trimEnd rest in
      if isWhite c && isEmpty rest' then EmptyString else String c rest'
  end.

(** [s.trim()] *)
Definition trim (s : string) : string := trimEnd (trimStart s).

(** [s.split("\n")]: the pieces between line feeds, at least one. *)
Fixpoint splitLines (s : string) : list string :=
  match s with
  | EmptyString => [EmptyString]
  | String c rest =>
      if Ascii.eqb c "010"%char then EmptyString :: splitLines rest
      else match splitLines rest with
           | line :: lines => String c line :: lines
           | [] => [String c EmptyString]
           end
  end.

(** [s.toLowerCase()] on the code units below 256: the letters A-Z and the
    Latin-1 capitals (all of 192..222 but the multiplication sign). *)
Definition lowerChar (c : ascii) : ascii :=
  let n := nat_of_ascii c in
  if ((65 <=? n) && (n <=? 90) || (192 <=? n) && (n <=? 222) && negb (n =? 215))%nat
  then ascii_of_nat (n + 32) else c.

Fixpoint toLowerCase (s : string) : string :=
  match s with
  | EmptyString => EmptyString
  | String c rest => String (lowerChar c) (toLowerCase rest)
  end.

(** Case folding as a regular expression with the [i] flag applies it to the
    letters of an ASCII pattern: only A-Z and a-z fold together. *)
Definition foldChar (c : ascii) : ascii :=
  let n := nat_of_ascii c in
  if ((65 <=? n) && (n <=? 90))%nat then ascii_of_nat (n + 32) else c.

Fixpoint foldCase (s : string) : string :=
  match s with
  | EmptyString => EmptyString
  | String c rest => String (foldChar c) (foldCase rest)
  end.

(** [s.slice(0, n)] for [n >= 0]. *)
Fixpoint sliceTo (n : nat) (s : string) : string :=
  match n, s with
  | S n', String c rest => String c (sliceTo n' rest)
  | _, _ => EmptyString
  end.

(** The first position at or after which [needle] starts in [s]
    ([s.indexOf(needle)]). *)
Fixpoint indexOf (s needle : string) : option nat :=
  if String.prefix needle s then Some 0%nat
  else match s with
       | EmptyString => None
       | String _ rest => S <$> indexOf rest needle
       end.

(** The double quote, the line feed, and a text between double quotes. *)
Definition dq : string := String "034"%char "".
Definition newline : string := String "010"%char "".
Definition lit (s : string) : string := dq +:+ s +:+ dq.

(** [s.slice(n)] for [n >= 0]. *)
Fixpoint sliceFrom (n : nat) (s : string) : string :=
  match n, s with
  | S n', String _ rest => sliceFrom n' rest
  | _, _ => s
  end.

(** A pattern is empty or ends in a character that [trim] keeps. *)
Fixpoint lastKept (p : string) : bool :=
  match p with
  | EmptyString => true
  | String a EmptyString => negb (isWhite a)
  | String _ rest => lastKept rest
  end.

End JsString.


(** ** Decimal digits in strings *)

Module Digits.
Import JsString.

Definition isDigit (c : ascii) : bool :=
  let n := nat_of_ascii c in ((48 <=? n) && (n <=? 57))%nat.

(** The longest run of digits a text starts with, and what follows it. *)
Fixpoint spanDigits (s : string) : string * string :=
  match s with
  | EmptyString => (EmptyString, EmptyString)
  | String c rest =>
      if isDigit c
      then let '(ds, tl) := spanDigits rest in (String c ds, tl)
      else (EmptyString, s)
  end.

(** [Number(ds)] for a run of digits [ds], as the integer it denotes; it is
    the number JavaScript computes up to [MAX_SAFE_INTEGER]. *)
Definition digitsValue (ds : string) : Z :=
  match NilEmpty.uint_of_string ds with
  | Some u => Z.of_uint u
  | None => 0
  end.

End Digits.
(** ** The session registry ([src/session-registry.ts]) *)

Module SessionRegistry.
Import JsString.

Record SessionEntry := mkEntry {
  sessionId : string;
  group : string;
  createdAt : string;
  lastUsedAt : string;
  contentTokens : num;
  summary : option string }.

(** The registry object: [cached] and the file it is saved to hold the
    same value after every [save], so one value stands for both (a token
    count that is [NaN] stays so in [cached]). *)
Record Registry := mkRegistry { sessions : list SessionEntry }.

Definition set_lastUsedAt (t : string) (s : SessionEntry) : SessionEntry :=
  mkEntry (sessionId s) (group s) (createdAt s) t (contentTokens s) (summary s).
Definition set_contentTokens (n : num) (s : SessionEntry) : SessionEntry :=
  mkEntry (sessionId s) (group s) (createdAt s) (lastUsedAt s) n (summary s).
Definition set_summary (x : string) (s : SessionEntry) : SessionEntry :=
  mkEntry (sessionId s) (group s) (createdAt s) (lastUsedAt s) (contentTokens s) (Some x).
Definition set_group (g : string) (s : SessionEntry) : SessionEntry :=
  mkEntry (sessionId s) g (createdAt s) (lastUsedAt s) (contentTokens s) (summary s).

(** [reg.sessions.find(s => s.group === group)] together with
    [findIndex]: the first position whose group is [g], and its entry. *)
Definition findGroup (g : string) (reg : Registry) : option (nat * SessionEntry) :=
  list_find (fun s => group s = g) (sessions reg).

(** [getSessionForGroup]; [now] is [new Date().toISOString()]. *)
Definition getSessionForGroup (now : string) (g : string) (reg : Registry)
  : option SessionEntry * Registry :=
  match findGroup g reg with
  | Some (i, entry) =>
      let entry' := set_lastUsedAt now entry in
      (Some entry', mkRegistry (<[i := entry']> (sessions reg)))
  | None => (None, reg)
  end.

(** [createSessionForGroup]; the clock is read twice. *)
Definition createSessionForGroup (now1 now2 : string) (g sid : string) (reg : Registry)
  : SessionEntry * Registry :=
  let entry := mkEntry sid g now1 now2 0 None in
  match findGroup g reg with
  | Some (existing, _) => (entry, mkRegistry (<[existing := entry]> (sessions reg)))
  | None => (entry, mkRegistry (sessions reg ++ [entry]))
  end.

Definition updateTokenCount (g : string) (tokens : num) (reg : Registry) : Registry :=
  match findGroup g reg with
  | Some (i, entry) => mkRegistry (<[i := set_contentTokens tokens entry]> (sessions reg))
  | None => reg
  end.

(** [`${group}__archived_${Date.now()}`] *)
Definition archiveGroup (g : string) (nowMs : Z) : string :=
  g +:+ "__archived_" +:+ decimal nowMs.

(** [rotateSession]; [summary] is [None] for an omitted argument, and the
    empty string is falsy like it. *)
Definition rotateSession (nowMs : Z) (g : string) (summ : option string) (reg : Registry)
  : option string * Registry :=
  match findGroup g reg with
  | None => (None, reg)
  | Some (idx, old) =>
      let old1 :=
        match summ with
        | Some x => if bool_decide (x = "") then old else set_summary x old
        | None => old
        end in
      let old2 := set_group (archiveGroup g nowMs) old1 in
      (Some (sessionId old2), mkRegistry (<[idx := old2]> (sessions reg)))
  end.

Definition listSessions (reg : Registry) : list SessionEntry :=
  List.filter (fun s => negb (includes (group s) "__archived_")) (sessions reg).

Definition listAllSessions (reg : Registry) : list SessionEntry := sessions reg.

(** *** Sequences of operations *)

Inductive Op :=
| OpGet (now : string) (g : string)
| OpCreate (now1 now2 : string) (g sid : string)
| OpUpdateTokenCount (g : string) (tokens : num)
| OpArchive (nowMs : Z) (g : string) (summ : option string)
| OpListLive
| OpListAll.

Definition step (reg : Registry) (o : Op) : Registry :=
  match o with
  | OpGet now g => (getSessionForGroup now g reg).2
  | OpCreate now1 now2 g sid => (createSessionForGroup now1 now2 g sid reg).2
  | OpUpdateTokenCount g tokens => updateTokenCount g tokens reg
  | OpArchive nowMs g summ => (rotateSession nowMs g summ reg).2
  | OpListLive => reg
  | OpListAll => reg
  end.

Definition run (ops : list Op) (reg : Registry) : Registry := foldl step reg ops.

(** An entry is live when its group is not an archival name, the test of
    [listSessions]. *)
Definition isLive (s : SessionEntry) : bool := negb (includes (group s) "__archived_").

Definition liveFor (G : string) (s : SessionEntry) : bool :=
  isLive s && bool_decide (group s = G).

Definition liveCount (G : string) (reg : Registry) : nat :=
  length (List.filter (liveFor G) (sessions reg)).

Definition groupCount (G : string) (reg : Registry) : nat :=
  length (List.filter (fun s => bool_decide (group s = G)) (sessions reg)).

Definition atMostOneLive (reg : Registry) : Prop := forall G, (liveCount G reg <= 1)%nat.

(** Operations that neither archive nor overwrite the entry stored under
    the name [g]: no [create] or [archive] on [g] itself, and no [archive]
    whose archival name is [g]. *)
Definition keeps (g : string) (o : Op) : bool :=
  match o with
  | OpCreate _ _ g' _ => negb (bool_decide (g' = g))
  | OpArchive nowMs g' _ =>
      negb (bool_decide (g' = g)) && negb (bool_decide (archiveGroup g' nowMs = g))
  | _ => true
  end.

(** A registry with a live and an archived entry, and calls on it. *)
Definition registry_sample : Registry :=
  mkRegistry [mkEntry "s-1" "ops" "t0" "t0" 5 None;
              mkEntry "s-0" "ops__archived_1700000000000" "t" "t" 9 (Some "old")].

Definition ops_sample : list Op :=
  [OpGet "t1" "ops"; OpCreate "t2" "t2" "ops" "s-2"; OpUpdateTokenCount "ops" 130000;
   OpArchive 1700000000001 "ops" (Some "Auto-rotated at 130000 tokens");
   OpListLive; OpCreate "t3" "t4" "ops" "s-3"; OpListAll].

End SessionRegistry.

(** *** Which entries an operation can reach *)

Module RegistryOps.
Import JsString SessionRegistry.

Definition isCreate (o : Op) : bool :=
  match o with
  | OpCreate _ _ _ _ => true
  | _ => false
  end.

(** The group names under which an operation looks an entry up or stores
    one: its argument, and for an archival the archival name as well. *)
Definition touched (o : Op) : list string :=
  match o with
  | OpGet _ g => [g]
  | OpCreate _ _ g _ => [g]
  | OpUpdateTokenCount g _ => [g]
  | OpArchive nowMs g _ => [g; archiveGroup g nowMs]
  | OpListLive | OpListAll => []
  end.

(** Whether [ops] leaves the name [g] alone. *)
Definition untouched (g : string) (ops : list Op) : bool :=
  forallb (fun o => forallb (fun g' => negb (String.eqb g' g)) (touched o)) ops.

End RegistryOps.

(** ** The single-session shim ([sessions.ts]) over the registry *)

Module Sessions.
Import JsString Digits SessionRegistry.

Record GlobalSession := mkGlobalSession {
  gs_sessionId : string;
  gs_createdAt : string;
  gs_lastUsedAt : string }.

(** [getSession]: the identifier of the entry of the group default. *)
Definition getSession (now : string) (reg : Registry) : option string * Registry :=
  let '(entry, reg') := getSessionForGroup now "default" reg in
  (sessionId <$> entry, reg').

Definition createSession (now1 now2 : string) (sid : string) (reg : Registry) : Registry :=
  (createSessionForGroup now1 now2 "default" sid reg).2.

Definition peekSession (now : string) (reg : Registry) : option GlobalSession * Registry :=
  let '(entry, reg') := getSessionForGroup now "default" reg in
  ((fun e => mkGlobalSession (sessionId e) (createdAt e) (lastUsedAt e)) <$> entry, reg').

(** [resetSession], on the registry; the removal of the old session file is
    left out. *)
Definition resetSession (nowMs : Z) (reg : Registry) : Registry :=
  (rotateSession nowMs "default" (Some "reset by user") reg).2.

(** *** Backups *)

(** [f.match(/^session_(\d+)\.backup$/)]: the digits, when [f] matches. *)
Definition backupDigits (f : string) : option string :=
  if String.prefix "session_" f then
    let '(ds, tl) := spanDigits (sliceFrom 8 f) in
    if negb (isEmpty ds) && String.eqb tl ".backup" then Some ds else None
  else None.

Definition MAX_SAFE_INTEGER : Z := 2 ^ 53 - 1.

(** The indices of the backups among [files]. *)
Definition backupIndices (files : list string) : list Z :=
  omap (fun f => digitsValue <$> backupDigits f) files.

(** [Math.max(...indices)] of a list that is not empty. *)
Definition maxOf (indices : list Z) : Z :=
  match indices with
  | [] => 0
  | i :: rest => foldl Z.max i rest
  end.

Definition nextIndex (files : list string) : Z :=
  match backupIndices files with
  | [] => 1
  | indices => maxOf indices + 1
  end.

Definition backupName (n : Z) : string := "session_" +:+ decimal n +:+ ".backup".

Inductive BackupResult :=
| NoSession (reg : Registry)
| BackedUp (name : string) (data : GlobalSession) (reg : Registry)
| BeyondSafeIntegers.

(** [backupSession].  [files] is the listing of the directory, empty when it
    cannot be read; [BeyondSafeIntegers] when a backup carries an index that
    a JavaScript number does not hold exactly, which is as far as this goes. *)
Definition backupSession (now : string) (nowMs : Z) (files : list string) (reg : Registry)
    : BackupResult :=
  match getSessionForGroup now "default" reg with
  | (None, reg1) => NoSession reg1
  | (Some entry, reg1) =>
      if forallb (fun i => i <=? MAX_SAFE_INTEGER) (backupIndices files) then
        let name := backupName (nextIndex files) in
        let data := mkGlobalSession (sessionId entry) (createdAt entry) (lastUsedAt entry) in
        BackedUp name data (rotateSession nowMs "default" (Some "backed up") reg1).2
      else BeyondSafeIntegers
  end.

(** A listing with two backups, one of them numbered with leading zeros. *)
Definition sample_listing : list string :=
  ["session.json"; "session_2.backup"; "settings.json"; "session_007.backup";
   "session_x.backup"; "session_9.backup.old"].

Definition sample_default_registry : Registry :=
  mkRegistry [mkEntry "s-1" "ops" "t0" "t0" 5 None;
              mkEntry "s-2" "default" "t1" "t1" 7 None].

End Sessions.

(** ** JSON values as JavaScript sees them *)

Module Json.
Import JsString.

(** A Number as the program can observe one read from JSON: what
    [String(d)] prints and whether it is truthy (not zero). *)
Record number := mkNumber { num_text : string; num_truthy : bool }.

#[warnings="-register-all"]
Inductive json :=
| JNull
| JBool (b : bool)
| JNum (d : number)
| JStr (s : string)
| JArr (items : list json)
| JObj (fields : list (string * json)).

(** The value of an expression: [None] is [undefined]. *)
Definition value := option json.

(** A completion: the value, or a thrown [TypeError]. *)
Inductive completion (A : Type) :=
| Normal (a : A)
| Throw.
Arguments Normal {A} a.
Arguments Throw {A}.

Fixpoint assoc (name : string) (fields : list (string * json)) : value :=
  match fields with
  | [] => None
  | (k, v) :: rest => if String.eqb k name then Some v else assoc name rest
  end.

(** [v.name] for a [v] that is not [undefined], and a name that no prototype
    defines (message, content, text, result, session_id, category, reason):
    reading from [null] throws, an object yields its own field, anything else
    yields [undefined]. *)
Definition prop (v : json) (name : string) : completion value :=
  match v with
  | JNull => Throw
  | JObj fields => Normal (assoc name fields)
  | _ => Normal None
  end.

(** [v?.name] for an already evaluated [v]. *)
Definition optProp (v : value) (name : string) : value :=
  match v with
  | None | Some JNull => None
  | Some (JObj fields) => assoc name fields
  | Some _ => None
  end.

(** [v ?? d] *)
Definition nullish (v : value) (d : json) : json :=
  match v with
  | None | Some JNull => d
  | Some x => x
  end.

(** ToBoolean *)
Definition truthy (v : value) : bool :=
  match v with
  | None | Some JNull => false
  | Some (JBool b) => b
  | Some (JNum d) => num_truthy d
  | Some (JStr s) => negb (isEmpty s)
  | Some (JArr _) | Some (JObj _) => true
  end.

Fixpoint joinWith (sep : string) (parts : list string) : string :=
  match parts with
  | [] => ""
  | [x] => x
  | x :: rest => x +:+ sep +:+ joinWith sep rest
  end.

(** [String(v)]: an array prints its elements joined by commas, [null]
    elements as nothing; an object prints as "[object Object]". *)
Fixpoint toString (v : json) : string :=
  match v with
  | JNull => "null"
  | JBool true => "true"
  | JBool false => "false"
  | JNum d => num_text d
  | JStr s => s
  | JArr items =>
      joinWith ","
        ((fix each (l : list json) : list string :=
            match l with
            | [] => []
            | JNull :: rest => "" :: each rest
            | x :: rest => toString x :: each rest
            end) items)
  | JObj _ => "[object Object]"
  end.

(** [v.length] for a truthy [v]: the code units of a string, the elements of
    an array, the own field called length of an object that has one, and
    [undefined] for any other value. *)
Inductive lengthRead :=
| Units (n : Z)
| NoLength
| OwnLength (v : json).

Definition lengthOf (v : json) : lengthRead :=
  match v with
  | JStr s => Units (Z.of_nat (String.length s))
  | JArr items => Units (Z.of_nat (length items))
  | JObj fields =>
      match assoc "length" fields with
      | Some w => OwnLength w
      | None => NoLength
      end
  | _ => NoLength
  end.

End Json.

(** ** The token estimator ([src/token-estimator.ts]) *)

Module TokenEstimator.
Import JsString Json.

(** The projects root: [readdir] fails ([None]) or lists directory names;
    [file dir name] is what reading [join(PROJECTS_DIR, dir, name)] gives when
    [stat] finds that path: its text, or a failure. *)
Record Projects := mkProjects {
  readdir : option (list string);
  file : string -> string -> option (completion string) }.

(** [findTranscriptPath], returning what is behind the path it finds. *)
Definition findTranscriptPath (fs : Projects) (sessionId : string)
    : option (completion string) :=
  let filename := sessionId +:+ ".jsonl" in
  match readdir fs with
  | None => None
  | Some dirs =>
      (fix search (l : list string) : option (completion string) :=
         match l with
         | [] => None
         | dir :: rest =>
             match file fs dir filename with
             | Some text => Some text
             | None => search rest
             end
         end) dirs
  end.

(** [totalChars]: a number of characters; [NaN], once [undefined] has been
    added to it; or a sum the model does not follow, once the own field
    length of an object has been added, which can hold a number, a text or
    anything else. *)
Inductive count :=
| Chars (n : Z)
| CharsNaN
| Unfollowed.

(** [totalChars += v.length] *)
Definition addLength (total : count) (v : json) : count :=
  match lengthOf v, total with
  | OwnLength _, _ | _, Unfollowed => Unfollowed
  | Units n, Chars t => Chars (t + n)
  | _, _ => CharsNaN
  end.

(** [totalChars += String(v).length] *)
Definition addStringLength (total : count) (v : json) : count :=
  match total with
  | Chars t => Chars (t + Z.of_nat (String.length (toString v)))
  | other => other
  end.

Definition addIfTruthy (add : count -> json -> count) (total : count) (v : value) : count :=
  match v with
  | Some x => if truthy v then add total x else total
  | None => total
  end.

(** The loop over the blocks of [obj.message.content]: the total when the
    loop ends, or the total reached when reading from a [null] block throws. *)
Fixpoint messageBlocks (blocks : list json) (total : count) : completion count * count :=
  match blocks with
  | [] => (Normal total, total)
  | block :: rest =>
      match prop block "text" with
      | Throw => (Throw, total)
      | Normal text =>
          let total1 := addIfTruthy addLength total text in
          let total2 := addIfTruthy addStringLength total1 (optProp (Some block) "content") in
          messageBlocks rest total2
      end
  end.

(** The loop over the blocks of [obj.result.content]. *)
Fixpoint resultBlocks (blocks : list json) (total : count) : completion count * count :=
  match blocks with
  | [] => (Normal total, total)
  | block :: rest =>
      match prop block "text" with
      | Throw => (Throw, total)
      | Normal text => resultBlocks rest (addIfTruthy addLength total text)
      end
  end.

(** The body of the [try] for one parsed record; the second component is
    [totalChars] as the statement leaves it, thrown or not. *)
Definition countRecord (obj : json) (total : count) : completion count * count :=
  match prop obj "message" with
  | Throw => (Throw, total)
  | Normal message =>
      let content := optProp message "content" in
      let afterMessage :=
        if truthy content then
          match content with
          | Some (JStr s) => (Normal (addLength total (JStr s)), addLength total (JStr s))
          | Some (JArr blocks) => messageBlocks blocks total
          | _ => (Normal total, total)
          end
        else (Normal total, total) in
      match afterMessage with
      | (Throw, t) => (Throw, t)
      | (Normal _, total1) =>
          let content := optProp (optProp (Some obj) "result") "content" in
          if truthy content then
            match content with
            | Some (JStr s) => (Normal (addLength total1 (JStr s)), addLength total1 (JStr s))
            | Some (JArr blocks) => resultBlocks blocks total1
            | _ => (Normal total1, total1)
            end
          else (Normal total1, total1)
      end
  end.

(** *** The text a record contributes

    The strings whose lengths the code adds up, listed in the order it adds
    them, for records whose [text] fields hold strings. *)

Definition textOf (v : value) : list string :=
  match v with
  | Some (JStr s) => [s]
  | _ => []
  end.

Definition stringOf (v : value) : list string :=
  match v with
  | Some x => if truthy v then [toString x] else []
  | None => []
  end.

Definition isNull (v : json) : bool :=
  match v with JNull => true | _ => false end.

(** The blocks before the first [null] one, where the loop stops. *)
Fixpoint beforeNull (blocks : list json) : list json :=
  match blocks with
  | [] => []
  | block :: rest => if isNull block then [] else block :: beforeNull rest
  end.

Definition messageTexts (blocks : list json) : list string :=
  concat (List.map (fun block => (textOf (optProp (Some block) "text") ++
                                  stringOf (optProp (Some block) "content"))%list)
            (beforeNull blocks)).

Definition resultTexts (blocks : list json) : list string :=
  concat (List.map (fun block => textOf (optProp (Some block) "text")) (beforeNull blocks)).

Definition recordTexts (obj : json) : list string :=
  let message := optProp (optProp (Some obj) "message") "content" in
  let result := optProp (optProp (Some obj) "result") "content" in
  let ofResult :=
    match result with
    | Some (JStr s) => [s]
    | Some (JArr blocks) => resultTexts blocks
    | _ => []
    end in
  match message with
  | Some (JStr s) => s :: ofResult
  | Some (JArr blocks) =>
      (messageTexts blocks ++ (if existsb isNull blocks then [] else ofResult))%list
  | _ => ofResult
  end.

Definition sumLengths (texts : list string) : Z :=
  foldr (fun s n => Z.of_nat (String.length s) + n) 0 texts.

(** A [text] field is a string, or falsy, or absent. *)
Definition textIsString (block : json) : bool :=
  match optProp (Some block) "text" with
  | Some (JStr _) => true
  | v => negb (truthy v)
  end.

Definition blocksOk (content : value) : bool :=
  match content with
  | Some (JArr blocks) => forallb textIsString blocks
  | _ => true
  end.

Definition textsAreStrings (obj : json) : bool :=
  blocksOk (optProp (optProp (Some obj) "message") "content") &&
  blocksOk (optProp (optProp (Some obj) "result") "content").

(** The result part of a record, on its own. *)
Definition countResult (r : value) (total : count) : count :=
  if truthy r then
    match r with
    | Some (JStr s) => addLength total (JStr s)
    | Some (JArr blocks) => (resultBlocks blocks total).2
    | _ => total
    end
  else total.

Definition resultPart (r : value) : list string :=
  match r with
  | Some (JStr s) => [s]
  | Some (JArr blocks) => resultTexts blocks
  | _ => []
  end.

(** [Math.round(totalChars / 3.7)].  The quotient of an integer by 3.7 is
    never closer than 1/74 to a half-integer, far more than the error of the
    double division for any transcript below 2^40 characters, so the result is
    the integer nearest to 10 * totalChars / 37. *)
Definition roundDiv37 (totalChars : Z) : Z := (20 * totalChars + 37) / 74.

Section WithParser.

(** [JSON.parse]: [None] when it throws. *)
Variable JSON_parse : string -> option json.

(** One turn of the loop over the lines. *)
Definition countLine (total : count) (line : string) : count :=
  if isEmpty (trim line) then total
  else match JSON_parse line with
       | None => total
       | Some obj => (countRecord obj total).2
       end.

Definition totalChars (text : string) : count :=
  foldl countLine (Chars 0) (splitLines text).

(** The characters a line contributes: none when it is blank or does not
    parse. *)
Definition lineChars (line : string) : Z :=
  if isEmpty (trim line) then 0
  else match JSON_parse line with
       | None => 0
       | Some obj => sumLengths (recordTexts obj)
       end.

Definition sumLines (lines : list string) : Z :=
  foldr (fun line n => lineChars line + n) 0 lines.

Definition lineOk (line : string) : bool :=
  match JSON_parse line with
  | Some obj => textsAreStrings obj
  | None => true
  end.

(** What a call of [estimateSessionTokens] comes to: the number returned,
    a failure when the transcript found cannot be read, or a sum the model
    does not follow. *)
Inductive Estimate :=
| Estimated (tokens : num)
| ReadFails
| NotFollowed.

Definition estimateSessionTokens (fs : Projects) (sessionId : string) : Estimate :=
  match findTranscriptPath fs sessionId with
  | None => Estimated 0
  | Some Throw => ReadFails
  | Some (Normal text) =>
      match totalChars text with
      | Chars n => Estimated (roundDiv37 n)
      | CharsNaN => Estimated NaN
      | Unfollowed => NotFollowed
      end
  end.

End WithParser.

(** *** A sample transcript

    Three records, with 100, 200 and 70 characters of content, and a line
    that is cut short. *)

Fixpoint replicateChar (n : nat) (c : ascii) : string :=
  match n with
  | O => ""
  | S n' => String c (replicateChar n' c)
  end.

Definition sample_line1 : string :=
  "{" +:+ lit "type" +:+ ":" +:+ lit "user" +:+ "," +:+ lit "message" +:+ ":{" +:+
  lit "content" +:+ ":" +:+ lit (replicateChar 100 "a") +:+ "}}".

Definition sample_line2 : string :=
  "{" +:+ lit "type" +:+ ":" +:+ lit "assistant" +:+ "," +:+ lit "message" +:+ ":{" +:+
  lit "content" +:+ ":[{" +:+ lit "type" +:+ ":" +:+ lit "text" +:+ "," +:+
  lit "text" +:+ ":" +:+ lit (replicateChar 200 "b") +:+ "}]}}".

Definition sample_line3 : string :=
  "{" +:+ lit "type" +:+ ":" +:+ lit "user" +:+ "," +:+ lit "message" +:+ ":{" +:+
  lit "content" +:+ ":[{" +:+ lit "type" +:+ ":" +:+ lit "tool_result" +:+ "," +:+
  lit "content" +:+ ":" +:+ lit (replicateChar 70 "c") +:+ "}]}}".

Definition sample_line_cut : string :=
  "{" +:+ lit "type" +:+ ":" +:+ lit "user" +:+ "," +:+ lit "mess".

Definition sample_transcript : string :=
  sample_line1 +:+ newline +:+ sample_line2 +:+ newline +:+ sample_line_cut +:+ newline +:+
  sample_line3 +:+ newline.

(** What [JSON.parse] returns on the sample lines; it throws on the cut one
    (and this table knows no other text). *)
Definition sample_parse (line : string) : option json :=
  if String.eqb line sample_line1 then
    Some (JObj [("type", JStr "user");
                ("message", JObj [("content", JStr (replicateChar 100 "a"))])])
  else if String.eqb line sample_line2 then
    Some (JObj [("type", JStr "assistant");
                ("message", JObj [("content",
                   JArr [JObj [("type", JStr "text");
                               ("text", JStr (replicateChar 200 "b"))]])])])
  else if String.eqb line sample_line3 then
    Some (JObj [("type", JStr "user");
                ("message", JObj [("content",
                   JArr [JObj [("type", JStr "tool_result");
                               ("content", JStr (replicateChar 70 "c"))]])])])
  else None.

(** A record with a tool result given as blocks, one of which carries its
    text in a [content] field; and the same blocks as message content. *)
Definition sample_blocks : list json :=
  [JObj [("type", JStr "text"); ("text", JStr (replicateChar 10 "d"))];
   JObj [("type", JStr "tool_result"); ("content", JStr (replicateChar 360 "e"))]].

Definition sample_blocks_text : string :=
  "[{" +:+ lit "type" +:+ ":" +:+ lit "text" +:+ "," +:+ lit "text" +:+ ":" +:+
  lit (replicateChar 10 "d") +:+ "},{" +:+ lit "type" +:+ ":" +:+ lit "tool_result" +:+ "," +:+
  lit "content" +:+ ":" +:+ lit (replicateChar 360 "e") +:+ "}]".

Definition sample_result_line : string :=
  "{" +:+ lit "result" +:+ ":{" +:+ lit "content" +:+ ":" +:+ sample_blocks_text +:+ "}}".

Definition sample_message_line : string :=
  "{" +:+ lit "message" +:+ ":{" +:+ lit "content" +:+ ":" +:+ sample_blocks_text +:+ "}}".

Definition sample_parse_blocks (line : string) : option json :=
  if String.eqb line sample_result_line then
    Some (JObj [("result", JObj [("content", JArr sample_blocks)])])
  else if String.eqb line sample_message_line then
    Some (JObj [("message", JObj [("content", JArr sample_blocks)])])
  else None.

Definition projects_with (sessionId text : string) : Projects :=
  mkProjects (Some ["-home-bot-claw"])
    (fun dir name =>
       if String.eqb name (sessionId +:+ ".jsonl") then Some (Normal text) else None).

Definition sample_projects : Projects :=
  mkProjects (Some ["-home-bot-notes"; "-home-bot-claw"])
    (fun dir name =>
       if String.eqb dir "-home-bot-claw" && String.eqb name "abc123.jsonl"
       then Some (Normal sample_transcript) else None).

(** A record whose block carries a number where its text should be, and a
    projects root whose transcript cannot be read. *)
Definition sample_number_line : string :=
  "{" +:+ lit "message" +:+ ":{" +:+ lit "content" +:+ ":[{" +:+
  lit "type" +:+ ":" +:+ lit "text" +:+ "," +:+ lit "text" +:+ ":5}]}}".

Definition sample_parse_number (line : string) : option json :=
  if String.eqb line sample_number_line then
    Some (JObj [("message", JObj [("content",
            JArr [JObj [("type", JStr "text"); ("text", JNum (mkNumber "5" true))]])])])
  else None.

Definition sample_unreadable : Projects :=
  mkProjects (Some ["-home-bot-claw"])
    (fun dir name => if String.eqb name "abc123.jsonl" then Some Throw else None).

End TokenEstimator.

(** *** A record cut short by a null block *)

Module TokenEstimatorSamples.
Import JsString Json TokenEstimator.

Definition sample_cut_line : string :=
  "{" +:+ lit "message" +:+ ":{" +:+ lit "content" +:+ ":[{" +:+
  lit "type" +:+ ":" +:+ lit "text" +:+ "," +:+ lit "text" +:+ ":" +:+ lit "hello" +:+
  "},null,{" +:+ lit "text" +:+ ":" +:+ lit "never counted" +:+ "}]}," +:+
  lit "result" +:+ ":{" +:+ lit "content" +:+ ":" +:+ lit "nor this" +:+ "}}".

Definition sample_cut_fields : list (string * json) :=
  [("message",
    JObj [("content",
           JArr [JObj [("type", JStr "text"); ("text", JStr "hello")];
                 JNull;
                 JObj [("text", JStr "never counted")]])]);
   ("result", JObj [("content", JStr "nor this")])].

Definition sample_cut_parse (text : string) : option json :=
  if String.eqb text sample_cut_line then Some (JObj sample_cut_fields) else None.

End TokenEstimatorSamples.

(** ** The runner ([runner.ts]): rotation policy and invocation *)

Module Runner.
Import JsString Json SessionRegistry Sessions.

Definition DEFAULT_ROTATION_THRESHOLD : Z := 120000.

Record RunResult := mkRunResult {
  stdout : string;
  stderr : string;
  exitCode : Z }.

(** [undefined] fields are [None]. *)
Record RunOptions := mkRunOptions {
  sessionGroup : option string;
  opt_model : option string;
  tools : option string;
  settingSources : option string;
  effort : option string;
  maxTurns : option Z;
  noSessionPersistence : bool }.

(** *** Settings ([config.ts] is not among the sources: the fields the runner
    reads, at the types it reads them) *)

Record ModelConfig := mkModelConfig { model : string; api : string }.

Record FallbackSettings := mkFallback {
  fallback_model : option string;
  fallback_api : option string }.

Inductive SecurityLevel := locked | strict | moderate | unrestricted.

Record SecurityConfig := mkSecurity {
  level : SecurityLevel;
  allowedTools : list string;
  disallowedTools : list string }.

Record RotationSettings := mkRotation { threshold : option Z }.

Record Settings := mkSettings {
  settings_model : string;
  settings_api : string;
  fallback : option FallbackSettings;
  security : SecurityConfig;
  sessionRotation : option RotationSettings }.

(** [/you(?:'|')ve hit your limit/i.test(s)] *)
Definition RATE_LIMIT_PATTERN_test (s : string) : bool :=
  includes (foldCase s) "you've hit your limit".

Definition extractRateLimitMessage (stdout stderr : string) : option string :=
  (fix scan (texts : list string) : option string :=
     match texts with
     | [] => None
     | text :: rest =>
         let trimmed := trim text in
         if negb (isEmpty trimmed) && RATE_LIMIT_PATTERN_test trimmed
         then Some trimmed else scan rest
     end) [stdout; stderr].

Definition sameModelConfig (a b : ModelConfig) : bool :=
  bool_decide (toLowerCase (trim (model a)) = toLowerCase (trim (model b))) &&
  bool_decide (trim (api a) = trim (api b)).

Definition hasModelConfig (value : ModelConfig) : bool :=
  negb (isEmpty (trim (model value))) || negb (isEmpty (trim (api value))).

Definition buildSecurityArgs (sec : SecurityConfig) : list string :=
  (["--dangerously-skip-permissions"] ++
   match level sec with
   | locked => ["--tools"; "Read,Grep,Glob"]
   | strict => ["--disallowedTools"; "Bash,WebSearch,WebFetch"]
   | moderate | unrestricted => []
   end ++
   match allowedTools sec with
   | [] => []
   | l => ["--allowedTools"; joinWith " " l]
   end ++
   match disallowedTools sec with
   | [] => []
   | l => ["--disallowedTools"; joinWith " " l]
   end)%list.

(** An optional string that is truthy. *)
Definition given (o : option string) : option string :=
  match o with
  | Some s => if isEmpty s then None else Some s
  | None => None
  end.

(** [args.indexOf(x)] *)
Fixpoint listIndexOf (x : string) (l : list string) : option nat :=
  match l with
  | [] => None
  | y :: rest => if String.eqb y x then Some 0%nat else S <$> listIndexOf x rest
  end.

(** [args.splice(i, 2)] *)
Definition splice2 (i : nat) (l : list string) : list string :=
  (firstn i l ++ skipn (i + 2) l)%list.

(** What the invocation reads besides the registry: the prompt files joined
    by [loadPrompts], the project's CLAUDE.md ([None] when missing or
    unreadable) and the directory-scope paragraph. *)
Record Files := mkFiles {
  promptContent : string;
  claudeMd : option string;
  DIR_SCOPE_PROMPT : string }.

Definition blankLine : string := String "010"%char (String "010"%char "").

(** The argument list [execClaude] builds. *)
Definition buildArgs (settings : Settings) (files : Files) (prompt : string)
    (options : RunOptions) (existing : option string) : list string :=
  let outputFormat := match existing with None => "json" | Some _ => "text" end in
  let args0 := (["claude"; "-p"; prompt; "--output-format"; outputFormat] ++
                buildSecurityArgs (security settings))%list in
  let args1 := match existing with
               | Some sid => (args0 ++ ["--resume"; sid])%list
               | None => args0
               end in
  let args2 := if noSessionPersistence options then (args1 ++ ["--no-input"])%list else args1 in
  let args3 := match given (tools options) with
               | Some t =>
                   let spliced := match listIndexOf "--tools" args2 with
                                  | Some i => splice2 i args2
                                  | None => args2
                                  end in
                   (spliced ++ ["--tools"; t])%list
               | None => args2
               end in
  let args4 := match given (settingSources options) with
               | Some x => (args3 ++ ["--setting-sources"; x])%list
               | None => args3
               end in
  let args5 := match given (effort options) with
               | Some x => (args4 ++ ["--effort"; x])%list
               | None => args4
               end in
  let args6 := match maxTurns options with
               | Some n => if n =? 0 then args5 else (args5 ++ ["--max-turns"; decimal n])%list
               | None => args5
               end in
  let appendParts :=
    (["You are running inside ClaudeClaw."] ++
     (if isEmpty (promptContent files) then [] else [promptContent files]) ++
     match claudeMd files with
     | Some text => if isEmpty (trim text) then [] else [trim text]
     | None => []
     end ++
     match level (security settings) with
     | unrestricted => []
     | _ => [DIR_SCOPE_PROMPT files]
     end)%list in
  (args6 ++ ["--append-system-prompt"; joinWith blankLine appendParts])%list.

(** What one run of the CLI gives back. *)
Record ProcessResult := mkProcessResult {
  rawStdout : string;
  proc_stderr : string;
  proc_exitCode : Z }.

(** The clock readings of one invocation, in the order of the calls. *)
Record Clock := mkClock {
  t_check : string;     (* getSessionForGroup in checkAndRotate *)
  t_rotate : Z;         (* Date.now() in rotateSession *)
  t_get : string;       (* getSessionForGroup, or getSession, in execClaude *)
  t_created : string;   (* createdAt in createSessionForGroup *)
  t_used : string }.    (* lastUsedAt in createSessionForGroup *)

Section WithEnvironment.

(** The environment, for calls that return.  [estimateSessionTokens] gives a
    whole number, or [NaN] on a transcript whose sum stopped being a number. *)
Variable estimateSessionTokens : string -> num.

(** [JSON.parse]: [None] when it throws. *)
Variable JSON_parse : string -> option json.

(** The CLI: [Bun.spawn] on the final arguments, in the environment
    [buildChildEnv] derives from the model and the credentials. *)
Variable spawn : list string -> string -> string -> ProcessResult.

Variable settings : Settings.
Variable files : Files.

Definition rotationThreshold : Z :=
  match sessionRotation settings with
  | Some r => match threshold r with
              | Some t => t
              | None => DEFAULT_ROTATION_THRESHOLD
              end
  | None => DEFAULT_ROTATION_THRESHOLD
  end.

Definition checkAndRotate (clock : Clock) (group : string) (reg : Registry) : Registry :=
  match getSessionForGroup (t_check clock) group reg with
  | (None, reg1) => reg1
  | (Some entry, reg1) =>
      let tokens := estimateSessionTokens (sessionId entry) in
      let reg2 := updateTokenCount group tokens reg1 in
      if numLt tokens rotationThreshold then reg2
      else (rotateSession (t_rotate clock) group
              (Some ("Auto-rotated at " +:+ numText tokens +:+ " tokens")) reg2).2
  end.

Definition runClaudeOnce (baseArgs : list string) (model api : string) : ProcessResult :=
  let normalizedModel := toLowerCase (trim model) in
  let args :=
    if negb (isEmpty (trim model)) && negb (String.eqb normalizedModel "glm")
    then (baseArgs ++ ["--model"; trim model])%list else baseArgs in
  spawn args model api.

(** The part of [execClaude] before the CLI runs: the group, and the session
    to resume if there is one. *)
Definition truthyGroup (options : RunOptions) : bool :=
  match given (sessionGroup options) with Some _ => true | None => false end.

Definition groupOf (options : RunOptions) : string :=
  match sessionGroup options with Some g => g | None => "default" end.

Definition prepare (clock : Clock) (options : RunOptions) (reg : Registry)
    : option string * Registry :=
  if noSessionPersistence options then (None, reg)
  else if truthyGroup options then
    let reg1 := checkAndRotate clock (groupOf options) reg in
    let '(entry, reg2) := getSessionForGroup (t_get clock) (groupOf options) reg1 in
    (sessionId <$> entry, reg2)
  else getSession (t_get clock) reg.

(** The runs of the CLI: the primary one, and the one with the fallback
    model when the primary hit the limit. *)
Definition primaryConfig (options : RunOptions) : ModelConfig :=
  mkModelConfig (match opt_model options with Some m => m | None => settings_model settings end)
                (settings_api settings).

Definition fallbackConfig : ModelConfig :=
  match fallback settings with
  | Some f => mkModelConfig (match fallback_model f with Some m => m | None => "" end)
                            (match fallback_api f with Some a => a | None => "" end)
  | None => mkModelConfig "" ""
  end.

Definition retries (options : RunOptions) (primary : ProcessResult) : bool :=
  match extractRateLimitMessage (rawStdout primary) (proc_stderr primary) with
  | Some _ => hasModelConfig fallbackConfig &&
              negb (sameModelConfig (primaryConfig options) fallbackConfig)
  | None => false
  end.

(** The results of the runs, in order; the last one is [exec]. *)
Definition runs (args : list string) (options : RunOptions) : list ProcessResult :=
  let primary := runClaudeOnce args (model (primaryConfig options)) (api (primaryConfig options)) in
  if retries options primary
  then [primary; runClaudeOnce args (model fallbackConfig) (api fallbackConfig)]
  else [primary].

(** A field the code reads as a string. *)
Inductive stringField :=
| IsString (s : string)
| Missing              (* undefined or null *)
| OtherType.

Definition readString (v : value) : stringField :=
  match v with
  | None | Some JNull => Missing
  | Some (JStr s) => IsString s
  | Some _ => OtherType
  end.

(** How an invocation ends.  [OutsideTypes]: the CLI printed JSON whose
    [result] is neither a string nor missing, so that the output returned is
    not a string, or whose [session_id], which the code stores, is not a
    string; it carries the registry where that still holds entries of the
    declared type. *)
Inductive Outcome :=
| Returned (result : RunResult) (usedFallback : bool) (reg : Registry)
| OutsideTypes (reg : option Registry).

(** The registry after the session of a first run was stored, if it is
    stored: none when what is stored for [sessionId] is not a string. *)
Definition store (options : RunOptions) (clock : Clock) (session_id : value)
    (reg : Registry) : option Registry :=
  if truthyGroup options then
    match readString session_id with
    | IsString sid =>
        Some (createSessionForGroup (t_created clock) (t_used clock)
                (groupOf options) sid reg).2
    | _ => None
    end
  else if negb (noSessionPersistence options) then
    match readString session_id with
    | IsString sid => Some (createSession (t_created clock) (t_used clock) sid reg)
    | _ => None
    end
  else Some reg.

(** The part of [execClaude] after the CLI ran. *)
Definition finish (options : RunOptions) (isNew : bool) (exec : ProcessResult)
    (clock : Clock) (usedFallback : bool) (reg : Registry) : Outcome :=
  match extractRateLimitMessage (rawStdout exec) (proc_stderr exec) with
  | Some rateLimitMessage =>
      Returned (mkRunResult rateLimitMessage (proc_stderr exec) (proc_exitCode exec))
               usedFallback reg
  | None =>
      let unparsed :=
        Returned (mkRunResult (rawStdout exec) (proc_stderr exec) (proc_exitCode exec))
                 usedFallback reg in
      if isNew && (proc_exitCode exec =? 0) then
        match JSON_parse (rawStdout exec) with
        | None => unparsed
        | Some json =>
            match prop json "session_id" with
            | Throw => unparsed
            | Normal session_id =>
                let stored := store options clock session_id reg in
                match readString (optProp (Some json) "result"), stored with
                | IsString out, Some reg' =>
                    Returned (mkRunResult out (proc_stderr exec) (proc_exitCode exec))
                             usedFallback reg'
                | Missing, Some reg' =>
                    Returned (mkRunResult "" (proc_stderr exec) (proc_exitCode exec))
                             usedFallback reg'
                | _, _ => OutsideTypes stored
                end
            end
        end
      else unparsed
  end.

(** [execClaude]; the log file it writes is left out. *)
Definition execClaude (clock : Clock) (name prompt : string) (options : RunOptions)
    (reg : Registry) : Outcome :=
  let '(existing, reg1) := prepare clock options reg in
  let isNew := match existing with None => true | Some _ => false end in
  let args := buildArgs settings files prompt options existing in
  let results := runs args options in
  let exec := List.last results (mkProcessResult "" "" 1) in
  let usedFallback := (1 <? length results)%nat in
  finish options isNew exec clock usedFallback reg1.

End WithEnvironment.

(** *** Samples *)

Definition sample_settings : Settings :=
  mkSettings "opus" "" (Some (mkFallback (Some "glm") (Some "key-2")))
    (mkSecurity moderate [] []) None.

Definition sample_files : Files := mkFiles "" None "Stay inside the project.".

Definition sample_clock : Clock :=
  mkClock "2026-01-01T00:00:00.000Z" 1767225600000 "2026-01-01T00:00:00.001Z"
    "2026-01-01T00:00:09.000Z" "2026-01-01T00:00:09.000Z".

Definition sample_options : RunOptions :=
  mkRunOptions (Some "ops") None None None None None false.

Definition sample_registry : Registry :=
  mkRegistry [mkEntry "s-0" "general" "t" "t" 10 None;
              mkEntry "s-1" "ops" "t" "t" 130000 None].

(** 130000 tokens for the session of group ops, nothing elsewhere. *)
Definition sample_estimate (sessionId : string) : num :=
  if String.eqb sessionId "s-1" then 130000 else 0.

(** A threshold of 50000 configured, and estimates of 60000 tokens and of
    [NaN] for the session of group ops. *)
Definition sample_rotation : Settings :=
  mkSettings "opus" "" None (mkSecurity moderate [] []) (Some (mkRotation (Some 50000))).

Definition sample_estimate_60000 (sessionId : string) : num :=
  if String.eqb sessionId "s-1" then 60000 else 0.

Definition sample_estimate_NaN (sessionId : string) : num :=
  if String.eqb sessionId "s-1" then NaN else 0.

(** The structured output of a first run. *)
Definition sample_output : string :=
  "{" +:+ lit "session_id" +:+ ":" +:+ lit "abc123" +:+ "," +:+
  lit "result" +:+ ":" +:+ lit "hello back" +:+ "}".

(** The primary model is out of quota; any other one answers. *)
Definition sample_spawn (args : list string) (model api : string) : ProcessResult :=
  if String.eqb model "opus"
  then mkProcessResult "  You've hit your limit - resets 3pm  " "" 1
  else mkProcessResult sample_output "" 0.

Definition sample_JSON_parse (text : string) : option json :=
  if String.eqb text sample_output
  then Some (JObj [("session_id", JStr "abc123"); ("result", JStr "hello back")])
  else None.

(** A registry without an entry for the group ops. *)
Definition sample_start : Registry :=
  mkRegistry [mkEntry "s-0" "general" "t" "t" 10 None].

End Runner.

(** ** Invocations: the arguments in two parts, and [bootstrap] *)

Module Invocation.
Import JsString Json SessionRegistry Sessions Runner.

(** The settings with another security level. *)
Definition withLevel (lv : SecurityLevel) (s : Settings) : Settings :=
  mkSettings (settings_model s) (settings_api s) (fallback s)
    (mkSecurity lv (allowedTools (security s)) (disallowedTools (security s)))
    (sessionRotation s).

(** The arguments [execClaude] has built once the tools of the job are in:
    [buildArgs] up to that point. *)
Definition argsUpToTools (settings : Settings) (prompt : string) (options : RunOptions)
    (existing : option string) : list string :=
  let outputFormat := match existing with None => "json" | Some _ => "text" end in
  let args0 := (["claude"; "-p"; prompt; "--output-format"; outputFormat] ++
                buildSecurityArgs (security settings))%list in
  let args1 := match existing with
               | Some sid => (args0 ++ ["--resume"; sid])%list
               | None => args0
               end in
  let args2 := if noSessionPersistence options then (args1 ++ ["--no-input"])%list else args1 in
  match given (tools options) with
  | Some t =>
      let spliced := match listIndexOf "--tools" args2 with
                     | Some i => splice2 i args2
                     | None => args2
                     end in
      (spliced ++ ["--tools"; t])%list
  | None => args2
  end.

(** What [buildArgs] does from there on, to the arguments [args3]. *)
Definition argsAfterTools (settings : Settings) (files : Files) (options : RunOptions)
    (args3 : list string) : list string :=
  let args4 := match given (settingSources options) with
               | Some x => (args3 ++ ["--setting-sources"; x])%list
               | None => args3
               end in
  let args5 := match given (effort options) with
               | Some x => (args4 ++ ["--effort"; x])%list
               | None => args4
               end in
  let args6 := match maxTurns options with
               | Some n => if n =? 0 then args5 else (args5 ++ ["--max-turns"; decimal n])%list
               | None => args5
               end in
  let appendParts :=
    (["You are running inside ClaudeClaw."] ++
     (if isEmpty (promptContent files) then [] else [promptContent files]) ++
     match claudeMd files with
     | Some text => if isEmpty (trim text) then [] else [trim text]
     | None => []
     end ++
     match level (security settings) with
     | unrestricted => []
     | _ => [DIR_SCOPE_PROMPT files]
     end)%list in
  (args6 ++ ["--append-system-prompt"; joinWith blankLine appendParts])%list.

Inductive Bootstrapped :=
| AlreadyLive (reg : Registry)
| Ran (outcome : Outcome).

(** Calling with [options] left out. *)
Definition noOptions : RunOptions := mkRunOptions None None None None None None false.

Section WithEnvironment.

Variable estimateSessionTokens : string -> num.
Variable JSON_parse : string -> option json.
Variable spawn : list string -> string -> string -> ProcessResult.
Variable settings : Settings.
Variable files : Files.

(** The arguments of the CLI and its last run. *)
Definition argsOf (clock : Clock) (prompt : string) (options : RunOptions) (reg : Registry)
    : list string :=
  buildArgs settings files prompt options
    (prepare estimateSessionTokens settings clock options reg).1.

Definition lastRun (clock : Clock) (prompt : string) (options : RunOptions) (reg : Registry)
    : ProcessResult :=
  List.last (runs spawn settings (argsOf clock prompt options reg) options)
            (mkProcessResult "" "" 1).

(** [bootstrap]: nothing but the lookup when there is a session; [now] is
    the time of that lookup. *)
Definition bootstrap (now : string) (clock : Clock) (reg : Registry) : Bootstrapped :=
  match getSession now reg with
  | (Some _, reg1) => AlreadyLive reg1
  | (None, reg1) =>
      Ran (execClaude estimateSessionTokens JSON_parse spawn settings files
             clock "bootstrap" "Wakeup, my friend!" noOptions reg1)
  end.

End WithEnvironment.

(** A CLI that answers every run with the same new session. *)
Definition sample_fresh_spawn (args : list string) (model api : string) : ProcessResult :=
  mkProcessResult sample_output "" 0.

(** Settings at the level locked. *)
Definition sample_locked : Settings :=
  mkSettings "opus" "" None (mkSecurity locked ["Read"] ["Bash"; "WebFetch"]) None.

(** A run for the group ops that keeps no session. *)
Definition sample_stateless_ops : RunOptions :=
  mkRunOptions (Some "ops") None None None None None true.

Definition sample_tools_options : RunOptions :=
  mkRunOptions (Some "ops") None (Some "Read,Bash,Skill") None None None false.

End Invocation.

(** ** The Telegram router ([router.ts]): reply routes and classification *)

Module Router.
Import JsString Json.

Definition MAX_ENTRIES : nat := 500.

(** A [Map<number, string>]: its entries in insertion order. *)
Definition MessageMap := list (Z * string).

(** [map.set(key, value)]: a key already present keeps its place. *)
Fixpoint mapSet (key : Z) (value : string) (m : MessageMap) : MessageMap :=
  match m with
  | [] => [(key, value)]
  | (k, v) :: rest =>
      if k =? key then (k, value) :: rest else (k, v) :: mapSet key value rest
  end.

(** [map.get(key)] *)
Fixpoint mapGet (key : Z) (m : MessageMap) : option string :=
  match m with
  | [] => None
  | (k, v) :: rest => if k =? key then Some v else mapGet key rest
  end.

(** [new Map(entries)] *)
Definition newMap (entries : list (Z * string)) : MessageMap :=
  foldl (fun m kv => mapSet kv.1 kv.2 m) [] entries.

(** [entries.slice(-n)] *)
Definition sliceLast (n : nat) (entries : list (Z * string)) : list (Z * string) :=
  skipn (length entries - n) entries.

(** The file: missing, unreadable as the array it should hold, or holding
    one. *)
Inductive MapFile :=
| NoFile
| Unreadable
| Stored (data : list (Z * string)).

Record RouterState := mkRouterState {
  messageSessionMap : MessageMap;
  mapLoaded : bool;
  mapFile : MapFile }.

Definition loadMap (st : RouterState) : RouterState :=
  if mapLoaded st then st
  else match mapFile st with
       | NoFile => mkRouterState (messageSessionMap st) true (mapFile st)
       | Stored data => mkRouterState (newMap data) true (mapFile st)
       | Unreadable => mkRouterState [] true (mapFile st)
       end.

Definition saveMap (st : RouterState) : RouterState :=
  let entries := messageSessionMap st in
  let pruned := sliceLast MAX_ENTRIES entries in
  mkRouterState (newMap pruned) (mapLoaded st) (Stored pruned).

Definition recordMessageSession (botMessageId : Z) (group : string) (st : RouterState)
    : RouterState :=
  let st1 := loadMap st in
  let st2 := mkRouterState (mapSet botMessageId group (messageSessionMap st1))
               (mapLoaded st1) (mapFile st1) in
  saveMap st2.

Definition routeByReplyTo (replyToMessageId : Z) (st : RouterState)
    : option string * RouterState :=
  let st1 := loadMap st in
  (mapGet replyToMessageId (messageSessionMap st1), st1).

(** The keys of a map, in insertion order. *)
Definition keys (m : MessageMap) : list Z := m.*1.

(** A full map: messages 1 to 500, all routed to one group. *)
Definition sample_full_map : MessageMap :=
  (fun n => (Z.of_nat n, "general")) <$> seq 1 500.

Definition sample_router_state : RouterState :=
  mkRouterState sample_full_map true (Stored sample_full_map).

(** *** Classification *)

Inductive Category := secretary | general.

(** [reason] is whatever JSON value the classifier gave when it gave one. *)
Record ClassifyResult := mkClassifyResult {
  category : Category;
  reason : json }.

(** [text.replace(/"/g, '\\"')] *)
Fixpoint escapeQuotes (s : string) : string :=
  match s with
  | EmptyString => EmptyString
  | String c rest =>
      if Ascii.eqb c "034"%char
      then String "092"%char (String "034"%char (escapeQuotes rest))
      else String c (escapeQuotes rest)
  end.

(** The prompt; the dashes of the source text are written here with
    hyphens. *)
Definition buildClassifierPrompt (text : string) : string :=
  "You are a message classifier. Classify this Telegram message into exactly one category." +:+
  newline +:+ newline +:+ "Categories:" +:+ newline +:+
  "- " +:+ lit "secretary" +:+ ": Messages about PostSale work - WhatsApp alerts, customer issues, network incidents, partner escalations, project status (MINEDU, COAR, PRONATEL), team coordination, department mentions (NOC, PMO, SMO, KAM, Presale, TRA, IP, Infrastructure). Also messages starting with " +:+
  lit "sec " +:+ " or mentioning postsale-secretary." +:+ newline +:+
  "- " +:+ lit "general" +:+ ": Everything else - personal questions, general AI queries, coding help, casual conversation." +:+
  newline +:+ newline +:+
  "Message: " +:+ lit (sliceTo 500 (escapeQuotes text)) +:+ newline +:+ newline +:+
  "Respond with ONLY valid JSON: {" +:+ lit "category" +:+ ": " +:+ lit "secretary" +:+
  " or " +:+ lit "general" +:+ ", " +:+ lit "reason" +:+ ": " +:+ lit "brief reason" +:+ "}".

(** The regular expression [/\{[\s\S]*"category"[\s\S]*\}/], matched the way
    a backtracking matcher does: each piece returns how many characters it and
    the pieces after it consume. *)

(** [[\s\S]*] followed by [next]: as many characters as possible. *)
Fixpoint star (next : string -> option nat) (s : string) : option nat :=
  match s with
  | EmptyString => next s
  | String _ rest =>
      match star next rest with
      | Some n => Some (S n)
      | None => next s
      end
  end.

(** The literal [word] followed by [next]. *)
Definition literal (word : string) (next : string -> option nat) (s : string) : option nat :=
  if String.prefix word s
  then (fun n => (String.length word + n)%nat) <$> next (sliceFrom (String.length word) s)
  else None.

Definition matchHere (s : string) : option nat :=
  literal "{" (star (literal (lit "category") (star (literal "}" (fun _ => Some 0%nat))))) s.

(** [s.match(...)]: the match at the leftmost position that has one. *)
Fixpoint matchCategoryObject (s : string) : option string :=
  match matchHere s with
  | Some n => Some (sliceTo n s)
  | None =>
      match s with
      | EmptyString => None
      | String _ rest => matchCategoryObject rest
      end
  end.

(** What [Bun.spawn] and reading its output come to: an exception, or the
    standard output with the exit code. *)
Inductive Spawned :=
| SpawnThrows
| Exited (stdout : string) (exitCode : Z).

Section WithEnvironment.

Variable JSON_parse : string -> option json.

(** The classifier CLI, run on the prompt. *)
Variable spawnClassifier : string -> Spawned.

(** The body of the [try]: the result it returns, or [Throw]. *)
Definition classifyTry (prompt : string) : completion ClassifyResult :=
  match spawnClassifier prompt with
  | SpawnThrows => Throw
  | Exited stdout exitCode =>
      if negb (exitCode =? 0) then Normal (mkClassifyResult general (JStr "classifier_error"))
      else
        match JSON_parse stdout with
        | None => Throw
        | Some parsed =>
            match prop parsed "result" with
            | Throw => Throw
            | Normal r =>
                let result := nullish r (JStr stdout) in
                let default := Normal (mkClassifyResult general (JStr "default")) in
                match matchCategoryObject (toString result) with
                | Some jsonMatch =>
                    match JSON_parse jsonMatch with
                    | None => Throw
                    | Some classification =>
                        match prop classification "category" with
                        | Throw => Throw
                        | Normal (Some (JStr c)) =>
                            if String.eqb c "secretary"
                            then Normal (mkClassifyResult secretary
                                           (nullish (optProp (Some classification) "reason")
                                              (JStr "classified")))
                            else default
                        | Normal _ => default
                        end
                    end
                | None => default
                end
            end
        end
  end.

Definition classifyMessage (text : string) : ClassifyResult :=
  let prompt := buildClassifierPrompt text in
  match classifyTry prompt with
  | Normal r => r
  | Throw => mkClassifyResult general (JStr "classifier_fallback")
  end.

(** The classification went through and named the category secretary. *)
Definition classifiedSecretary (prompt : string) : Prop :=
  exists stdout parsed res jsonMatch classification,
    spawnClassifier prompt = Exited stdout 0 /\
    JSON_parse stdout = Some parsed /\
    prop parsed "result" = Normal res /\
    matchCategoryObject (toString (nullish res (JStr stdout))) = Some jsonMatch /\
    JSON_parse jsonMatch = Some classification /\
    prop classification "category" = Normal (Some (JStr "secretary")).

End WithEnvironment.

(** A classifier that answers with a sentence around the object, and what
    [JSON.parse] gives on its output and on the object in it. *)
Definition sample_verdict : string :=
  "{" +:+ lit "category" +:+ ": " +:+ lit "secretary" +:+ ", " +:+
  lit "reason" +:+ ": " +:+ lit "mentions NOC" +:+ "}".

Definition sample_classifier_output : string :=
  "{" +:+ lit "result" +:+ ":" +:+
  lit ("Here it is: " +:+ escapeQuotes sample_verdict +:+ " Done.") +:+ "}".

Definition sample_classifier (prompt : string) : Spawned :=
  Exited sample_classifier_output 0.

Definition sample_classifier_parse (text : string) : option json :=
  if String.eqb text sample_classifier_output
  then Some (JObj [("result", JStr ("Here it is: " +:+ sample_verdict +:+ " Done."))])
  else if String.eqb text sample_verdict
  then Some (JObj [("category", JStr "secretary"); ("reason", JStr "mentions NOC")])
  else None.

End Router.

(** ** The execution queue ([runner.ts]: [enqueue], [run])

    Promises are cells of a heap, settled by jobs that a microtask queue runs
    one at a time.  The calls of [run], the completion of the tasks and the
    turns of the microtask queue arrive in any order. *)

Module Queue.
Import JsString.

(** Tasks are numbered in the order of their submission. *)
Definition TaskId := nat.

(** A promise is named after the call that creates it, so that two promises
    are the same exactly when their names are: [Promise.resolve()] in the
    submission of task [fn], the promise [enqueue] returns for it, the tail
    stored for its key, and the promise the task returns when it is called. *)
Inductive Pid :=
| PFresh (fn : TaskId)
| PReturned (fn : TaskId)
| PTail (fn : TaskId)
| PResult (fn : TaskId).

(** What a promise settles with; a result or an error is a number here. *)
Inductive Val := Undefined | Value (n : Z).

Inductive Outcome := Fulfilled (v : Val) | Rejected (e : Val).

(** The handlers the queue passes to [then]: none (the value or the error
    passes through), [() => {}], or the task [fn]. *)
Inductive Handler := Identity | Swallow | CallTask (fn : TaskId).

(** A reaction [then] registers: the promise it settles and the handler for
    each outcome. *)
Record Reaction := mkReaction {
  target : Pid;
  onFulfilled : Handler;
  onRejected : Handler }.

(** A promise: pending ([None]) or settled, and the reactions waiting. *)
Record Promise := mkPromise {
  pstate : option Outcome;
  reactions : list Reaction }.

Inductive Job := ReactionJob (r : Reaction) (o : Outcome).

Inductive Event := Started (fn : TaskId) | Settled (fn : TaskId) (o : Outcome).

(** A task as [enqueue] received it: its key and the promise it was chained
    on. *)
Record Task := mkTask {
  key : string;
  prev : Pid }.

#[global] Instance Pid_eq_dec : EqDecision Pid.
Proof. solve_decision. Defined.
#[global] Instance Pid_countable : Countable Pid.
Proof.
  refine (inj_countable'
    (fun p => match p with
              | PFresh n => (0%nat, n) | PReturned n => (1%nat, n)
              | PTail n => (2%nat, n) | PResult n => (3%nat, n)
              end)
    (fun x => match x with
              | (0%nat, n) => PFresh n | (1%nat, n) => PReturned n
              | (2%nat, n) => PTail n | (_, n) => PResult n
              end) _).
  by intros [].
Defined.
#[global] Instance Val_eq_dec : EqDecision Val.
Proof. solve_decision. Defined.
#[global] Instance Outcome_eq_dec : EqDecision Outcome.
Proof. solve_decision. Defined.
#[global] Instance Handler_eq_dec : EqDecision Handler.
Proof. solve_decision. Defined.
#[global] Instance Reaction_eq_dec : EqDecision Reaction.
Proof. solve_decision. Defined.
#[global] Instance Job_eq_dec : EqDecision Job.
Proof. solve_decision. Defined.
#[global] Instance Event_eq_dec : EqDecision Event.
Proof. solve_decision. Defined.

Record State := mkState {
  promises : gmap Pid Promise;
  microtasks : list Job;
  groupQueues : gmap string Pid;
  statelessCounter : Z;
  tasks : list Task;
  log : list Event }.

Definition initial : State := mkState ∅ [] ∅ 0 [] [].

Definition set_promises (f : gmap Pid Promise -> gmap Pid Promise) (s : State) : State :=
  mkState (f (promises s)) (microtasks s) (groupQueues s) (statelessCounter s) (tasks s) (log s).
Definition set_microtasks (f : list Job -> list Job) (s : State) : State :=
  mkState (promises s) (f (microtasks s)) (groupQueues s) (statelessCounter s) (tasks s) (log s).
Definition add_event (e : Event) (s : State) : State :=
  mkState (promises s) (microtasks s) (groupQueues s) (statelessCounter s) (tasks s) (log s ++ [e]).

(** A new promise, under its name. *)
Definition alloc (d : Pid) (c : Promise) (s : State) : State :=
  set_promises (fun ps => <[d := c]> ps) s.

(** [Promise.resolve()] *)
Definition Promise_resolve (d : Pid) (s : State) : State :=
  alloc d (mkPromise (Some (Fulfilled Undefined)) []) s.

(** Registering a reaction on [p]: kept with [p] while it is pending, queued
    as a job when [p] is settled already. *)
Definition subscribe (p : Pid) (r : Reaction) (s : State) : State :=
  match promises s !! p with
  | Some c =>
      match pstate c with
      | None => set_promises (fun ps => <[p := mkPromise None (reactions c ++ [r])]> ps) s
      | Some o => set_microtasks (fun js => js ++ [ReactionJob r o]) s
      end
  | None => s
  end.

(** [p.then(onFulfilled, onRejected)], the derived promise being [d]. *)
Definition then_ (d : Pid) (p : Pid) (onF onR : Handler) (s : State) : State :=
  subscribe p (mkReaction d onF onR) (alloc d (mkPromise None []) s).

(** Settling a pending promise queues its reactions. *)
Definition settle (p : Pid) (o : Outcome) (s : State) : State :=
  match promises s !! p with
  | Some c =>
      match pstate c with
      | None =>
          set_microtasks (fun js => js ++ ((fun r => ReactionJob r o) <$> reactions c))
            (set_promises (fun ps => <[p := mkPromise (Some o) []]> ps) s)
      | Some _ => s
      end
  | None => s
  end.

(** [enqueue(key, fn)], for the task that is submitted next; the promise
    returned to the caller is [PReturned fn]. *)
Definition enqueue (k : string) (s : State) : State :=
  let fn := length (tasks s) in
  let '(prv, s1) :=
    match groupQueues s !! k with
    | Some p => (p, s)
    | None => (PFresh fn, Promise_resolve (PFresh fn) s)
    end in
  let s2 := then_ (PReturned fn) prv (CallTask fn) (CallTask fn) s1 in
  let s3 := then_ (PTail fn) (PReturned fn) Identity Swallow s2 in
  mkState (promises s3) (microtasks s3) (<[k := PTail fn]> (groupQueues s3))
    (statelessCounter s3) (tasks s3 ++ [mkTask k prv]) (log s3).

(** [run]: the key is the group, or a new one for a stateless call.  [run]
    is an async function that returns the promise of [enqueue]: its caller
    holds a promise that adopts [PReturned fn], which stands for it here. *)
Definition run (options : Runner.RunOptions) (s : State) : State :=
  if Runner.noSessionPersistence options then
    let n := statelessCounter s + 1 in
    enqueue ("__stateless_" +:+ decimal n)
      (mkState (promises s) (microtasks s) (groupQueues s) n (tasks s) (log s))
  else enqueue (Runner.groupOf options) s.

(** Running one job.  A task that is called starts and returns a new pending
    promise; the promise the reaction derives is resolved with it, that is,
    subscribed to it (at once here; the microtask ECMAScript takes to do so is
    not counted). *)
Definition runJob (j : Job) (s : State) : State :=
  match j with
  | ReactionJob r o =>
      match (match o with Fulfilled _ => onFulfilled r | Rejected _ => onRejected r end) with
      | Identity => settle (target r) o s
      | Swallow => settle (target r) (Fulfilled Undefined) s
      | CallTask fn =>
          subscribe (PResult fn) (mkReaction (target r) Identity Identity)
            (add_event (Started fn) (alloc (PResult fn) (mkPromise None []) s))
      end
  end.

(** One turn of the microtask queue. *)
Definition tick (s : State) : State :=
  match microtasks s with
  | [] => s
  | j :: rest => runJob j (set_microtasks (fun _ => rest) s)
  end.

(** The promise a running task returned settles. *)
Definition complete (fn : TaskId) (o : Outcome) (s : State) : State :=
  match promises s !! PResult fn with
  | Some c =>
      match pstate c with
      | None => add_event (Settled fn o) (settle (PResult fn) o s)
      | Some _ => s
      end
  | None => s
  end.

Inductive Input :=
| Run (options : Runner.RunOptions)
| Tick
| Complete (fn : TaskId) (o : Outcome).

Definition step (s : State) (i : Input) : State :=
  match i with
  | Run options => run options s
  | Tick => tick s
  | Complete fn o => complete fn o s
  end.

Definition exec (inputs : list Input) : State := foldl step initial inputs.

(** *** Draining the microtask queue *)

Definition handlerWeight (h : Handler) : nat :=
  match h with
  | CallTask _ => 2
  | _ => 1
  end.

Definition reactionWeight (r : Reaction) : nat :=
  Nat.max (handlerWeight (onFulfilled r)) (handlerWeight (onRejected r)).

Definition jobWeight (j : Job) : nat :=
  match j with
  | ReactionJob r _ => reactionWeight r
  end.

Definition cellWeight (c : Promise) : nat := sum_list (reactionWeight <$> reactions c).

Definition heapWeight (ps : gmap Pid Promise) : nat :=
  map_fold (fun _ c n => cellWeight c + n)%nat 0%nat ps.

(** A bound on the turns the queue can still take. *)
Definition potential (s : State) : nat :=
  sum_list (jobWeight <$> microtasks s) + heapWeight (promises s).

(** Turns until the microtask queue is empty. *)
Definition drain (s : State) : State := Nat.iter (potential s) tick s.

(** *** Reading the state *)

Definition stateOf (s : State) (p : Pid) : option Outcome :=
  match promises s !! p with
  | Some c => pstate c
  | None => None
  end.

Definition keyOf (s : State) (fn : TaskId) : option string := key <$> tasks s !! fn.

(** Task [fn'] was submitted before [fn] under the same key. *)
Definition before (s : State) (fn' fn : TaskId) : Prop :=
  (fn' < fn)%nat /\ is_Some (keyOf s fn) /\ keyOf s fn' = keyOf s fn.

(** *** The shape of reachable states *)

(** The reactions [enqueue] and the call of a task register: the call of
    task [fn], settling the promise returned to its caller; the swallowing of
    that promise's outcome into the tail; the adoption of the task's own
    promise by the promise returned to the caller. *)
Definition R1 (fn : TaskId) : Reaction := mkReaction (PReturned fn) (CallTask fn) (CallTask fn).
Definition Rc (fn : TaskId) : Reaction := mkReaction (PTail fn) Identity Swallow.
Definition Ra (fn : TaskId) : Reaction := mkReaction (PReturned fn) Identity Identity.

(** The job a task is waiting for in the microtask queue, if any. *)
Definition jobOf (s : State) (fn : TaskId) (tk : Task) : option Job :=
  match promises s !! PResult fn with
  | None => ReactionJob (R1 fn) <$> stateOf s (prev tk)
  | Some cr =>
      match stateOf s (PReturned fn) with
      | None => ReactionJob (Ra fn) <$> pstate cr
      | Some o =>
          match stateOf s (PTail fn) with
          | None => Some (ReactionJob (Rc fn) o)
          | Some _ => None
          end
      end
  end.

Definition settledCell (o : Outcome) : Promise := mkPromise (Some o) [].

(** The task a job works for. *)
Definition jobTask (j : Job) : TaskId :=
  match j with ReactionJob r _ => match target r with
                                  | PFresh fn | PReturned fn | PTail fn | PResult fn => fn
                                  end end.

(** The reactions a promise holds: one while it is pending, none after. *)
Definition holding (r : Reaction) (c : Promise) : Prop :=
  reactions c = match pstate c with None => [r] | Some _ => [] end.

Record TaskOk (s : State) (fn : TaskId) (tk : Task) : Prop := mkTaskOk {
  ok_returned : exists cb, promises s !! PReturned fn = Some cb /\ holding (Rc fn) cb;
  ok_tail : exists cc, promises s !! PTail fn = Some cc /\
              (pstate cc <> None -> reactions cc = []) /\
              NoDup (reactions cc) /\
              forall r, r ∈ reactions cc ->
                exists fn' tk', tasks s !! fn' = Some tk' /\ r = R1 fn' /\ prev tk' = PTail fn;
  ok_result : forall cr, promises s !! PResult fn = Some cr ->
              holding (Ra fn) cr /\
              stateOf s (prev tk) <> None /\
              forall o, stateOf s (PReturned fn) = Some o -> pstate cr = Some o;
  ok_waiting : promises s !! PResult fn = None ->
               stateOf s (PReturned fn) = None /\
               (stateOf s (prev tk) = None ->
                exists cp, promises s !! prev tk = Some cp /\ R1 fn ∈ reactions cp);
  ok_tail_after : stateOf s (PTail fn) <> None -> stateOf s (PReturned fn) <> None;
  ok_prev : match prev tk with
            | PFresh fn0 =>
                fn0 = fn /\ stateOf s (PFresh fn) = Some (Fulfilled Undefined) /\
                forall fn', ~ before s fn' fn
            | PTail fn' =>
                before s fn' fn /\ forall fn'', before s fn'' fn -> (fn'' <= fn')%nat
            | _ => False
            end;
  ok_job : forall j, jobOf s fn tk = Some j -> j ∈ microtasks s }.

(** The task a promise belongs to. *)
Definition owner (p : Pid) : TaskId :=
  match p with
  | PFresh fn | PReturned fn | PTail fn | PResult fn => fn
  end.

(** An event without its outcome. *)
Definition kindOf (e : Event) : TaskId * bool :=
  match e with
  | Started fn => (fn, false)
  | Settled fn _ => (fn, true)
  end.

Record Inv (s : State) : Prop := mkInv {
  inv_tasks : forall fn tk, tasks s !! fn = Some tk -> TaskOk s fn tk;
  inv_unused : forall p, (length (tasks s) <= owner p)%nat -> promises s !! p = None;
  inv_jobs : forall j, j ∈ microtasks s ->
             exists fn tk, tasks s !! fn = Some tk /\ jobOf s fn tk = Some j;
  inv_jobs_NoDup : NoDup (microtasks s);
  inv_queue_None : forall k, groupQueues s !! k = None ->
                   forall fn, keyOf s fn <> Some k;
  inv_queue_Some : forall k p, groupQueues s !! k = Some p ->
                   exists fn, p = PTail fn /\ keyOf s fn = Some k /\
                              forall fn', keyOf s fn' = Some k -> (fn' <= fn)%nat;
  inv_started : forall fn, Started fn ∈ log s <-> is_Some (promises s !! PResult fn);
  inv_settled : forall fn o, Settled fn o ∈ log s <-> stateOf s (PResult fn) = Some o;
  inv_log_once : NoDup (kindOf <$> log s);
  inv_start_order : forall l1 l2 fn, log s = l1 ++ Started fn :: l2 ->
                    forall fn', before s fn' fn -> exists o, Settled fn' o ∈ l1;
  inv_settle_order : forall l1 l2 fn o, log s = l1 ++ Settled fn o :: l2 ->
                     Started fn ∈ l1 /\
                     forall fn', before s fn' fn -> exists o', Settled fn' o' ∈ l1 }.

(** *** Reading the log *)

(** Event [e1] is in the log before event [e2]. *)
Definition happensBefore (l : list Event) (e1 e2 : Event) : Prop :=
  exists l1 l2, l = l1 ++ e2 :: l2 /\ e1 ∈ l1.

(** Two calls for the group ops; the first task is called and fails. *)
Definition sample_inputs : list Input :=
  [Run Runner.sample_options; Run Runner.sample_options; Tick;
   Complete 0%nat (Rejected (Value 7))].

End Queue.

(** *** The keys of stateless calls *)

Module QueueKeys.
Import JsString Queue.

(** The key [run] makes for the [n]th stateless call. *)
Definition statelessKey (n : Z) : string := "__stateless_" +:+ decimal n.

Definition isStatelessKey (k : string) : bool := String.prefix "__stateless_" k.

(** A call that is stateless, or whose group does not look like the key of
    a stateless call; turns and completions are neither. *)
Definition reservedFree (i : Input) : bool :=
  match i with
  | Run options =>
      Runner.noSessionPersistence options || negb (isStatelessKey (Runner.groupOf options))
  | _ => true
  end.

Definition stateless_options : Runner.RunOptions :=
  Runner.mkRunOptions None None None None None None true.

(** Two stateless calls between two calls for the group ops, none of which
    completes. *)
Definition sample_mixed_inputs : list Input :=
  [Run Runner.sample_options; Run stateless_options; Run stateless_options;
   Run Runner.sample_options].

(** What holds of the keys all along: the counter counts the stateless calls
    made, every stateless key in the queue was made from a number up to it,
    and no earlier task has the key of a stateless one. *)
Record KeysOk (s : State) : Prop := mkKeysOk {
  keys_counter : 0 <= statelessCounter s;
  keys_made : forall fn tk, tasks s !! fn = Some tk -> isStatelessKey (key tk) = true ->
              exists n, 1 <= n <= statelessCounter s /\ key tk = statelessKey n;
  keys_fresh : forall fn fn' tk tk',
               tasks s !! fn = Some tk -> tasks s !! fn' = Some tk' ->
               (fn' < fn)%nat -> isStatelessKey (key tk) = true -> key tk' <> key tk }.

End QueueKeys.

(** ** The task list ([tasks.ts]) *)

Module Tasks.
Import JsString.

Inductive Status := pending | in_progress | completed | failed.

#[global] Instance Status_eq_dec : EqDecision Status.
Proof. solve_decision. Defined.

Record Task := mkTask {
  id : string;
  description : string;
  status : Status;
  createdAt : Z;
  completedAt : option Z;
  result : option string }.

(** The file of the tasks: missing, not readable as JSON, or holding a
    list. *)
Inductive TasksFile :=
| NoFile
| Unreadable
| Stored (tasks : list Task).

Definition readTasks (f : TasksFile) : list Task :=
  match f with
  | Stored tasks => tasks
  | NoFile | Unreadable => []
  end.

Definition writeTasks (tasks : list Task) : TasksFile := Stored tasks.

(** [createTask]; [uuid] is what [crypto.randomUUID()] gives and [now] is
    [Date.now()]. *)
Definition createTask (uuid : string) (now : Z) (description : string) (f : TasksFile)
    : Task * TasksFile :=
  let tasks := readTasks f in
  let task := mkTask (sliceTo 8 uuid) description pending now None None in
  (task, writeTasks (tasks ++ [task])).

Definition listTasks (f : TasksFile) : list Task := readTasks f.

(** A patch: the fields given. *)
Record Patch := mkPatch {
  patch_status : option Status;
  patch_result : option string }.

Definition isFinished (s : Status) : bool :=
  match s with
  | completed | failed => true
  | pending | in_progress => false
  end.

(** What [updateTask] does to the task it has found. *)
Definition applyPatch (now : Z) (patch : Patch) (task : Task) : Task :=
  let status1 := match patch_status patch with Some s => s | None => status task end in
  let result1 := match patch_result patch with Some r => Some r | None => result task end in
  let completedAt1 := if isFinished status1 then Some now else completedAt task in
  mkTask (id task) (description task) status1 (createdAt task) completedAt1 result1.

Definition updateTask (now : Z) (taskId : string) (patch : Patch) (f : TasksFile)
    : option Task * TasksFile :=
  let tasks := readTasks f in
  match list_find (fun t => id t = taskId) tasks with
  | None => (None, f)
  | Some (i, task) =>
      let task' := applyPatch now patch task in
      (Some task', writeTasks (<[i := task']> tasks))
  end.

Definition deleteTask (taskId : string) (f : TasksFile) : bool * TasksFile :=
  let tasks := readTasks f in
  match list_find (fun t => id t = taskId) tasks with
  | None => (false, f)
  | Some (idx, _) => (true, writeTasks (delete idx tasks))
  end.

Definition SEVEN_DAYS : Z := 7 * 24 * 60 * 60 * 1000.

(** The test of the filter in [cleanupOldTasks]. *)
Definition kept (maxAge now : Z) (t : Task) : bool :=
  if negb (isFinished (status t)) then true
  else now <? (match completedAt t with Some c => c | None => createdAt t end) + maxAge.

Definition cleanupOldTasks (maxAge now : Z) (f : TasksFile) : Z * TasksFile :=
  let tasks := readTasks f in
  let keptTasks := List.filter (kept maxAge now) tasks in
  let removed := Z.of_nat (length tasks) - Z.of_nat (length keptTasks) in
  (removed, if 0 <? removed then writeTasks keptTasks else f).

(** Three tasks: one finished long ago, one finished just now, one
    pending. *)
Definition sample_tasks : TasksFile :=
  Stored [mkTask "aaaaaaaa" "old" completed 1000 (Some 2000) (Some "done");
          mkTask "bbbbbbbb" "new" failed 1000 (Some (SEVEN_DAYS + 1500)) None;
          mkTask "cccccccc" "open" pending 1000 None None].

End Tasks.

(** ** Job files ([jobs.ts]) *)

Module Jobs.
Import JsString Json Runner.

(** [notify]: [true], [false] or the word error. *)
Inductive Notify := NotifyAlways | NotifyNever | NotifyOnError.

(** *** Values of the front matter *)

Definition isQuote (c : ascii) : bool :=
  Ascii.eqb c "034"%char || Ascii.eqb c "039"%char.

(** A quote, double or single, taken off the start, and off the end. *)
Definition stripFirst (s : string) : string :=
  match s with
  | String c rest => if isQuote c then rest else s
  | EmptyString => EmptyString
  end.

Fixpoint stripLast (s : string) : string :=
  match s with
  | EmptyString => EmptyString
  | String c EmptyString => if isQuote c then EmptyString else s
  | String c rest => String c (stripLast rest)
  end.

(** [raw.trim().replace(...)] with the global pattern of a quote at the start
    or a quote at the end: the alternatives are tried from left to right over
    the text, so the quote at the start goes first and the quote at the end
    after it, if it is another character. *)
Definition parseFrontmatterValue (raw : string) : string :=
  stripLast (stripFirst (trim raw)).

(** *** The shape of a job file

    The pattern of a job file, anchored at both ends: three dashes, [\s*\n],
    a first group of any characters, as few as possible, then [\n---\s*\n] and
    a second group of any characters; matched the way a backtracking matcher
    does. *)

(** [\s*\n] followed by [next]: as much white space as possible. *)
Fixpoint spacesThenNewline {A : Type} (next : string -> option A) (s : string) : option A :=
  match s with
  | EmptyString => None
  | String c rest =>
      match (if isWhite c then spacesThenNewline next rest else None) with
      | Some r => Some r
      | None => if Ascii.eqb c "010"%char then next rest else None
      end
  end.

(** [\n---\s*\n] at the start of [s], and all that follows it as the second
    group. *)
Definition closing (s : string) : option string :=
  if String.prefix (newline +:+ "---") s then spacesThenNewline Some (sliceFrom 4 s)
  else None.

(** The first group followed by the closing line: as few characters as
    possible; both groups. *)
Fixpoint lazyGroup (s : string) : option (string * string) :=
  match closing s with
  | Some body => Some (EmptyString, body)
  | None =>
      match s with
      | EmptyString => None
      | String c rest =>
          match lazyGroup rest with
          | Some (group, body) => Some (String c group, body)
          | None => None
          end
      end
  end.

(** [content.match(...)]: the front matter and the body. *)
Definition matchJob (content : string) : option (string * string) :=
  if String.prefix "---" content then spacesThenNewline lazyGroup (sliceFrom 3 content)
  else None.

(** *** Jobs *)

Section WithNumber.

(** [Number(s)], and [Number.isFinite(n) && n > 0]. *)
Variable number : Type.
Variable Number : string -> number.
Variable finitePositive : number -> bool.

Record Job := mkJob {
  job_name : string;
  job_schedule : string;
  job_prompt : string;
  job_recurring : bool;
  job_notify : Notify;
  job_sessionGroup : option string;
  job_model : option string;
  job_tools : option string;
  job_settingSources : option string;
  job_effort : option string;
  job_maxTurns : option number;
  job_maintenance : bool;
  job_command : option string }.

(** [get] of [parseJobFile], over the trimmed lines. *)
Definition get (lines : list string) (key : string) : option string :=
  match List.find (String.prefix (key +:+ ":")) lines with
  | Some line => Some (parseFrontmatterValue (sliceFrom (String.length key + 1) line))
  | None => None
  end.

(** [a ?? b] *)
Definition orElse (a b : option string) : option string :=
  match a with Some _ => a | None => b end.

(** [parseJobFile] from the match on: the job that the front matter and the
    body make. *)
Definition jobOf (name frontmatter body : string) : option Job :=
  let prompt := trim body in
  let lines := trim <$> splitLines frontmatter in
  match given (get lines "schedule") with
  | None => None
  | Some schedule =>
      let recurringRaw :=
        toLowerCase (default "" (orElse (get lines "recurring") (get lines "daily"))) in
      let recurring :=
        String.eqb recurringRaw "true" || String.eqb recurringRaw "yes" ||
        String.eqb recurringRaw "1" in
      let notifyRaw := toLowerCase (default "" (get lines "notify")) in
      let notify :=
        if String.eqb notifyRaw "false" || String.eqb notifyRaw "no" then NotifyNever
        else if String.eqb notifyRaw "error" then NotifyOnError
        else NotifyAlways in
      let maxTurns :=
        match given (orElse (get lines "max_turns") (get lines "maxTurns")) with
        | Some text => if finitePositive (Number text) then Some (Number text) else None
        | None => None
        end in
      let maintenance :=
        match get lines "type" with
        | Some type => String.eqb type "maintenance"
        | None => false
        end in
      Some (mkJob name schedule prompt recurring notify
              (given (orElse (get lines "session_group") (get lines "sessionGroup")))
              (given (get lines "model"))
              (given (get lines "tools"))
              (given (orElse (get lines "setting_sources") (get lines "settingSources")))
              (given (get lines "effort"))
              maxTurns maintenance
              (given (get lines "command")))
  end.

(** [parseJobFile]; the line it prints for a file of another shape is left
    out. *)
Definition parseJobFile (name content : string) : option Job :=
  match matchJob content with
  | None => None
  | Some (frontmatter, body) => jobOf name frontmatter body
  end.

End WithNumber.

(** *** Clearing the schedule *)

(** The front matter without its schedule lines. *)
Definition filteredFrontmatter (frontmatter : string) : string :=
  trim (joinWith newline
          (List.filter (fun line => negb (String.prefix "schedule:" (trim line)))
                       (splitLines frontmatter))).

(** [clearJobSchedule]: the text written to the file of the job, none for a
    file of another shape. *)
Definition clearJobSchedule (content : string) : option string :=
  match matchJob content with
  | None => None
  | Some (frontmatter, body) =>
      Some ("---" +:+ newline +:+ filteredFrontmatter frontmatter +:+ newline +:+
            "---" +:+ newline +:+ trim body +:+ newline)
  end.

(** A job file as [clearJobSchedule] lays it out, for any front matter and
    body. *)
Definition jobFile (frontmatter body : string) : string :=
  "---" +:+ newline +:+ frontmatter +:+ newline +:+ "---" +:+ newline +:+ body.

(** A job that runs once, and a job whose prompt holds a line of dashes. *)
Definition sample_once : string :=
  "---" +:+ newline +:+ "schedule: 0 9 * * *" +:+ newline +:+ "notify: error" +:+ newline +:+
  "---" +:+ newline +:+ "Send the report." +:+ newline.

Definition sample_dashes : string :=
  "---" +:+ newline +:+ "schedule: 0 9 * * *" +:+ newline +:+
  "---" +:+ newline +:+ "schedule: 0 10 * * *" +:+ newline +:+
  "---" +:+ newline +:+ "Send the report." +:+ newline.

(** The pieces of [sample_once]. *)
Definition sample_frontmatter : string :=
  "schedule: 0 9 * * *" +:+ newline +:+ "notify: error".

Definition sample_body : string := "Send the report." +:+ newline.

(** [Number] on the texts of digits, which is all that the samples need. *)
Definition sample_Number (s : string) : Z := Digits.digitsValue s.

Definition sample_finitePositive (n : Z) : bool := 0 <? n.

End Jobs.
(** * Properties *)

(** ** Facts about strings *)

Module JsStringFacts.
Import JsString.

Lemma prefix_app_r (n b : string) : String.prefix n (n +:+ b) = true.
Proof.
  induction n as [|c n IH]; simpl; [by destruct b|].
  by destruct (ascii_dec c c).
Qed.

Lemma includes_prefix (s n : string) :
  String.prefix n s = true -> includes s n = true.
Proof. intros H. destruct s; cbn [includes]; by rewrite H. Qed.

Lemma includes_app (a n b : string) : includes (a +:+ n +:+ b) n = true.
Proof.
  induction a as [|c a IH].
  - change ("" +:+ n +:+ b) with (n +:+ b).
    apply includes_prefix. apply prefix_app_r.
  - change (String c a +:+ n +:+ b) with (String c (a +:+ n +:+ b)).
    cbn [includes]. rewrite IH. apply orb_true_r.
Qed.

Lemma length_append (a b : string) :
  String.length (a +:+ b) = (String.length a + String.length b)%nat.
Proof. induction a as [|c a IH]; simpl; [done|by rewrite IH]. Qed.

Lemma app_neq_self (a b : string) : b <> "" -> a +:+ b <> a.
Proof.
  intros Hb E. apply Hb.
  assert (L : String.length (a +:+ b) = String.length a) by (by rewrite E).
  rewrite length_append in L.
  destruct b; [done|simpl in L; lia].
Qed.

Lemma prefix_inv (n s : string) :
  String.prefix n s = true -> exists b, s = n +:+ b.
Proof.
  revert s. induction n as [|c n IH]; intros s H.
  - by exists s.
  - destruct s as [|d s]; simpl in H; [done|].
    destruct (ascii_dec c d) as [->|]; [|done].
    destruct (IH _ H) as [b ->]. by exists b.
Qed.

(** [includes] is the substring test. *)
Lemma includes_spec (s n : string) :
  includes s n = true <-> exists a b, s = a +:+ n +:+ b.
Proof.
  split.
  - induction s as [|c s IH]; cbn [includes]; intros H.
    + apply orb_true_iff in H as [H|H]; [|done].
      destruct (prefix_inv _ _ H) as [b ->]. by exists "", b.
    + apply orb_true_iff in H as [H|H].
      * destruct (prefix_inv _ _ H) as [b ->]. by exists "", b.
      * destruct (IH H) as (a & b & ->). by exists (String c a), b.
  - intros (a & b & ->). apply includes_app.
Qed.

Lemma includes_false (s n : string) :
  includes s n = false <-> ~ exists a b, s = a +:+ n +:+ b.
Proof. rewrite <- includes_spec. by destruct (includes s n). Qed.

End JsStringFacts.

(** ** Decimal digits *)

Module DigitFacts.
Import JsString Digits.

(** What [`${n}`] is for a natural number: the digits of a decimal numeral
    that is not empty and denotes it. *)
Lemma decimal_numeral (n : Z) :
  0 <= n ->
  exists u, decimal n = NilEmpty.string_of_uint u /\ u <> Decimal.Nil /\ Z.of_uint u = n.
Proof.
  intros Hn. pose proof (DecimalZ.of_to n) as E. unfold decimal.
  destruct n as [|p|p]; [| |lia].
  - exists (Decimal.D0 Decimal.Nil). by split_and!.
  - exists (Pos.to_uint p). split_and!; [done| |done].
    apply DecimalPos.Unsigned.to_uint_nonnil.
Qed.

Lemma digitsValue_decimal (n : Z) : 0 <= n -> digitsValue (decimal n) = n.
Proof.
  intros Hn. destruct (decimal_numeral n Hn) as (u & -> & _ & E).
  unfold digitsValue. by rewrite NilEmpty.usu.
Qed.

Lemma decimal_inj (n m : Z) : 0 <= n -> 0 <= m -> decimal n = decimal m -> n = m.
Proof.
  intros Hn Hm E.
  rewrite <- (digitsValue_decimal n Hn), <- (digitsValue_decimal m Hm). by rewrite E.
Qed.

Lemma numeral_nonempty (u : Decimal.uint) :
  u <> Decimal.Nil -> NilEmpty.string_of_uint u <> "".
Proof. by destruct u. Qed.

Lemma decimal_nonempty (n : Z) : 0 <= n -> decimal n <> "".
Proof.
  intros Hn. destruct (decimal_numeral n Hn) as (u & -> & Hu & _).
  by apply numeral_nonempty.
Qed.

(** A numeral followed by something that is not a digit is the run of
    digits the text starts with. *)
Lemma spanDigits_numeral (u : Decimal.uint) (rest : string) :
  match rest with EmptyString => True | String c _ => isDigit c = false end ->
  spanDigits (NilEmpty.string_of_uint u +:+ rest) = (NilEmpty.string_of_uint u, rest).
Proof.
  intros Hrest. induction u as [|u IH|u IH|u IH|u IH|u IH|u IH|u IH|u IH|u IH|u IH];
    simpl; try (by rewrite IH).
  destruct rest as [|c rest]; [done|]. simpl. by rewrite Hrest.
Qed.

Lemma spanDigits_decimal (n : Z) (rest : string) :
  0 <= n ->
  match rest with EmptyString => True | String c _ => isDigit c = false end ->
  spanDigits (decimal n +:+ rest) = (decimal n, rest).
Proof.
  intros Hn Hrest. destruct (decimal_numeral n Hn) as (u & -> & _).
  by apply spanDigits_numeral.
Qed.

End DigitFacts.

(** ** More facts about strings *)

Module JsStringLaws.
Import JsString JsStringFacts.

(** Appending to a text that is written out. *)
Ltac unapp :=
  repeat first
    [ progress change (String.append EmptyString ?b) with b in *
    | progress change (String.append (String ?x ?a) ?b) with (String x (String.append a b)) in * ].

Lemma app_assoc_s (a b c : string) : (a +:+ b) +:+ c = a +:+ (b +:+ c).
Proof.
  induction a as [|x a IH]; [done|].
  change (String x ((a +:+ b) +:+ c) = String x (a +:+ (b +:+ c))). by rewrite IH.
Qed.

Lemma app_nil_r_s (a : string) : a +:+ "" = a.
Proof.
  induction a as [|x a IH]; [done|].
  change (String x (a +:+ "") = String x a). by rewrite IH.
Qed.

Lemma sliceFrom_app (a b : string) : sliceFrom (String.length a) (a +:+ b) = b.
Proof. induction a as [|x a IH]; simpl; [by destruct b|done]. Qed.

Lemma sliceTo_app (a b : string) : sliceTo (String.length a) (a +:+ b) = a.
Proof. induction a as [|x a IH]; simpl; [by destruct b|by rewrite IH]. Qed.

Lemma app_inv_head_s (a b c : string) : a +:+ b = a +:+ c -> b = c.
Proof. induction a as [|x a IH]; simpl; [done|]. intros [= ?]. by apply IH. Qed.

Lemma prefix_spec (n s : string) : String.prefix n s = true <-> exists b, s = n +:+ b.
Proof.
  split; [apply prefix_inv|]. intros [b ->]. apply prefix_app_r.
Qed.

(** Two ways of cutting one text: the shorter head is a head of the longer
    one. *)
Lemma app_eq_app_s (a b c d : string) :
  a +:+ b = c +:+ d -> (String.length a <= String.length c)%nat ->
  exists m, c = a +:+ m /\ b = m +:+ d.
Proof.
  revert c. induction a as [|x a IH]; intros c E Hlen; simpl in *.
  - by exists c.
  - destruct c as [|y c]; simpl in *; [lia|]. injection E as -> E.
    destruct (IH c E) as (m & -> & ->); [lia|]. by exists m.
Qed.

Lemma length_sliceTo_le (n : nat) (s : string) : (String.length (sliceTo n s) <= n)%nat.
Proof.
  revert s. induction n as [|n IH]; intros [|c s]; simpl; try lia.
  specialize (IH s). lia.
Qed.

End JsStringLaws.

(** ** The session registry *)

Module SessionRegistryFacts.
Import JsString JsStringFacts SessionRegistry.

Section Counting.
Context {A : Type} (p : A -> bool).

Lemma count_insert_same (l : list A) (i : nat) (x y : A) :
    l !! i = Some x -> p y = p x ->
    length (List.filter p (<[i := y]> l)) = length (List.filter p l).
Proof.
    revert i. induction l as [|a l IH]; intros [|i] Hi Hp; simplify_eq/=.
    - rewrite Hp. by destruct (p x).
    - destruct (p a); simpl; by rewrite (IH i).
Qed.

Lemma count_insert_false (l : list A) (i : nat) (y : A) :
    p y = false ->
    (length (List.filter p (<[i := y]> l)) <= length (List.filter p l))%nat.
Proof.
    intros Hp. revert i. induction l as [|a l IH]; intros [|i]; simpl; try lia.
    - rewrite Hp. destruct (p a); simpl; lia.
    - specialize (IH i). destruct (p a); simpl; lia.
Qed.

Lemma count_snoc (l : list A) (y : A) :
    length (List.filter p (l ++ [y])) =
    (length (List.filter p l) + if p y then 1 else 0)%nat.
Proof.
    rewrite List.filter_app, length_app. simpl. by destruct (p y).
Qed.

Lemma count_none (l : list A) :
    Forall (fun x => p x = false) l -> length (List.filter p l) = 0%nat.
Proof. induction 1 as [|a l Ha _ IH]; simpl; [done|by rewrite Ha]. Qed.
End Counting.

Lemma findGroup_Some g reg i e :
  findGroup g reg = Some (i, e) ->
  sessions reg !! i = Some e /\ group e = g /\
  forall j y, sessions reg !! j = Some y -> (j < i)%nat -> group y <> g.
Proof. unfold findGroup. by rewrite list_find_Some. Qed.

Lemma findGroup_None g reg :
  findGroup g reg = None -> Forall (fun s => group s <> g) (sessions reg).
Proof. unfold findGroup. by rewrite list_find_None. Qed.

Lemma liveFor_group G s s' : group s' = group s -> liveFor G s' = liveFor G s.
Proof. unfold liveFor, isLive. by intros ->. Qed.

Lemma archiveGroup_archival g t : includes (archiveGroup g t) "__archived_" = true.
Proof. apply includes_app. Qed.

Lemma liveFor_archived G g t s : liveFor G (set_group (archiveGroup g t) s) = false.
Proof. unfold liveFor, isLive. simpl. by rewrite archiveGroup_archival. Qed.

(** Each operation keeps the number of live entries of a group at most one. *)
Lemma step_atMostOneLive reg o : atMostOneLive reg -> atMostOneLive (step reg o).
Proof.
  intros Hinv G. specialize (Hinv G). unfold liveCount in *.
  destruct o as [now g|now1 now2 g sid|g tokens|nowMs g summ| |]; simpl; try done.
  - unfold getSessionForGroup. destruct (findGroup g reg) as [[i e]|] eqn:F; [|done].
    apply findGroup_Some in F as (Hi & _ & _). simpl.
    by rewrite (count_insert_same _ _ _ e).
  - unfold createSessionForGroup. destruct (findGroup g reg) as [[i e]|] eqn:F; simpl.
    + apply findGroup_Some in F as (Hi & Hg & _).
      rewrite (count_insert_same _ _ _ e); [done..|].
      apply liveFor_group. by rewrite Hg.
    + rewrite count_snoc. unfold liveFor at 2. simpl.
      case_bool_decide as HG; [subst G|rewrite andb_false_r; lia].
      rewrite count_none; [destruct (isLive _); simpl; lia|].
      eapply Forall_impl; [by apply findGroup_None|].
      intros s Hs. unfold liveFor. rewrite bool_decide_eq_false_2; [|done].
      apply andb_false_r.
  - unfold updateTokenCount. destruct (findGroup g reg) as [[i e]|] eqn:F; [|done].
    apply findGroup_Some in F as (Hi & _ & _). simpl.
    by rewrite (count_insert_same _ _ _ e).
  - unfold rotateSession. destruct (findGroup g reg) as [[i e]|] eqn:F; [|done].
    simpl. etrans; [apply count_insert_false, liveFor_archived|done].
Qed.

Lemma run_atMostOneLive ops reg : atMostOneLive reg -> atMostOneLive (run ops reg).
Proof.
  unfold run. revert reg. induction ops as [|o ops IH]; intros reg H; simpl; [done|].
  by apply IH, step_atMostOneLive.
Qed.

(** For a group whose name is not archival, every entry under that name is
    live, so the bound on live entries bounds what [find] can see. *)
Lemma groupCount_live G reg :
  includes G "__archived_" = false -> groupCount G reg = liveCount G reg.
Proof.
  intros HG. unfold groupCount, liveCount. f_equal.
  apply List.filter_ext. intros s. unfold liveFor, isLive.
  case_bool_decide as E; [by rewrite E, HG|by rewrite andb_false_r].
Qed.

Lemma findGroup_insert_same g reg i e e' :
  findGroup g reg = Some (i, e) -> group e' = g ->
  findGroup g (mkRegistry (<[i := e']> (sessions reg))) = Some (i, e').
Proof.
  intros F Hg. pose proof (findGroup_Some _ _ _ _ F) as (Hi & _ & Hlt).
  unfold findGroup. apply list_find_Some. simpl.
  split_and!; [|done|].
  - apply list_lookup_insert_eq. by eapply lookup_lt_Some.
  - intros j y Hj Hji. rewrite list_lookup_insert_ne in Hj by lia. eauto.
Qed.

(** Creating over an existing entry overwrites it in place. *)
Lemma create_replaces now1 now2 g sid reg :
  is_Some (findGroup g reg) ->
  let reg' := (createSessionForGroup now1 now2 g sid reg).2 in
  length (sessions reg') = length (sessions reg) /\
  groupCount g reg' = groupCount g reg /\
  forall now, exists e,
    (getSessionForGroup now g reg').1 = Some e /\
    sessionId e = sid /\ contentTokens e = 0.
Proof.
  intros [[i e] F]. unfold createSessionForGroup. rewrite F. simpl.
  pose proof (findGroup_Some _ _ _ _ F) as (Hi & Hg & _).
  split_and!.
  - apply length_insert.
  - unfold groupCount. simpl. apply (count_insert_same _ _ _ e); [done|].
    simpl. by rewrite Hg.
  - intros now. unfold getSessionForGroup.
    erewrite findGroup_insert_same; [|done..]. simpl. eauto.
Qed.

Lemma findGroup_insert_other g reg i e j y :
  findGroup g reg = Some (i, e) -> j <> i -> group y <> g ->
  findGroup g (mkRegistry (<[j := y]> (sessions reg))) = Some (i, e).
Proof.
  intros F Hji Hy. pose proof (findGroup_Some _ _ _ _ F) as (Hi & Hg & Hlt).
  unfold findGroup. apply list_find_Some. simpl.
  split_and!; [by rewrite list_lookup_insert_ne|done|].
  intros k z Hk Hki. destruct (decide (k = j)) as [->|Hkj].
  - assert (j < length (sessions reg))%nat.
    { apply lookup_lt_Some in Hi. lia. }
    rewrite list_lookup_insert_eq in Hk by done. by simplify_eq.
  - rewrite list_lookup_insert_ne in Hk by done. eauto.
Qed.

Lemma findGroup_other_index g g' reg i e j e' :
  findGroup g reg = Some (i, e) -> findGroup g' reg = Some (j, e') ->
  g' <> g -> j <> i.
Proof.
  intros F F' Hne ->.
  apply findGroup_Some in F as (Hi & Hg & _).
  apply findGroup_Some in F' as (Hi' & Hg' & _). congruence.
Qed.

(** An operation that keeps [g] leaves its entry at the same position,
    with the same session identifier. *)
Lemma step_keeps g o reg i e :
  keeps g o = true -> findGroup g reg = Some (i, e) ->
  exists e', findGroup g (step reg o) = Some (i, e') /\ sessionId e' = sessionId e.
Proof.
  intros K F. pose proof (findGroup_Some _ _ _ _ F) as (Hi & Hg & _).
  destruct o as [now g'|now1 now2 g' sid|g' tokens|nowMs g' summ| |]; simpl in *; eauto.
  - unfold getSessionForGroup.
    destruct (findGroup g' reg) as [[j e2]|] eqn:F'; simpl; [|eauto].
    destruct (decide (g' = g)) as [->|Hne].
    + simplify_eq. eexists. split; [by eapply findGroup_insert_same|done].
    + exists e. split; [|done]. apply findGroup_insert_other; [done|..].
      * by eapply findGroup_other_index.
      * apply findGroup_Some in F' as (_ & ? & _). simpl. congruence.
  - apply negb_true_iff, bool_decide_eq_false in K.
    unfold createSessionForGroup.
    destruct (findGroup g' reg) as [[j e2]|] eqn:F'; simpl.
    + exists e. split; [|done]. apply findGroup_insert_other; [done|..|done].
      by eapply findGroup_other_index.
    + exists e. split; [|done]. unfold findGroup. simpl. by apply list_find_app_l.
  - unfold updateTokenCount.
    destruct (findGroup g' reg) as [[j e2]|] eqn:F'; simpl; [|eauto].
    destruct (decide (g' = g)) as [->|Hne].
    + simplify_eq. eexists. split; [by eapply findGroup_insert_same|done].
    + exists e. split; [|done]. apply findGroup_insert_other; [done|..].
      * by eapply findGroup_other_index.
      * apply findGroup_Some in F' as (_ & ? & _). simpl. congruence.
  - apply andb_true_iff in K as [K1 K2].
    apply negb_true_iff, bool_decide_eq_false in K1, K2.
    unfold rotateSession.
    destruct (findGroup g' reg) as [[j e2]|] eqn:F'; simpl; [|eauto].
    exists e. split; [|done]. apply findGroup_insert_other; [done|..|done].
    by eapply findGroup_other_index.
Qed.

Lemma run_keeps g ops reg i e :
  forallb (keeps g) ops = true -> findGroup g reg = Some (i, e) ->
  exists e', findGroup g (run ops reg) = Some (i, e') /\ sessionId e' = sessionId e.
Proof.
  unfold run. revert reg e. induction ops as [|o ops IH]; intros reg e K F; simpl in *.
  - eauto.
  - apply andb_true_iff in K as [K1 K2].
    destruct (step_keeps _ _ _ _ _ K1 F) as (e1 & F1 & S1).
    destruct (IH _ _ K2 F1) as (e2 & F2 & S2).
    exists e2. split; [done|congruence].
Qed.

Lemma create_found now1 now2 g sid reg :
  exists i e, findGroup g (createSessionForGroup now1 now2 g sid reg).2 = Some (i, e)
              /\ sessionId e = sid /\ contentTokens e = 0.
Proof.
  unfold createSessionForGroup.
  destruct (findGroup g reg) as [[j e2]|] eqn:F; simpl.
  - exists j, (mkEntry sid g now1 now2 0 None).
    split; [by eapply findGroup_insert_same|done].
  - exists (length (sessions reg)), (mkEntry sid g now1 now2 0 None).
    split; [|done]. unfold findGroup. simpl.
    pose proof (findGroup_None _ _ F) as HN.
    apply list_find_Some. split_and!.
    + by apply list_lookup_middle.
    + done.
    + intros j y Hj Hlt. rewrite lookup_app_l in Hj by done.
      eapply Forall_lookup_1 in HN; [|done]. done.
Qed.

Lemma get_found now g reg i e :
  findGroup g reg = Some (i, e) ->
  (getSessionForGroup now g reg).1 = Some (set_lastUsedAt now e).
Proof. intros F. unfold getSessionForGroup. by rewrite F. Qed.

#[local] Instance not_archival_dec (s : SessionEntry) :
  Decision (~ exists a b, group s = a +:+ "__archived_" +:+ b).
Proof.
  destruct (includes (group s) "__archived_") eqn:E.
  - right. intros H. apply includes_false in H. congruence.
  - left. by apply includes_false.
Defined.

Lemma filter_bool_prop {A} (P : A -> Prop) `{!forall x, Decision (P x)}
    (p : A -> bool) (l : list A) :
  (forall x, p x = true <-> P x) -> List.filter p l = filter P l.
Proof.
  intros Hp. induction l as [|a l IH]; [done|].
  cbn [List.filter]. rewrite filter_cons, IH.
  destruct (decide (P a)) as [Ha|Ha], (p a) eqn:E; try done.
  - apply Hp in Ha. congruence.
  - apply Hp in E. done.
Qed.

Lemma listSessions_filter (reg : Registry) :
  listSessions reg =
  filter (fun s => ~ exists a b, group s = a +:+ "__archived_" +:+ b) (sessions reg).
Proof.
  unfold listSessions. apply filter_bool_prop. intros s.
  rewrite negb_true_iff. apply includes_false.
Qed.

Lemma listSessions_group (reg : Registry) (s : SessionEntry) :
  s ∈ listSessions reg -> includes (group s) "__archived_" = false.
Proof.
  unfold listSessions. rewrite list_elem_of_In, List.filter_In.
  intros [_ H]. by apply negb_true_iff.
Qed.

(** C1: starting from a registry with at most one live (non-archived) entry
    per group, every sequence of registry operations ends in a registry with
    at most one live entry per group, so a non-archival group name is borne
    by at most one entry; and [createSessionForGroup] on a group that already
    has an entry overwrites it in place: the number of entries and the number
    of entries under that name are unchanged, and [getSessionForGroup]
    returns the new entry. *)
Theorem registry_at_most_one_live (reg : Registry) (ops : list Op) :
  atMostOneLive reg ->
  let reg' := run ops reg in
  atMostOneLive reg' /\
  (forall G, includes G "__archived_" = false -> (groupCount G reg' <= 1)%nat) /\
  (forall now1 now2 g sid,
      is_Some (findGroup g reg') ->
      let reg'' := (createSessionForGroup now1 now2 g sid reg').2 in
      atMostOneLive reg'' /\
      length (sessions reg'') = length (sessions reg') /\
      groupCount g reg'' = groupCount g reg' /\
      forall now, exists e,
        (getSessionForGroup now g reg'').1 = Some e /\
        sessionId e = sid /\ contentTokens e = 0).
Proof.
  intros Hinv reg'.
  assert (Hinv' : atMostOneLive reg') by by apply run_atMostOneLive.
  split_and!; [done|..].
  - intros G HG. rewrite groupCount_live by done. apply Hinv'.
  - intros now1 now2 g sid Hex reg''. split.
    + apply (step_atMostOneLive reg' (OpCreate now1 now2 g sid) Hinv').
    + by apply create_replaces.
Qed.

Lemma registry_at_most_one_live_witness :
  atMostOneLive (run ops_sample registry_sample).
Proof.
  apply (registry_at_most_one_live registry_sample ops_sample).
  intros G. unfold liveCount, liveFor. simpl.
  case_bool_decide; simpl; lia.
Defined.



End SessionRegistryFacts.

(** ** The session registry: what its operations keep *)

Module RegistryLaws.
Import JsString JsStringFacts SessionRegistry SessionRegistryFacts RegistryOps.

Lemma list_find_insert_other {A} (P : A -> Prop) `{!forall x, Decision (P x)}
    (l : list A) (i : nat) (x y : A) :
  l !! i = Some x -> ~ P x -> ~ P y -> list_find P (<[i := y]> l) = list_find P l.
Proof.
  revert i. induction l as [|a l IH]; intros [|i] Hi Hx Hy; simplify_eq/=.
  - by rewrite !decide_False.
  - by rewrite (IH i).
Qed.

Lemma list_find_snoc_other {A} (P : A -> Prop) `{!forall x, Decision (P x)}
    (l : list A) (y : A) :
  ~ P y -> list_find P (l ++ [y]) = list_find P l.
Proof.
  intros Hy. induction l as [|a l IH]; simpl.
  - by rewrite decide_False.
  - by rewrite IH.
Qed.

Lemma findGroup_lookup g reg i e :
  findGroup g reg = Some (i, e) -> sessions reg !! i = Some e /\ group e = g.
Proof. intros F. by destruct (findGroup_Some _ _ _ _ F) as (? & ? & _). Qed.

(** The projections the operations other than [create] leave alone. *)
Lemma fmap_insert_same {B} (f : SessionEntry -> B) (l : list SessionEntry) (i : nat)
    (e e' : SessionEntry) :
  l !! i = Some e -> f e' = f e -> f <$> <[i := e']> l = f <$> l.
Proof.
  intros Hi Hf. rewrite list_fmap_insert, Hf.
  apply list_insert_id. by rewrite list_lookup_fmap, Hi.
Qed.

Lemma step_identity (o : Op) (reg : Registry) :
  isCreate o = false ->
  sessionId <$> sessions (step reg o) = sessionId <$> sessions reg /\
  createdAt <$> sessions (step reg o) = createdAt <$> sessions reg.
Proof.
  intros Hc. destruct o as [now g|? ? ? ?|g n|t g summ| |]; try done; simpl.
  - unfold getSessionForGroup. destruct (findGroup g reg) as [[i e]|] eqn:F; [|done].
    apply findGroup_lookup in F as [Hi _]. simpl.
    split; by apply (fmap_insert_same _ _ _ e).
  - unfold updateTokenCount. destruct (findGroup g reg) as [[i e]|] eqn:F; [|done].
    apply findGroup_lookup in F as [Hi _]. simpl.
    split; by apply (fmap_insert_same _ _ _ e).
  - unfold rotateSession. destruct (findGroup g reg) as [[i e]|] eqn:F; [|done].
    apply findGroup_lookup in F as [Hi _]. simpl.
    split; apply (fmap_insert_same _ _ _ e); try done;
      destruct summ as [x|]; try done; by case_bool_decide.
Qed.

(** X1: looking a session up, recording a token count, rotating and listing
    never add, drop, reorder or re-identify an entry: after any sequence of
    such operations the registry holds the same session identifiers with the
    same creation times, in the same order. *)
Theorem only_create_changes_identity (reg : Registry) (ops : list Op) :
  forallb (fun o => negb (isCreate o)) ops = true ->
  sessionId <$> sessions (run ops reg) = sessionId <$> sessions reg /\
  createdAt <$> sessions (run ops reg) = createdAt <$> sessions reg /\
  length (sessions (run ops reg)) = length (sessions reg).
Proof.
  revert reg. induction ops as [|o ops IH]; intros reg H; [done|].
  simpl in H. apply andb_true_iff in H as [Ho Hops]. apply negb_true_iff in Ho.
  destruct (step_identity o reg Ho) as [E1 E2].
  destruct (IH (step reg o) Hops) as (I1 & I2 & I3).
  unfold run in *. simpl. rewrite I1, I2, I3. split_and!; [done|done|].
  by rewrite <- (length_fmap sessionId), E1, length_fmap.
Qed.

Lemma only_create_changes_identity_witness :
  sessionId <$> sessions (run [OpGet "t1" "ops"; OpUpdateTokenCount "ops" 130000;
                               OpArchive 1700000000001 "ops" (Some "full"); OpListLive]
                            registry_sample)
  = ["s-1"; "s-0"].
Proof.
  destruct (only_create_changes_identity registry_sample
              [OpGet "t1" "ops"; OpUpdateTokenCount "ops" 130000;
               OpArchive 1700000000001 "ops" (Some "full"); OpListLive]) as [E _];
    [reflexivity|exact E].
Defined.

(** X2: an operation on a group name no entry bears does nothing: the lookup
    and the rotation return null, and the registry is left as it was, with
    no entry added for the name. *)
Theorem unknown_group_untouched (reg : Registry) (g : string) :
  Forall (fun s => group s <> g) (sessions reg) ->
  forall (now : string) (tokens : num) (nowMs : Z) (summ : option string),
    getSessionForGroup now g reg = (None, reg) /\
    updateTokenCount g tokens reg = reg /\
    rotateSession nowMs g summ reg = (None, reg).
Proof.
  intros H now tokens nowMs summ.
  assert (F : findGroup g reg = None).
  { unfold findGroup. apply list_find_None. done. }
  unfold getSessionForGroup, updateTokenCount, rotateSession. by rewrite F.
Qed.

Lemma unknown_group_untouched_witness :
  rotateSession 1700000000001 "general" (Some "full") registry_sample
  = (None, registry_sample).
Proof.
  apply (unknown_group_untouched registry_sample "general");
    [by repeat constructor|exact "t"|exact 0].
Defined.

(** The entries of a group that has one entry at most. *)
Lemma groupCount_unique (g : string) (reg : Registry) (i : nat) (e : SessionEntry) :
  (groupCount g reg <= 1)%nat -> sessions reg !! i = Some e -> group e = g ->
  forall j y, sessions reg !! j = Some y -> j <> i -> group y <> g.
Proof.
  unfold groupCount. destruct reg as [l]. simpl. revert i.
  induction l as [|a l IH]; intros i Hc Hi Hg j y Hj Hne; [done|].
  simpl in Hc. destruct i as [|i], j as [|j]; simplify_eq/=.
  - rewrite bool_decide_eq_true_2 in Hc by done. simpl in Hc.
    intros Hy. apply list_elem_of_lookup_2 in Hj.
    assert (Hin : In y (List.filter (fun s => bool_decide (group s = group e)) l)).
    { apply List.filter_In. split; [by apply list_elem_of_In|by apply bool_decide_eq_true_2]. }
    destruct (List.filter _ l); [done|simpl in Hc; lia].
  - intros Hy. rewrite bool_decide_eq_true_2 in Hc by done. simpl in Hc.
    apply list_elem_of_lookup_2 in Hi.
    assert (Hin : In e (List.filter (fun s => bool_decide (group s = group e)) l)).
    { apply List.filter_In. split; [by apply list_elem_of_In|by apply bool_decide_eq_true_2]. }
    destruct (List.filter _ l); [done|simpl in Hc; lia].
  - apply (IH i) with (j := j); try done; [|congruence].
    destruct (bool_decide (group a = group e)); simpl in Hc; lia.
Qed.

(** X3: rotating the session of a group that has a single entry returns
    that entry's session identifier and retires it: the entry stays in the
    registry, at its place and with its identifier, under the archival name,
    with the summary when one is given; [listSessions] no longer shows it,
    and a lookup of the group finds nothing any more. *)
Theorem rotate_retires_session (reg : Registry) (g : string) (i : nat) (e : SessionEntry)
    (nowMs : Z) (summ : option string) :
  findGroup g reg = Some (i, e) -> (groupCount g reg <= 1)%nat ->
  let reg' := (rotateSession nowMs g summ reg).2 in
  (rotateSession nowMs g summ reg).1 = Some (sessionId e) /\
  (forall now, getSessionForGroup now g reg' = (None, reg')) /\
  length (sessions reg') = length (sessions reg) /\
  exists e', sessions reg' !! i = Some e' /\
             sessionId e' = sessionId e /\
             group e' = archiveGroup g nowMs /\
             summary e' = match summ with
                          | Some x => if isEmpty x then summary e else Some x
                          | None => summary e
                          end /\
             (e' ∉ listSessions reg') /\ (e' ∈ listAllSessions reg').
Proof.
  intros F Hc reg'.
  destruct (findGroup_Some _ _ _ _ F) as (Hi & Hg & _).
  assert (Hlen : (i < length (sessions reg))%nat) by by eapply lookup_lt_Some.
  unfold reg', rotateSession. rewrite F. cbn [fst snd].
  set (old1 := match summ with
               | Some x => if bool_decide (x = "") then e else set_summary x e
               | None => e
               end).
  set (e' := set_group (archiveGroup g nowMs) old1).
  assert (Hid : sessionId e' = sessionId e).
  { unfold e', old1. destruct summ as [x|]; [case_bool_decide|]; done. }
  assert (Hlook : <[i := e']> (sessions reg) !! i = Some e') by by apply list_lookup_insert_eq.
  assert (Hne : archiveGroup g nowMs <> g).
  { unfold archiveGroup. by apply app_neq_self. }
  split_and!.
  - by rewrite <- Hid.
  - intros now.
    assert (findGroup g (mkRegistry (<[i := e']> (sessions reg))) = None) as F'.
    { unfold findGroup. apply list_find_None, Forall_forall. intros y Hy. simpl in Hy.
      apply list_elem_of_lookup in Hy as [j Hj].
      destruct (decide (j = i)) as [->|Hji].
      - rewrite Hlook in Hj. by simplify_eq.
      - rewrite list_lookup_insert_ne in Hj by done.
        by eapply (groupCount_unique g reg i e). }
    unfold getSessionForGroup. by rewrite F'.
  - simpl. by rewrite length_insert.
  - exists e'. split_and!; try done.
    + unfold e', old1. destruct summ as [x|]; [|done].
      case_bool_decide as Hx; [by subst|]. by destruct x.
    + unfold listSessions. rewrite list_elem_of_In, List.filter_In. intros [_ H].
      simpl in H. by rewrite archiveGroup_archival in H.
    + unfold listAllSessions. simpl. by eapply list_elem_of_lookup_2.
Qed.

Lemma rotate_retires_session_witness :
  (rotateSession 1700000000001 "ops" (Some "full") registry_sample).1 = Some "s-1" /\
  forall now,
    (getSessionForGroup now "ops"
       (rotateSession 1700000000001 "ops" (Some "full") registry_sample).2).1 = None.
Proof.
  destruct (rotate_retires_session registry_sample "ops" 0
              (mkEntry "s-1" "ops" "t0" "t0" 5 None) 1700000000001 (Some "full"))
    as (E & G & _); [reflexivity|vm_compute; lia|].
  split; [exact E|]. intros now. by rewrite G.
Defined.

Lemma step_isolated (o : Op) (reg : Registry) (g : string) :
  forallb (fun g' => negb (String.eqb g' g)) (touched o) = true ->
  findGroup g (step reg o) = findGroup g reg.
Proof.
  intros H.
  assert (Hne : forall g', g' ∈ touched o -> g' <> g).
  { intros g' Hin ->. rewrite forallb_forall in H.
    specialize (H g (proj1 (list_elem_of_In _ _) Hin)). by rewrite String.eqb_refl in H. }
  destruct o as [now g0|n1 n2 g0 sid|g0 n|t g0 summ| |]; try done; simpl in *.
  - assert (g0 <> g) by (apply Hne; by left).
    unfold getSessionForGroup. destruct (findGroup g0 reg) as [[i e]|] eqn:F; [|done].
    apply findGroup_lookup in F as [Hi Hg]. unfold findGroup. simpl.
    apply (list_find_insert_other _ _ _ e); simpl; congruence.
  - assert (g0 <> g) by (apply Hne; by left).
    unfold createSessionForGroup. destruct (findGroup g0 reg) as [[i e]|] eqn:F.
    + apply findGroup_lookup in F as [Hi Hg]. unfold findGroup. simpl.
      apply (list_find_insert_other _ _ _ e); simpl; congruence.
    + unfold findGroup. simpl. by apply list_find_snoc_other.
  - assert (g0 <> g) by (apply Hne; by left).
    unfold updateTokenCount. destruct (findGroup g0 reg) as [[i e]|] eqn:F; [|done].
    apply findGroup_lookup in F as [Hi Hg]. unfold findGroup. simpl.
    apply (list_find_insert_other _ _ _ e); simpl; congruence.
  - assert (g0 <> g) by (apply Hne; by left).
    assert (archiveGroup g0 t <> g) by (apply Hne; right; by left).
    unfold rotateSession. destruct (findGroup g0 reg) as [[i e]|] eqn:F; [|done].
    apply findGroup_lookup in F as [Hi Hg]. unfold findGroup. simpl.
    apply (list_find_insert_other _ _ _ e); simpl; congruence.
Qed.

(** X4: session groups are isolated.  Operations that name neither a group
    nor, when they archive, its archival name leave the lookup of that group
    as it was: the same entry at the same place, or no entry still. *)
Theorem groups_isolated (reg : Registry) (ops : list Op) (g : string) :
  untouched g ops = true ->
  findGroup g (run ops reg) = findGroup g reg /\
  forall now, (getSessionForGroup now g (run ops reg)).1 = (getSessionForGroup now g reg).1.
Proof.
  intros H.
  assert (F : findGroup g (run ops reg) = findGroup g reg).
  { revert reg. induction ops as [|o ops IH]; intros reg; [done|].
    simpl in H. apply andb_true_iff in H as [Ho Hops].
    unfold run in *. simpl. rewrite (IH Hops). by apply step_isolated. }
  split; [done|]. intros now. unfold getSessionForGroup. rewrite F.
  by destruct (findGroup g reg) as [[i e]|].
Qed.

Lemma groups_isolated_witness :
  (getSessionForGroup "t9" "ops"
     (run [OpCreate "t1" "t1" "general" "s-5"; OpUpdateTokenCount "general" 200000;
           OpArchive 1700000000002 "general" None; OpGet "t2" "default"]
        registry_sample)).1
  = Some (mkEntry "s-1" "ops" "t0" "t9" 5 None).
Proof.
  destruct (groups_isolated registry_sample
              [OpCreate "t1" "t1" "general" "s-5"; OpUpdateTokenCount "general" 200000;
               OpArchive 1700000000002 "general" None; OpGet "t2" "default"] "ops")
    as [_ E]; [reflexivity|].
  by rewrite E.
Defined.

(** X5: a token count recorded for a group is what the next lookup of the
    group reports, on the same session; every other entry is left as it
    was. *)
Theorem token_count_recorded (reg : Registry) (g : string) (tokens : num) (i : nat)
    (e : SessionEntry) :
  findGroup g reg = Some (i, e) ->
  let reg' := updateTokenCount g tokens reg in
  (forall now, exists e',
      (getSessionForGroup now g reg').1 = Some e' /\
      contentTokens e' = tokens /\ sessionId e' = sessionId e /\ group e' = g) /\
  (forall j, j <> i -> sessions reg' !! j = sessions reg !! j) /\
  length (sessions reg') = length (sessions reg).
Proof.
  intros F reg'. unfold reg', updateTokenCount. rewrite F.
  destruct (findGroup_lookup _ _ _ _ F) as [Hi Hg].
  split_and!.
  - intros now. exists (set_lastUsedAt now (set_contentTokens tokens e)).
    split; [|done]. apply (get_found now g _ i).
    by apply (findGroup_insert_same g reg i e).
  - intros j Hj. simpl. by rewrite list_lookup_insert_ne.
  - simpl. by rewrite length_insert.
Qed.

Lemma token_count_recorded_witness :
  exists e', (getSessionForGroup "t9" "ops"
                (updateTokenCount "ops" 130000 registry_sample)).1 = Some e' /\
             contentTokens e' = 130000.
Proof.
  destruct (token_count_recorded registry_sample "ops" 130000 0
              (mkEntry "s-1" "ops" "t0" "t0" 5 None)) as [H _]; [reflexivity|].
  destruct (H "t9") as (e' & E & T & _). by exists e'.
Defined.

(** After a rotation a group with one entry at most has none. *)
Lemma rotate_forgets (reg : Registry) (g : string) (nowMs : Z) (summ : option string) :
  (groupCount g reg <= 1)%nat -> findGroup g (rotateSession nowMs g summ reg).2 = None.
Proof.
  intros Hc. unfold rotateSession.
  destruct (findGroup g reg) as [[i e]|] eqn:F; [|done].
  destruct (findGroup_lookup _ _ _ _ F) as [Hi Hg]. cbn [snd].
  assert (Hlen : (i < length (sessions reg))%nat) by by eapply lookup_lt_Some.
  unfold findGroup. apply list_find_None, Forall_forall. intros y Hy. simpl in Hy.
  apply list_elem_of_lookup in Hy as [j Hj].
  destruct (decide (j = i)) as [->|Hji].
  - rewrite list_lookup_insert_eq in Hj by done. simplify_eq. simpl.
    unfold archiveGroup. by apply app_neq_self.
  - rewrite list_lookup_insert_ne in Hj by done.
    intros Hy. subst g. by eapply (groupCount_unique (group e) reg i e).
Qed.

End RegistryLaws.

(** ** The single-session shim *)

Module SessionsFacts.
Import JsString JsStringFacts Digits DigitFacts SessionRegistry SessionRegistryFacts
       RegistryLaws Sessions.

Lemma getSession_createSession (now1 now2 now sid : string) (reg : Registry) :
  (getSession now (createSession now1 now2 sid reg)).1 = Some sid.
Proof.
  destruct (create_found now1 now2 "default" sid reg) as (i & e & F & Hs & _).
  unfold getSession, createSession, getSessionForGroup. rewrite F. simpl. by rewrite Hs.
Qed.


(** X7: after [resetSession] there is no current session: [getSession]
    returns null, whether or not there was a session, as long as the group
    default had one entry at most; the entries of the registry are all still
    there. *)
Theorem reset_leaves_no_session (nowMs : Z) (now : string) (reg : Registry) :
  (groupCount "default" reg <= 1)%nat ->
  let reg' := resetSession nowMs reg in
  getSession now reg' = (None, reg') /\
  (peekSession now reg').1 = None /\
  sessionId <$> sessions reg' = sessionId <$> sessions reg.
Proof.
  intros Hc reg'.
  pose proof (rotate_forgets reg "default" nowMs (Some "reset by user") Hc) as F.
  fold (resetSession nowMs reg) in F. fold reg' in F.
  split_and!.
  - unfold getSession, getSessionForGroup. by rewrite F.
  - unfold peekSession, getSessionForGroup. by rewrite F.
  - apply (step_identity (OpArchive nowMs "default" (Some "reset by user")) reg). done.
Qed.

Lemma reset_leaves_no_session_witness :
  getSession "t9" (resetSession 1700000000003 sample_default_registry)
  = (None, resetSession 1700000000003 sample_default_registry).
Proof.
  apply (reset_leaves_no_session 1700000000003 "t9" sample_default_registry).
  vm_compute. lia.
Defined.

(** *** Backups *)

Lemma backupDigits_backupName (n : Z) :
  0 <= n -> backupDigits (backupName n) = Some (decimal n).
Proof.
  intros Hn. unfold backupDigits, backupName.
  rewrite prefix_app_r.
  change (sliceFrom 8 ("session_" +:+ decimal n +:+ ".backup"))
    with (decimal n +:+ ".backup").
  rewrite spanDigits_decimal by done.
  pose proof (decimal_nonempty n Hn). by destruct (decimal n).
Qed.

Lemma foldl_max_le (l : list Z) (a : Z) :
  a <= foldl Z.max a l /\ forall i, i ∈ l -> i <= foldl Z.max a l.
Proof.
  revert a. induction l as [|x l IH]; intros a; simpl.
  - split; [lia|]. intros i Hi. by apply elem_of_nil in Hi.
  - destruct (IH (Z.max a x)) as [H1 H2]. split; [lia|].
    intros i Hi. apply elem_of_cons in Hi as [->|Hi]; [lia|by apply H2].
Qed.

Lemma maxOf_le (l : list Z) (i : Z) : i ∈ l -> i <= maxOf l.
Proof.
  destruct l as [|a l]; [by intros ?%elem_of_nil|]. simpl.
  destruct (foldl_max_le l a) as [H1 H2].
  intros [->|Hi]%elem_of_cons; [done|by apply H2].
Qed.

Lemma digitsValue_nonneg (ds : string) : 0 <= digitsValue ds.
Proof.
  unfold digitsValue. destruct (NilEmpty.uint_of_string ds) as [u|]; [|done].
  unfold Z.of_uint. lia.
Qed.

Lemma forallb_false {A} (p : A -> bool) (l : list A) :
  forallb p l = false -> exists x, x ∈ l /\ p x = false.
Proof.
  induction l as [|a l IH]; simpl; [done|].
  destruct (p a) eqn:E; simpl.
  - intros H. destruct (IH H) as (x & ? & ?). exists x. split; [by right|done].
  - intros _. exists a. split; [by left|done].
Qed.

Lemma nextIndex_above (files : list string) :
  1 <= nextIndex files /\ forall i, i ∈ backupIndices files -> i < nextIndex files.
Proof.
  unfold nextIndex. destruct (backupIndices files) as [|a l] eqn:E.
  - split; [done|]. by intros i ?%elem_of_nil.
  - assert (Ha : 0 <= a).
    { assert (a ∈ backupIndices files) as Hin by (rewrite E; by left).
      unfold backupIndices in Hin. apply list_elem_of_omap in Hin as (f & _ & Hf).
      destruct (backupDigits f); simplify_eq/=. apply digitsValue_nonneg. }
    pose proof (maxOf_le (a :: l) a (list_elem_of_here _ _)).
    split; [lia|]. intros i Hi. pose proof (maxOf_le (a :: l) i Hi). lia.
Qed.

(** X8: [backupSession] never reuses the name of a backup.  The name it
    picks is none of the names in the directory; it is itself a backup name,
    numbered 1 when the directory holds no backup and above every backup there
    otherwise, leading zeros and names that only resemble backups set aside.
    The backup holds the session looked up, and without a session for the
    group default nothing is backed up and the registry stays as it is. *)
Theorem backup_name_is_fresh (now : string) (nowMs : Z) (files : list string)
    (reg : Registry) :
  match backupSession now nowMs files reg with
  | NoSession reg' => findGroup "default" reg = None /\ reg' = reg
  | BackedUp name data reg' =>
      (name ∉ files) /\
      name = backupName (nextIndex files) /\
      backupDigits name = Some (decimal (nextIndex files)) /\
      (backupIndices files = [] -> name = "session_1.backup") /\
      (forall f ds, f ∈ files -> backupDigits f = Some ds ->
                    digitsValue ds < nextIndex files) /\
      exists i e, findGroup "default" reg = Some (i, e) /\
                  data = mkGlobalSession (sessionId e) (createdAt e) now /\
                  sessionId <$> sessions reg' = sessionId <$> sessions reg
  | BeyondSafeIntegers =>
      exists f ds, f ∈ files /\ backupDigits f = Some ds /\ MAX_SAFE_INTEGER < digitsValue ds
  end.
Proof.
  unfold backupSession, getSessionForGroup.
  destruct (findGroup "default" reg) as [[i e]|] eqn:F; [|done].
  destruct (forallb _ (backupIndices files)) eqn:Hsafe.
  - destruct (nextIndex_above files) as [H1 Habove].
    assert (Hn : 0 <= nextIndex files) by lia.
    pose proof (backupDigits_backupName _ Hn) as Hbd.
    assert (Hidx : forall f ds, f ∈ files -> backupDigits f = Some ds ->
                     digitsValue ds < nextIndex files).
    { intros f ds Hf Hds. apply Habove. unfold backupIndices.
      apply list_elem_of_omap. exists f. split; [done|]. by rewrite Hds. }
    split_and!; try done.
    + intros Hin. specialize (Hidx _ _ Hin Hbd).
      rewrite digitsValue_decimal in Hidx by done. lia.
    + unfold nextIndex. by intros ->.
    + exists i, e. split_and!; [done|done|].
      destruct (findGroup_lookup _ _ _ _ F) as [Hi Hg].
      set (reg1 := mkRegistry (<[i := set_lastUsedAt now e]> (sessions reg))).
      etrans; [apply (step_identity (OpArchive nowMs "default" (Some "backed up")) reg1);
               done|].
      unfold reg1. simpl. by apply (fmap_insert_same _ _ _ e).
  - apply forallb_false in Hsafe as (x & Hx & Hgt).
    unfold backupIndices in Hx. apply list_elem_of_omap in Hx as (f & Hf & Hds).
    destruct (backupDigits f) as [ds|] eqn:E; simplify_eq/=.
    exists f, ds. split_and!; [done|done|]. apply Z.leb_gt in Hgt. done.
Qed.

Lemma backup_name_is_fresh_witness :
  "session_8.backup" ∉ sample_listing.
Proof.
  pose proof (backup_name_is_fresh "t9" 1700000000004 sample_listing sample_default_registry)
    as H.
  assert (E : backupSession "t9" 1700000000004 sample_listing sample_default_registry
              = BackedUp "session_8.backup" (mkGlobalSession "s-2" "t1" "t9")
                  (rotateSession 1700000000004 "default" (Some "backed up")
                     (getSessionForGroup "t9" "default" sample_default_registry).2).2)
    by reflexivity.
  rewrite E in H. by destruct H as [Hfresh _].
Defined.

End SessionsFacts.

(** ** The token estimator *)

Module TokenEstimatorFacts.
Import JsString Json TokenEstimator.

Lemma sumLengths_app (a b : list string) :
  sumLengths (a ++ b)%list = sumLengths a + sumLengths b.
Proof. unfold sumLengths. induction a as [|x a IH]; simpl; [done|]. rewrite IH. lia. Qed.

Lemma sumLengths_nonneg (a : list string) : 0 <= sumLengths a.
Proof. unfold sumLengths. induction a as [|x a IH]; simpl; lia. Qed.

(** A string-or-falsy [text] adds the length of the text listed for it. *)
Lemma add_text (block : json) (t : Z) :
  textIsString block = true ->
  addIfTruthy addLength (Chars t) (optProp (Some block) "text") =
  Chars (t + sumLengths (textOf (optProp (Some block) "text"))).
Proof.
  unfold textIsString. destruct (optProp (Some block) "text") as [v|] eqn:E; simpl.
  - destruct v as [|b|d|s|l|f]; simpl; intros H;
      rewrite ?H; try (apply negb_true_iff in H; rewrite ?H); try done;
      try (f_equal; lia).
    destruct s; simpl; f_equal; lia.
  - intros _. f_equal. lia.
Qed.

Lemma add_content (v : value) (t : Z) :
  addIfTruthy addStringLength (Chars t) v = Chars (t + sumLengths (stringOf v)).
Proof.
  destruct v as [x|]; [|simpl; f_equal; lia].
  unfold addIfTruthy, stringOf. destruct (truthy (Some x)).
  - unfold addStringLength, sumLengths. simpl. f_equal. lia.
  - simpl. f_equal. lia.
Qed.

Lemma prop_not_null (block : json) (name : string) :
  isNull block = false -> prop block name = Normal (optProp (Some block) name).
Proof. by destruct block. Qed.

Lemma messageTexts_cons (block : json) (rest : list json) :
  isNull block = false ->
  messageTexts (block :: rest) =
  ((textOf (optProp (Some block) "text") ++ stringOf (optProp (Some block) "content"))
     ++ messageTexts rest)%list.
Proof. intros N. unfold messageTexts. cbn [beforeNull]. by rewrite N. Qed.

Lemma resultTexts_cons (block : json) (rest : list json) :
  isNull block = false ->
  resultTexts (block :: rest) =
  (textOf (optProp (Some block) "text") ++ resultTexts rest)%list.
Proof. intros N. unfold resultTexts. cbn [beforeNull]. by rewrite N. Qed.

Lemma messageBlocks_sum (blocks : list json) (t : Z) :
  forallb textIsString blocks = true ->
  messageBlocks blocks (Chars t) =
  (if existsb isNull blocks then Throw else Normal (Chars (t + sumLengths (messageTexts blocks))),
   Chars (t + sumLengths (messageTexts blocks))).
Proof.
  revert t. induction blocks as [|block rest IH]; intros t Hok.
  - cbn. do 2 f_equal; f_equal; lia.
  - cbn [forallb] in Hok. apply andb_true_iff in Hok as [Hb Hrest].
    cbn [messageBlocks existsb].
    destruct (isNull block) eqn:N.
    + destruct block; try done. cbn. do 2 f_equal. lia.
    + rewrite prop_not_null by done. rewrite add_text, add_content by done.
      rewrite IH by done. rewrite messageTexts_cons by done.
      rewrite !sumLengths_app. cbn [orb]. by rewrite !Z.add_assoc.
Qed.

Lemma resultBlocks_sum (blocks : list json) (t : Z) :
  forallb textIsString blocks = true ->
  (resultBlocks blocks (Chars t)).2 = Chars (t + sumLengths (resultTexts blocks)).
Proof.
  revert t. induction blocks as [|block rest IH]; intros t Hok.
  - cbn. f_equal; lia.
  - cbn [forallb] in Hok. apply andb_true_iff in Hok as [Hb Hrest].
    cbn [resultBlocks].
    destruct (isNull block) eqn:N.
    + destruct block; try done. cbn. f_equal. lia.
    + rewrite prop_not_null by done. rewrite add_text by done.
      rewrite IH by done. rewrite resultTexts_cons by done.
      rewrite !sumLengths_app. by rewrite !Z.add_assoc.
Qed.

Lemma countResult_sum (r : value) (t : Z) :
  blocksOk r = true -> countResult r (Chars t) = Chars (t + sumLengths (resultPart r)).
Proof.
  unfold countResult, blocksOk, resultPart.
  destruct r as [[|b|d|s|blocks|f]|]; cbn [truthy]; intros H;
    try (destruct b); try (destruct (num_truthy d)); try (cbn; f_equal; lia).
  - destruct s; cbn; f_equal; lia.
  - by apply resultBlocks_sum.
Qed.

Lemma countRecord_not_null (obj : json) (total : count) :
  isNull obj = false ->
  let m := optProp (optProp (Some obj) "message") "content" in
  let r := optProp (optProp (Some obj) "result") "content" in
  (countRecord obj total).2 =
  if truthy m then
    match m with
    | Some (JStr s) => countResult r (addLength total (JStr s))
    | Some (JArr blocks) =>
        match messageBlocks blocks total with
        | (Throw, t) => t
        | (Normal _, t) => countResult r t
        end
    | _ => countResult r total
    end
  else countResult r total.
Proof.
  intros N. unfold countRecord. rewrite prop_not_null by done.
  cbv zeta. unfold countResult.
  destruct (optProp (optProp (Some obj) "message") "content") as [[|b|d|s|blocks|f]|];
    cbn [truthy]; try (destruct b); try (destruct (num_truthy d));
    try (destruct (isEmpty s)); cbn [negb];
    try (destruct (messageBlocks blocks total) as [[?|] ?]);
    cbn [fst snd];
    destruct (truthy (optProp (optProp (Some obj) "result") "content"));
    try done;
    by destruct (optProp (optProp (Some obj) "result") "content") as [[| | | | |]|].
Qed.

(** On a record whose [text] fields hold strings, the [try] body adds the
    lengths of the texts listed for the record. *)
Lemma countRecord_sum (obj : json) (t : Z) :
  textsAreStrings obj = true ->
  (countRecord obj (Chars t)).2 = Chars (t + sumLengths (recordTexts obj)).
Proof.
  intros Hok. destruct (isNull obj) eqn:N.
  { destruct obj; try done. cbn. f_equal. lia. }
  rewrite countRecord_not_null by done. cbv zeta.
  unfold textsAreStrings in Hok. apply andb_true_iff in Hok as [Hm Hr].
  unfold recordTexts. cbv zeta.
  set (r := optProp (optProp (Some obj) "result") "content") in *.
  fold (resultPart r).
  destruct (optProp (optProp (Some obj) "message") "content") as [[|b|d|s|blocks|f]|];
    cbn [truthy]; try (destruct b); try (destruct (num_truthy d));
    try (by apply countResult_sum).
  - destruct s as [|c s]; cbn [isEmpty negb].
    + rewrite countResult_sum by done. cbn. f_equal.
    + cbn [addLength lengthOf]. rewrite countResult_sum by done.
      f_equal. cbn [sumLengths foldr]. unfold sumLengths. lia.
  - rewrite messageBlocks_sum by done.
    destruct (existsb isNull blocks).
    + by rewrite app_nil_r.
    + rewrite countResult_sum by done. rewrite sumLengths_app. by rewrite Z.add_assoc.
Qed.

Section WithParser.
Variable JSON_parse : string -> option json.

Lemma countLine_sum (line : string) (t : Z) :
  lineOk JSON_parse line = true ->
  countLine JSON_parse (Chars t) line = Chars (t + lineChars JSON_parse line).
Proof.
  unfold lineOk, countLine, lineChars.
  destruct (isEmpty (trim line)); [intros _; f_equal; lia|].
  destruct (JSON_parse line) as [obj|]; [|intros _; f_equal; lia].
  apply countRecord_sum.
Qed.

Lemma foldl_countLine (lines : list string) (t : Z) :
  forallb (lineOk JSON_parse) lines = true ->
  foldl (countLine JSON_parse) (Chars t) lines = Chars (t + sumLines JSON_parse lines).
Proof.
  revert t. induction lines as [|line lines IH]; intros t Hok; simpl in *.
  - f_equal. lia.
  - apply andb_true_iff in Hok as [H1 H2].
    rewrite countLine_sum by done. rewrite IH by done. f_equal. lia.
Qed.

Lemma sumLines_nonneg (lines : list string) : 0 <= sumLines JSON_parse lines.
Proof.
  induction lines as [|line lines IH]; simpl; [done|].
  assert (0 <= lineChars JSON_parse line); [|lia].
  unfold lineChars. destruct (isEmpty _); [done|].
  destruct (JSON_parse line); [apply sumLengths_nonneg|done].
Qed.

(** A line that is blank or does not parse leaves the total as it was and
    the scan goes on with the next line. *)
Lemma countLine_skip (line : string) (total : count) :
  isEmpty (trim line) = true \/ JSON_parse line = None ->
  countLine JSON_parse total line = total.
Proof.
  unfold countLine. intros [->| ->]; [done|]. by destruct (isEmpty (trim line)).
Qed.

End WithParser.

Lemma roundDiv37_nearest (n : Z) :
  -37 < 2 * (37 * roundDiv37 n - 10 * n) <= 37.
Proof.
  unfold roundDiv37.
  pose proof (Z.div_mod (20 * n + 37) 74 ltac:(lia)) as E.
  pose proof (Z.mod_pos_bound (20 * n + 37) 74 ltac:(lia)) as B.
  lia.
Qed.




(** The loop over the blocks of a tool result never looks at their
    [content] fields: on blocks whose [text] fields hold strings it adds the
    lengths of the [text] fields alone. *)
Lemma resultBlocks_text_only (blocks : list json) (t : Z) :
  forallb textIsString blocks = true ->
  (resultBlocks blocks (Chars t)).2 =
  Chars (t + sumLengths
              (concat (List.map (fun block => textOf (optProp (Some block) "text"))
                         (beforeNull blocks)))).
Proof. apply resultBlocks_sum. Qed.

(** C7 (the code departs from it): on a tool result given as two blocks, 10
    characters in a [text] field and 360 in a [content] field, the estimator
    counts the 10 characters only and returns 3; on the same blocks as
    message content it counts all 370 and returns 100. *)
Theorem result_block_content_not_counted :
  totalChars sample_parse_blocks sample_result_line = Chars 10 /\
  estimateSessionTokens sample_parse_blocks
    (projects_with "abc123" sample_result_line) "abc123" = Estimated 3 /\
  totalChars sample_parse_blocks sample_message_line = Chars 370 /\
  estimateSessionTokens sample_parse_blocks
    (projects_with "abc123" sample_message_line) "abc123" = Estimated 100.
Proof. split_and!; vm_compute; reflexivity. Qed.

End TokenEstimatorFacts.

(** ** The token estimator: where the text comes from *)

Module TokenEstimatorLaws.
Import JsString Json TokenEstimator TokenEstimatorFacts TokenEstimatorSamples.

(** X19: [findTranscriptPath] reads the transcript from the first project
    directory, in the order [readdir] lists them, that holds a file named
    after the session; it finds nothing exactly when the projects root cannot
    be listed or no directory listed holds such a file. *)
Theorem transcript_from_first_directory (fs : Projects) (sessionId : string) :
  let filename := sessionId +:+ ".jsonl" in
  match findTranscriptPath fs sessionId with
  | Some text =>
      exists pre dir post,
        readdir fs = Some (pre ++ dir :: post) /\
        file fs dir filename = Some text /\
        Forall (fun d => file fs d filename = None) pre
  | None =>
      readdir fs = None \/
      exists dirs, readdir fs = Some dirs /\ Forall (fun d => file fs d filename = None) dirs
  end.
Proof.
  intros filename. unfold findTranscriptPath. fold filename.
  destruct (readdir fs) as [dirs|]; [|by left].
  induction dirs as [|d dirs IH]; simpl.
  - right. by exists [].
  - destruct (file fs d filename) as [text|] eqn:E.
    + exists [], d, dirs. by split_and!.
    + destruct ((fix search (l : list string) : option (completion string) := _) dirs) as [text|].
      * destruct IH as (pre & dir & post & [= ->] & Hf & Hpre).
        exists (d :: pre), dir, post. split_and!; [done|done|by constructor].
      * destruct IH as [?|(dirs' & [= <-] & Hall)]; [done|].
        right. exists (d :: dirs). split; [done|by constructor].
Qed.

(** *** Records cut short *)

Lemma messageBlocks_null (pre post : list json) (t : Z) :
  forallb textIsString pre = true -> existsb isNull pre = false ->
  messageBlocks (pre ++ JNull :: post) (Chars t) =
  (Throw, Chars (t + sumLengths (messageTexts pre))).
Proof.
  revert t. induction pre as [|b pre IH]; intros t Hs Hn.
  - simpl. unfold messageTexts. simpl. by rewrite Z.add_0_r.
  - simpl in Hs, Hn. apply andb_true_iff in Hs as [Hb Hs].
    apply orb_false_iff in Hn as [Hb' Hn].
    cbn [app messageBlocks]. rewrite (prop_not_null b "text" Hb').
    rewrite (add_text b t Hb), add_content, (IH _ Hs Hn).
    rewrite (messageTexts_cons b pre Hb'), !sumLengths_app. f_equal. f_equal. lia.
Qed.

Section WithParser.
Variable JSON_parse : string -> option json.


End WithParser.


End TokenEstimatorLaws.

(** ** The rotation policy *)

Module RotationFacts.
Import JsString JsStringFacts Json SessionRegistry SessionRegistryFacts Runner.

Lemma archiveGroup_neq (g : string) (t : Z) : archiveGroup g t <> g.
Proof. unfold archiveGroup. apply app_neq_self. done. Qed.

Lemma groups_insert_same (l : list SessionEntry) (i : nat) (e e' : SessionEntry) :
  l !! i = Some e -> group e' = group e ->
  group <$> <[i := e']> l = group <$> l.
Proof.
  intros Hi Hg. rewrite list_fmap_insert, Hg.
  apply list_insert_id. by rewrite list_lookup_fmap, Hi.
Qed.

Section WithEstimator.
Variable estimateSessionTokens : string -> num.
Variable settings : Settings.

Lemma checkAndRotate_found (clock : Clock) (g : string) (reg : Registry)
    (i : nat) (e : SessionEntry) :
  findGroup g reg = Some (i, e) ->
  let tokens := estimateSessionTokens (sessionId e) in
  let kept := set_contentTokens tokens (set_lastUsedAt (t_check clock) e) in
  checkAndRotate estimateSessionTokens settings clock g reg =
  mkRegistry (<[i :=
    if numLt tokens (rotationThreshold settings) then kept
    else set_group (archiveGroup g (t_rotate clock))
           (set_summary ("Auto-rotated at " +:+ numText tokens +:+ " tokens") kept)]>
    (sessions reg)).
Proof.
  intros F tokens kept.
  pose proof (findGroup_Some _ _ _ _ F) as (Hi & Hg & _).
  assert (Hlen : (i < length (sessions reg))%nat) by by eapply lookup_lt_Some.
  unfold checkAndRotate, getSessionForGroup. rewrite F. cbn [sessionId set_lastUsedAt].
  fold tokens.
  set (reg1 := mkRegistry (<[i := set_lastUsedAt (t_check clock) e]> (sessions reg))).
  assert (F1 : findGroup g reg1 = Some (i, set_lastUsedAt (t_check clock) e))
    by by eapply findGroup_insert_same.
  unfold updateTokenCount. rewrite F1.
  set (reg2 := mkRegistry (<[i := set_contentTokens tokens (set_lastUsedAt (t_check clock) e)]>
                              (sessions reg1))).
  assert (F2 : findGroup g reg2 = Some (i, kept)).
  { eapply findGroup_insert_same; done. }
  destruct (numLt tokens (rotationThreshold settings)).
  - unfold reg2, reg1. simpl. by rewrite list_insert_insert_eq.
  - unfold rotateSession. rewrite F2. cbn [snd].
    rewrite bool_decide_eq_false_2 by (by destruct tokens).
    unfold reg2, reg1. simpl. by rewrite !list_insert_insert_eq.
Qed.

(** The threshold is the one configured, 120000 when none is. *)
Lemma rotationThreshold_configured :
  rotationThreshold settings =
  match sessionRotation settings with
  | Some (mkRotation (Some t)) => t
  | _ => 120000
  end.
Proof. unfold rotationThreshold. by destruct (sessionRotation settings) as [[[t|]]|]. Qed.

(** [tokens < limit] fails for an estimate at or above the limit, and for
    [NaN]. *)
Lemma numLt_false (tokens : num) (limit : Z) :
  numLt tokens limit = false <-> tokens = NaN \/ exists n, tokens = Whole n /\ limit <= n.
Proof.
  destruct tokens as [n|]; simpl.
  - rewrite Z.ltb_ge. split; [intros H; right; by exists n|].
    intros [?|(m & [= <-] & ?)]; done.
  - split; [by left|done].
Qed.

(** C3, as the code has it: [checkAndRotate] returns at once, changing
    nothing, when the group has no entry; when it has one, the entry is
    archived if and only if the fresh estimate for its session is not below
    the threshold, which is the configured one and 120000 when none is
    configured: that is, when the estimate is at or above the threshold or
    is [NaN].  Below the threshold no group name changes and only the
    estimate is written back; otherwise the entry is renamed to the archival
    name, with the estimate in its summary. *)
Theorem rotation_unless_below_threshold (clock : Clock) (g : string) (reg : Registry) :
  let limit := match sessionRotation settings with
               | Some (mkRotation (Some t)) => t
               | _ => 120000
               end in
  (findGroup g reg = None ->
   checkAndRotate estimateSessionTokens settings clock g reg = reg) /\
  (forall i e,
      findGroup g reg = Some (i, e) ->
      let tokens := estimateSessionTokens (sessionId e) in
      let reg' := checkAndRotate estimateSessionTokens settings clock g reg in
      ((exists e', sessions reg' !! i = Some e' /\
                   group e' = archiveGroup g (t_rotate clock) /\
                   sessionId e' = sessionId e)
       <-> tokens = NaN \/ exists n, tokens = Whole n /\ limit <= n) /\
      ((exists n, tokens = Whole n /\ n < limit) ->
       group <$> sessions reg' = group <$> sessions reg /\
       exists e', findGroup g reg' = Some (i, e') /\
                  sessionId e' = sessionId e /\ contentTokens e' = tokens) /\
      (tokens = NaN \/ (exists n, tokens = Whole n /\ limit <= n) ->
       (exists e', sessions reg' !! i = Some e' /\
                   contentTokens e' = tokens /\
                   summary e' = Some ("Auto-rotated at " +:+ numText tokens +:+ " tokens")) /\
       (forall j, j <> i -> sessions reg' !! j = sessions reg !! j) /\
       ((forall j y, j <> i -> sessions reg !! j = Some y -> group y <> g) ->
        findGroup g reg' = None))).
Proof.
  intros limit. split.
  - intros F. unfold checkAndRotate, getSessionForGroup. by rewrite F.
  - intros i e F tokens reg'.
    pose proof (findGroup_Some _ _ _ _ F) as (Hi & Hg & _).
    assert (Hlen : (i < length (sessions reg))%nat) by by eapply lookup_lt_Some.
    pose proof (checkAndRotate_found clock g reg i e F) as E. cbv zeta in E.
    rewrite rotationThreshold_configured in E.
    fold tokens in E. fold reg' in E. fold limit in E.
    pose proof (numLt_false tokens limit) as Hfalse.
    destruct (numLt tokens limit) eqn:Hlt.
    + assert (Hne : ~ (tokens = NaN \/ exists n, tokens = Whole n /\ limit <= n)).
      { intros H. by apply Hfalse in H. }
      split_and!.
      * split; [|done]. intros (e' & He' & Hg' & _). rewrite E in He'. simpl in He'.
        rewrite list_lookup_insert_eq in He' by done. simplify_eq. simpl in Hg'.
        symmetry in Hg'. by apply archiveGroup_neq in Hg'.
      * intros _. rewrite E. simpl. split.
        -- by eapply groups_insert_same.
        -- eexists. split; [by eapply findGroup_insert_same|done].
      * done.
    + assert (Hyes : tokens = NaN \/ exists n, tokens = Whole n /\ limit <= n)
        by by apply Hfalse.
      split_and!.
      * split; [done|]. intros _. eexists. rewrite E. simpl.
        rewrite list_lookup_insert_eq by done. done.
      * intros (n & Hn & Hlow). rewrite Hn in Hlt. simpl in Hlt.
        apply Z.ltb_ge in Hlt. lia.
      * intros _. split_and!.
        -- eexists. rewrite E. simpl. rewrite list_lookup_insert_eq by done. done.
        -- intros j Hj. rewrite E. simpl. by rewrite list_lookup_insert_ne.
        -- intros Huniq. unfold findGroup. apply list_find_None, Forall_lookup.
           intros j y Hj. rewrite E in Hj. simpl in Hj.
           destruct (decide (j = i)) as [->|Hne].
           ++ rewrite list_lookup_insert_eq in Hj by done. simplify_eq. simpl.
              apply archiveGroup_neq.
           ++ rewrite list_lookup_insert_ne in Hj by done. eauto.
Qed.

End WithEstimator.

(** With a threshold of 50000 configured, an estimate of 60000 tokens, below
    the default, archives the session. *)
Lemma rotation_unless_below_threshold_witness :
  exists e',
    sessions (checkAndRotate sample_estimate_60000 sample_rotation sample_clock "ops"
                sample_registry) !! 1%nat = Some e' /\
    group e' = archiveGroup "ops" 1767225600000 /\
    sessionId e' = "s-1".
Proof.
  destruct (rotation_unless_below_threshold sample_estimate_60000 sample_rotation
              sample_clock "ops" sample_registry) as (_ & H).
  destruct (H 1%nat (mkEntry "s-1" "ops" "t" "t" 130000 None)) as (Hiff & _).
  - reflexivity.
  - apply Hiff. right. exists 60000. split; [reflexivity|]. vm_compute. discriminate.
Defined.

(** C3 as the specification words it fails where the estimate is [NaN]: the
    session of group ops is archived, and [NaN] is not at or above the
    threshold. *)
Lemma rotation_at_NaN :
  ~ ((exists e',
        sessions (checkAndRotate sample_estimate_NaN sample_settings sample_clock "ops"
                    sample_registry) !! 1%nat = Some e' /\
        group e' = archiveGroup "ops" 1767225600000 /\
        sessionId e' = "s-1")
     <-> numGe (sample_estimate_NaN "s-1") 120000 = true).
Proof.
  intros [H _]. assert (E : numGe (sample_estimate_NaN "s-1") 120000 = true).
  { apply H. eexists. split_and!; reflexivity. }
  discriminate E.
Qed.

End RotationFacts.

(** ** The rate-limit signature *)

Module RateLimitFacts.
Import JsString JsStringFacts Runner.

Lemma white_fold (c : ascii) : isWhite c = true -> foldChar c = c.
Proof. destruct c as [[] [] [] [] [] [] [] []]; vm_compute; congruence. Qed.

Lemma lastKept_tail (a : ascii) (p : string) : lastKept (String a p) = true -> lastKept p = true.
Proof. destruct p; simpl; auto. Qed.

Lemma prefix_nil_r (p : string) : p <> "" -> String.prefix p "" = false.
Proof. by destruct p. Qed.

Lemma prefix_trimEnd (s p : string) :
  lastKept p = true ->
  String.prefix p (foldCase (trimEnd s)) = String.prefix p (foldCase s).
Proof.
  revert p. induction s as [|c r IH]; intros p Hp; [done|].
  destruct p as [|a p']; [by destruct (trimEnd (String c r))|].
  pose proof (lastKept_tail _ _ Hp) as Hp'.
  cbn [trimEnd]. destruct (isWhite c && isEmpty (trimEnd r)) eqn:E.
  - apply andb_true_iff in E as [Hc Hr].
    cbn [foldCase String.prefix]. rewrite (white_fold c Hc).
    destruct (ascii_dec a c) as [->|]; [|done].
    destruct p' as [|b p'']; [simpl in Hp; by rewrite Hc in Hp|].
    rewrite <- IH by done. destruct (trimEnd r); done.
  - cbn [foldCase String.prefix].
    destruct (ascii_dec a (foldChar c)); [by apply IH|done].
Qed.

Lemma includes_trimEnd (s p : string) :
  lastKept p = true -> p <> "" ->
  includes (foldCase (trimEnd s)) p = includes (foldCase s) p.
Proof.
  intros Hp Hne. induction s as [|c r IH]; [done|].
  assert (Hpre := prefix_trimEnd (String c r) p Hp).
  cbn [trimEnd] in *. destruct (isWhite c && isEmpty (trimEnd r)) eqn:E.
  - apply andb_true_iff in E as [Hc Hr].
    cbn [foldCase includes] in *. rewrite <- Hpre, <- IH.
    destruct (trimEnd r); [|done]. cbn [foldCase includes].
    by rewrite prefix_nil_r.
  - cbn [foldCase includes] in *. by rewrite Hpre, IH.
Qed.

Lemma includes_trimStart (s : string) (a : ascii) (p : string) :
  isWhite a = false ->
  includes (foldCase (trimStart s)) (String a p) = includes (foldCase s) (String a p).
Proof.
  intros Ha. induction s as [|c r IH]; [done|].
  cbn [trimStart]. destruct (isWhite c) eqn:Hc; [|done].
  rewrite IH. cbn [foldCase includes String.prefix]. rewrite (white_fold c Hc).
  destruct (ascii_dec a c) as [->|]; [congruence|done].
Qed.

(** Trimming does not change whether the signature occurs. *)
Lemma test_trim (s : string) : RATE_LIMIT_PATTERN_test (trim s) = RATE_LIMIT_PATTERN_test s.
Proof.
  unfold RATE_LIMIT_PATTERN_test, trim.
  rewrite includes_trimEnd by done. by apply includes_trimStart.
Qed.

Lemma test_nonempty (s : string) : RATE_LIMIT_PATTERN_test s = true -> isEmpty s = false.
Proof. by destruct s. Qed.

Lemma extract_Some (out err m : string) :
  extractRateLimitMessage out err = Some m <->
  (RATE_LIMIT_PATTERN_test out = true /\ m = trim out) \/
  (RATE_LIMIT_PATTERN_test out = false /\ RATE_LIMIT_PATTERN_test err = true /\ m = trim err).
Proof.
  unfold extractRateLimitMessage. rewrite !test_trim.
  destruct (RATE_LIMIT_PATTERN_test out) eqn:Eo.
  - rewrite (test_nonempty (trim out)) by by rewrite test_trim. simpl.
    split; [intros [= <-]; by left|intros [[_ ->]|[? _]]; done].
  - rewrite andb_false_r.
    destruct (RATE_LIMIT_PATTERN_test err) eqn:Ee.
    + rewrite (test_nonempty (trim err)) by by rewrite test_trim. simpl.
      split; [intros [= <-]; by right|intros [[? _]|(_ & _ & ->)]; done].
    + rewrite andb_false_r. split; [done|intros [[? _]|(_ & ? & _)]; done].
Qed.

Lemma extract_None (out err : string) :
  extractRateLimitMessage out err = None <->
  RATE_LIMIT_PATTERN_test out = false /\ RATE_LIMIT_PATTERN_test err = false.
Proof.
  destruct (extractRateLimitMessage out err) as [m|] eqn:E.
  - apply extract_Some in E. split; [done|]. intros [??].
    destruct E as [[? _]|(_ & ? & _)]; congruence.
  - split; [|done]. intros _.
    destruct (RATE_LIMIT_PATTERN_test out) eqn:Eo.
    + assert (extractRateLimitMessage out err = Some (trim out)) by (apply extract_Some; auto).
      congruence.
    + destruct (RATE_LIMIT_PATTERN_test err) eqn:Ee; [|done].
      assert (extractRateLimitMessage out err = Some (trim err)) by (apply extract_Some; auto).
      congruence.
Qed.

Lemma extract_message_matches (out err m : string) :
  extractRateLimitMessage out err = Some m -> RATE_LIMIT_PATTERN_test m = true.
Proof.
  intros H. apply extract_Some in H as [[? ->]|(_ & ? & ->)]; by rewrite test_trim.
Qed.

End RateLimitFacts.

(** ** The runner: messages, model configurations and arguments *)

Module RunnerLaws.
Import JsString JsStringFacts Json SessionRegistry Runner RateLimitFacts Invocation.

(** X11: [extractRateLimitMessage] looks for the words "you've hit your
    limit", in any mix of upper and lower case, anywhere in the standard output
    and then in the standard error.  It returns the first of the two that has
    them, trimmed, so the standard output takes precedence; and null exactly
    when neither has them. *)
Theorem rate_limit_message_spec (out err : string) :
  (forall s, RATE_LIMIT_PATTERN_test s = true <->
             exists a b, foldCase s = a +:+ "you've hit your limit" +:+ b) /\
  match extractRateLimitMessage out err with
  | Some m =>
      RATE_LIMIT_PATTERN_test m = true /\ m <> "" /\
      ((RATE_LIMIT_PATTERN_test out = true /\ m = trim out) \/
       (RATE_LIMIT_PATTERN_test out = false /\ RATE_LIMIT_PATTERN_test err = true /\
        m = trim err))
  | None => RATE_LIMIT_PATTERN_test out = false /\ RATE_LIMIT_PATTERN_test err = false
  end.
Proof.
  split.
  - intros s. unfold RATE_LIMIT_PATTERN_test. apply includes_spec.
  - destruct (extractRateLimitMessage out err) as [m|] eqn:E.
    + pose proof (extract_message_matches _ _ _ E) as Hm.
      split_and!; [done| |by apply extract_Some].
      apply test_nonempty in Hm. by destruct m.
    + by apply extract_None.
Qed.

(** *** Model configurations *)

Lemma toLowerCase_empty (s : string) : toLowerCase s = "" -> s = "".
Proof. by destruct s. Qed.

Lemma isEmpty_true (s : string) : isEmpty s = true <-> s = "".
Proof. by destruct s. Qed.

(** X12: [sameModelConfig] is an equivalence of model configurations, and
    the configurations [hasModelConfig] rejects, those with nothing but white
    space in both fields, are one class of it: a blank configuration is the
    same as another one exactly when that one is blank too. *)
Theorem sameModelConfig_equivalence :
  (forall a, sameModelConfig a a = true) /\
  (forall a b, sameModelConfig a b = sameModelConfig b a) /\
  (forall a b c, sameModelConfig a b = true -> sameModelConfig b c = true ->
                 sameModelConfig a c = true) /\
  (forall a b, hasModelConfig a = false ->
               sameModelConfig a b = negb (hasModelConfig b)).
Proof.
  unfold sameModelConfig, hasModelConfig. split_and!.
  - intros a. by rewrite !bool_decide_eq_true_2.
  - intros a b. f_equal; apply bool_decide_ext; split; congruence.
  - intros a b c H1 H2.
    apply andb_true_iff in H1 as [?%bool_decide_eq_true ?%bool_decide_eq_true].
    apply andb_true_iff in H2 as [?%bool_decide_eq_true ?%bool_decide_eq_true].
    rewrite !bool_decide_eq_true_2; [done|congruence|congruence].
  - intros a b H. apply orb_false_iff in H as [Hm Ha].
    apply negb_false_iff, isEmpty_true in Hm, Ha. rewrite Hm, Ha. simpl.
    destruct (trim (model b)) as [|c s], (trim (api b)) as [|c' s']; simpl;
      repeat case_bool_decide; simplify_eq/=; done.
Qed.

(** *** The arguments of the CLI *)

Lemma eqb_neq_false (a b : string) : a <> b -> String.eqb a b = false.
Proof. intros H. by apply String.eqb_neq. Qed.

Lemma listIndexOf_app_l (x : string) (l r : list string) (i : nat) :
  listIndexOf x l = Some i -> listIndexOf x (l ++ r) = Some i.
Proof.
  revert i. induction l as [|y l IH]; intros i; simpl; [done|].
  destruct (String.eqb y x); [done|].
  destruct (listIndexOf x l) as [j|]; [|done]. by rewrite (IH j).
Qed.

Lemma listIndexOf_lt (x : string) (l : list string) (i : nat) :
  listIndexOf x l = Some i -> l !! i = Some x.
Proof.
  revert i. induction l as [|y l IH]; intros i; simpl; [done|].
  destruct (String.eqb y x) eqn:E.
  - intros [= <-]. apply String.eqb_eq in E. by subst.
  - destruct (listIndexOf x l) as [j|]; [|done]. intros [= <-]. by apply IH.
Qed.

(** [buildArgs] in two parts. *)
Lemma buildArgs_parts (settings : Settings) (files : Files) (prompt : string)
    (options : RunOptions) (existing : option string) :
  buildArgs settings files prompt options existing
  = argsAfterTools settings files options (argsUpToTools settings prompt options existing).
Proof. reflexivity. Qed.

(** The second part only appends. *)
Lemma argsAfterTools_tail (settings : Settings) (files : Files) (options : RunOptions)
    (args3 : list string) :
  exists tail, argsAfterTools settings files options args3 = args3 ++ tail.
Proof.
  unfold argsAfterTools.
  destruct (given (settingSources options)), (given (effort options)),
    (maxTurns options) as [n|]; try destruct (n =? 0);
    eexists; rewrite <- ?app_assoc; reflexivity.
Qed.

Lemma argsUpToTools_locked (settings : Settings) (prompt : string) (options : RunOptions)
    (existing : option string) (t : string) :
  level (security settings) = locked ->
  given (tools options) = Some t ->
  prompt <> "--tools" -> existing <> Some "--tools" ->
  joinWith " " (allowedTools (security settings)) <> "--tools" ->
  joinWith " " (disallowedTools (security settings)) <> "--tools" ->
  argsUpToTools settings prompt options existing
  = argsUpToTools (withLevel moderate settings) prompt options existing /\
  exists k, listIndexOf "--tools" (argsUpToTools settings prompt options existing) = Some k /\
            argsUpToTools settings prompt options existing !! S k = Some t.
Proof.
  intros Hlevel Htools Hprompt Hsid Hal Hdl.
  unfold argsUpToTools, buildSecurityArgs, withLevel.
  cbn [security level allowedTools disallowedTools].
  rewrite Hlevel, Htools.
  apply eqb_neq_false in Hprompt, Hal, Hdl.
  assert (Hs : match existing with
               | Some sid => String.eqb sid "--tools" = false
               | None => True
               end).
  { destruct existing as [sid|]; [|done]. apply eqb_neq_false. congruence. }
  clear Hsid Hlevel.
  destruct (allowedTools (security settings)) as [|a1 al];
    destruct (disallowedTools (security settings)) as [|d1 dl];
    try set (ja := joinWith " " (a1 :: al)) in *;
    try set (jd := joinWith " " (d1 :: dl)) in *;
    destruct existing as [sid|], (noSessionPersistence options);
    repeat (progress (simpl; rewrite ?Hprompt, ?Hs, ?Hal, ?Hdl));
    (split; [reflexivity|eexists; split; reflexivity]).
Qed.

(** X13: the tools a job asks for replace the tools of the security level.
    With [options.tools] given, the level locked yields the very command line
    the level moderate yields: the pair [--tools Read,Grep,Glob] of the level
    is cut out and the first [--tools] of the command line is the job's own, so
    a job can widen what the locked level allows.  The prompt, the session
    resumed and the joined tool lists are taken not to be the text "--tools"
    itself, which [indexOf] would find first. *)
Theorem job_tools_replace_locked_tools (settings : Settings) (files : Files)
    (prompt : string) (options : RunOptions) (existing : option string) (t : string) :
  level (security settings) = locked ->
  given (tools options) = Some t ->
  prompt <> "--tools" -> existing <> Some "--tools" ->
  joinWith " " (allowedTools (security settings)) <> "--tools" ->
  joinWith " " (disallowedTools (security settings)) <> "--tools" ->
  let args := buildArgs settings files prompt options existing in
  args = buildArgs (withLevel moderate settings) files prompt options existing /\
  exists k, listIndexOf "--tools" args = Some k /\ args !! S k = Some t.
Proof.
  intros Hlevel Htools Hprompt Hsid Hal Hdl args.
  destruct (argsUpToTools_locked settings prompt options existing t)
    as (E & k & Hk & Ht); try done.
  unfold args. rewrite !buildArgs_parts. split.
  - rewrite <- E. unfold argsAfterTools.
    change (level (security (withLevel moderate settings))) with moderate.
    by rewrite Hlevel.
  - destruct (argsAfterTools_tail settings files options
                (argsUpToTools settings prompt options existing)) as [tail ->].
    exists k. split; [by apply listIndexOf_app_l|].
    rewrite lookup_app_l; [done|]. by eapply lookup_lt_Some.
Qed.

Lemma job_tools_replace_locked_tools_witness :
  buildArgs sample_locked sample_files "hello" sample_tools_options None
  = ["claude"; "-p"; "hello"; "--output-format"; "json"; "--dangerously-skip-permissions";
     "--allowedTools"; "Read"; "--disallowedTools"; "Bash WebFetch";
     "--tools"; "Read,Bash,Skill"; "--append-system-prompt";
     "You are running inside ClaudeClaw." +:+ blankLine +:+ "Stay inside the project."].
Proof.
  destruct (job_tools_replace_locked_tools sample_locked sample_files "hello"
              sample_tools_options None "Read,Bash,Skill") as [E _]; try done.
Defined.

End RunnerLaws.

(** ** The invocation *)

Module InvocationFacts.
Import JsString JsStringFacts Json SessionRegistry SessionRegistryFacts RegistryLaws
       Sessions Runner RotationFacts RateLimitFacts.

Lemma given_Some (o : option string) (g : string) :
  given o = Some g -> o = Some g /\ isEmpty g = false.
Proof.
  unfold given. destruct o as [s|]; [|done].
  destruct (isEmpty s) eqn:E; [done|]. by intros [= ->].
Qed.

Section WithEnvironment.
Variable estimateSessionTokens : string -> num.
Variable JSON_parse : string -> option json.
Variable spawn : list string -> string -> string -> ProcessResult.
Variable settings : Settings.
Variable files : Files.

(** With no entry for the group, the preparation finds nothing to rotate
    and nothing to resume, and leaves the registry alone. *)
Lemma prepare_no_entry (clock : Clock) (options : RunOptions) (reg : Registry) (g : string) :
  given (sessionGroup options) = Some g ->
  noSessionPersistence options = false ->
  findGroup g reg = None ->
  prepare estimateSessionTokens settings clock options reg = (None, reg) /\
  truthyGroup options = true /\ groupOf options = g.
Proof.
  intros Hg Hp F. pose proof (given_Some _ _ Hg) as [Hs _].
  unfold prepare, truthyGroup, groupOf. rewrite Hp, Hg, Hs.
  unfold checkAndRotate, getSessionForGroup. rewrite F. cbn. by rewrite F.
Qed.

Lemma runs_cases (args : list string) (options : RunOptions) :
  let primary := runClaudeOnce spawn args (model (primaryConfig settings options))
                   (api (primaryConfig settings options)) in
  let again := runClaudeOnce spawn args (model (fallbackConfig settings))
                 (api (fallbackConfig settings)) in
  runs spawn settings args options =
  if retries settings options primary then [primary; again] else [primary].
Proof. done. Qed.

(** The preparation creates no session: it looks up, records and renames. *)
Lemma checkAndRotate_ids (clock : Clock) (g : string) (reg : Registry) :
  sessionId <$> sessions (checkAndRotate estimateSessionTokens settings clock g reg)
  = sessionId <$> sessions reg.
Proof.
  destruct (findGroup g reg) as [[i e]|] eqn:F.
  - rewrite (checkAndRotate_found estimateSessionTokens settings clock g reg i e F).
    destruct (findGroup_lookup _ _ _ _ F) as [Hi _]. simpl.
    apply (fmap_insert_same _ _ _ e); [done|].
    by destruct (numLt _ _).
  - unfold checkAndRotate, getSessionForGroup. by rewrite F.
Qed.

Lemma getSessionForGroup_ids (now g : string) (reg : Registry) :
  sessionId <$> sessions (getSessionForGroup now g reg).2 = sessionId <$> sessions reg.
Proof. apply (step_identity (OpGet now g) reg eq_refl). Qed.

Lemma prepare_ids (clock : Clock) (options : RunOptions) (reg : Registry) :
  sessionId <$> sessions (prepare estimateSessionTokens settings clock options reg).2
  = sessionId <$> sessions reg.
Proof.
  unfold prepare. destruct (noSessionPersistence options); [done|].
  destruct (truthyGroup options).
  - pose proof (getSessionForGroup_ids (t_get clock) (groupOf options)
                  (checkAndRotate estimateSessionTokens settings clock (groupOf options) reg))
      as H.
    destruct (getSessionForGroup _ _ _) as [entry reg2]. cbn [snd] in *.
    by rewrite H, checkAndRotate_ids.
  - unfold getSession.
    pose proof (getSessionForGroup_ids (t_get clock) "default" reg) as H.
    by destruct (getSessionForGroup _ _ _) as [entry reg2].
Qed.

(** C4: a persistent grouped invocation that starts with no entry for its
    group, whose final run exits with code 0 and shows no rate-limit
    signature, parses the structured output; when that carries a string
    [session_id] the registry gets an entry for the group with that session
    and zero content tokens, which [getSessionForGroup] then returns, and the
    [result] text is the output; when parsing throws, the invocation still
    returns, with the raw output, and the registry is untouched. *)
Theorem new_session_creates_entry (clock : Clock) (name prompt : string)
    (options : RunOptions) (reg : Registry) (g : string) :
  given (sessionGroup options) = Some g ->
  noSessionPersistence options = false ->
  findGroup g reg = None ->
  let args := buildArgs settings files prompt options None in
  let exec := List.last (runs spawn settings args options) (mkProcessResult "" "" 1) in
  extractRateLimitMessage (rawStdout exec) (proc_stderr exec) = None ->
  proc_exitCode exec = 0 ->
  let outcome := execClaude estimateSessionTokens JSON_parse spawn settings files
                   clock name prompt options reg in
  (forall json sid,
      JSON_parse (rawStdout exec) = Some json ->
      optProp (Some json) "session_id" = Some (JStr sid) ->
      readString (optProp (Some json) "result") <> OtherType ->
      exists result usedFallback reg',
        outcome = Returned result usedFallback reg' /\
        exitCode result = 0 /\
        stdout result = match optProp (Some json) "result" with
                        | Some (JStr text) => text
                        | _ => ""
                        end /\
        reg' = (createSessionForGroup (t_created clock) (t_used clock) g sid reg).2 /\
        length (sessions reg') = S (length (sessions reg)) /\
        forall now, exists e,
          (getSessionForGroup now g reg').1 = Some e /\
          sessionId e = sid /\ group e = g /\ contentTokens e = 0) /\
  (JSON_parse (rawStdout exec) = None ->
   exists usedFallback,
     outcome = Returned (mkRunResult (rawStdout exec) (proc_stderr exec) 0) usedFallback reg).
Proof.
  intros Hg Hp F args exec Hrl Hexit outcome.
  destruct (prepare_no_entry clock options reg g Hg Hp F) as (Hprep & Htg & Hgo).
  assert (Hout : outcome =
            finish JSON_parse options true exec clock
              (1 <? length (runs spawn settings args options))%nat reg).
  { unfold outcome, execClaude. rewrite Hprep. done. }
  split.
  - intros json sid Hparse Hsid Hres.
    assert (Hprop : prop json "session_id" = Normal (Some (JStr sid))).
    { destruct json; try done. simpl in *. by rewrite Hsid. }
    exists (mkRunResult (match optProp (Some json) "result" with
                         | Some (JStr text) => text
                         | _ => ""
                         end) (proc_stderr exec) 0),
           (1 <? length (runs spawn settings args options))%nat,
           (createSessionForGroup (t_created clock) (t_used clock) g sid reg).2.
    split.
    { rewrite Hout. unfold finish, store. rewrite Hrl, Hexit, Hparse, Hprop.
      cbn [andb Z.eqb readString]. rewrite Htg, Hgo.
      destruct (optProp (Some json) "result") as [[| | |s| |]|]; done. }
    cbn [exitCode stdout].
    split_and!; try done.
    + unfold createSessionForGroup. rewrite F. simpl. rewrite length_app. simpl. lia.
    + intros now.
      destruct (create_found (t_created clock) (t_used clock) g sid reg)
        as (i & e & Fe & Hs & Hc).
      exists (set_lastUsedAt now e). split; [by eapply get_found|].
      apply findGroup_Some in Fe as (_ & He & _). done.
  - intros Hparse. eexists. rewrite Hout. unfold finish.
    rewrite Hrl, Hexit, Hparse. cbn. by rewrite <- Hexit.
Qed.


End WithEnvironment.

Lemma new_session_creates_entry_witness :
  exists result usedFallback reg',
    execClaude sample_estimate sample_JSON_parse sample_spawn sample_settings sample_files
      sample_clock "job1" "hello" sample_options sample_start =
    Returned result usedFallback reg' /\
    stdout result = "hello back" /\
    forall now, exists e,
      (getSessionForGroup now "ops" reg').1 = Some e /\
      sessionId e = "abc123" /\ contentTokens e = 0.
Proof.
  destruct (new_session_creates_entry sample_estimate sample_JSON_parse sample_spawn
              sample_settings sample_files sample_clock "job1" "hello" sample_options
              sample_start "ops") as [H _].
  - reflexivity.
  - reflexivity.
  - reflexivity.
  - vm_compute. reflexivity.
  - vm_compute. reflexivity.
  - destruct (H (JObj [("session_id", JStr "abc123"); ("result", JStr "hello back")])
                "abc123") as (result & usedFallback & reg' & Hout & _ & Hstd & _ & _ & Hget).
    + vm_compute. reflexivity.
    + reflexivity.
    + discriminate.
    + exists result, usedFallback, reg'. split; [exact Hout|]. split; [exact Hstd|].
      intros now. destruct (Hget now) as (e & He & Hs & _ & Hc). eauto.
Defined.


End InvocationFacts.

(** ** Invocations and the sessions they leave *)

Module InvocationLaws.
Import JsString JsStringFacts Json SessionRegistry SessionRegistryFacts RegistryLaws
       Sessions SessionsFacts Runner RateLimitFacts Invocation InvocationFacts.

Section WithEnvironment.
Variable estimateSessionTokens : string -> num.
Variable JSON_parse : string -> option json.
Variable spawn : list string -> string -> string -> ProcessResult.
Variable settings : Settings.
Variable files : Files.

#[local] Abbreviation prepare := (prepare estimateSessionTokens settings).
#[local] Abbreviation execClaude := (execClaude estimateSessionTokens JSON_parse spawn settings files).
#[local] Abbreviation lastRun := (lastRun estimateSessionTokens spawn settings files).
#[local] Abbreviation argsOf := (argsOf estimateSessionTokens settings files).
#[local] Abbreviation finish := (finish JSON_parse).
#[local] Abbreviation bootstrap := (bootstrap estimateSessionTokens JSON_parse spawn settings files).

Lemma execClaude_parts (clock : Clock) (name prompt : string) (options : RunOptions)
    (reg : Registry) :
  execClaude clock name prompt options reg =
  finish options (match (prepare clock options reg).1 with None => true | Some _ => false end)
    (lastRun clock prompt options reg) clock
    (1 <? length (runs spawn settings (argsOf clock prompt options reg) options))%nat
    (prepare clock options reg).2.
Proof.
  unfold Runner.execClaude, Invocation.lastRun, Invocation.argsOf.
  by destruct (prepare clock options reg).
Qed.

(** What [store] gives: the entry of the group, the entry of the group
    default, or nothing new. *)
Lemma store_cases (options : RunOptions) (clock : Clock) (session_id : value)
    (reg reg' : Registry) :
  store options clock session_id reg = Some reg' ->
  (exists sid,
      session_id = Some (JStr sid) /\
      reg' = if truthyGroup options then
               (createSessionForGroup (t_created clock) (t_used clock)
                  (groupOf options) sid reg).2
             else createSession (t_created clock) (t_used clock) sid reg) \/
  (truthyGroup options = false /\ noSessionPersistence options = true /\ reg' = reg).
Proof.
  unfold store. destruct (truthyGroup options).
  - destruct session_id as [[]|]; cbn [readString]; try done.
    intros [= <-]. left. by eexists.
  - destruct (noSessionPersistence options); cbn [negb].
    + intros [= <-]. by right.
    + destruct session_id as [[]|]; cbn [readString]; try done.
      intros [= <-]. left. by eexists.
Qed.

(** What [finish] can do to the registry: nothing, or store the session of
    a first run that went through. *)
Lemma finish_registry (options : RunOptions) (isNew : bool) (exec : ProcessResult)
    (clock : Clock) (usedFallback : bool) (reg : Registry) :
  match finish options isNew exec clock usedFallback reg with
  | Returned r f reg' =>
      f = usedFallback /\ stderr r = proc_stderr exec /\ exitCode r = proc_exitCode exec /\
      ((reg' = reg /\
        stdout r = match extractRateLimitMessage (rawStdout exec) (proc_stderr exec) with
                   | Some m => m
                   | None => rawStdout exec
                   end) \/
       (isNew = true /\ proc_exitCode exec = 0 /\
        extractRateLimitMessage (rawStdout exec) (proc_stderr exec) = None /\
        exists json session_id,
          JSON_parse (rawStdout exec) = Some json /\
          prop json "session_id" = Normal session_id /\
          store options clock session_id reg = Some reg'))
  | OutsideTypes stored =>
      isNew = true /\ proc_exitCode exec = 0 /\
      extractRateLimitMessage (rawStdout exec) (proc_stderr exec) = None /\
      exists json session_id,
        JSON_parse (rawStdout exec) = Some json /\
        prop json "session_id" = Normal session_id /\
        store options clock session_id reg = stored
  end.
Proof.
  unfold Runner.finish.
  destruct (extractRateLimitMessage _ _) as [m|] eqn:E; [by split_and!; [..|left]|].
  destruct isNew; [|by split_and!; [..|left]].
  destruct (proc_exitCode exec =? 0) eqn:Ec; [|by split_and!; [..|left]].
  apply Z.eqb_eq in Ec. cbn [andb].
  destruct (JSON_parse (rawStdout exec)) as [json|] eqn:Ej; [|by split_and!; [..|left]].
  destruct (prop json "session_id") as [v|] eqn:Ep; [|by split_and!; [..|left]].
  destruct (readString (optProp (Some json) "result"));
    destruct (store options clock v reg) as [reg'|] eqn:Es;
    try (split_and!; [done..|right; split_and!; [done..|by eexists _, _]]);
    (split_and!; [done..|by eexists _, _]).
Qed.

(** X14: a run with [noSessionPersistence] reads no session: nothing is
    rotated, looked up or resumed, and the CLI is started as for a new
    session.  Without a session group it leaves the registry exactly as it
    was, whatever the CLI returns.  With a session group as well it still
    writes: a first run that exits with code 0, shows no rate-limit message
    and prints JSON with a string [session_id] stores that session as the
    entry of the group, where the next lookup of the group finds it. *)
Theorem stateless_run_reads_no_session (clock : Clock) (name prompt : string)
    (options : RunOptions) (reg : Registry) :
  noSessionPersistence options = true ->
  prepare clock options reg = (None, reg) /\
  argsOf clock prompt options reg = buildArgs settings files prompt options None /\
  (truthyGroup options = false ->
   match execClaude clock name prompt options reg with
   | Returned r f reg' => reg' = reg
   | OutsideTypes reg' => reg' = Some reg
   end) /\
  (forall g json sid,
      given (sessionGroup options) = Some g ->
      let exec := lastRun clock prompt options reg in
      proc_exitCode exec = 0 ->
      extractRateLimitMessage (rawStdout exec) (proc_stderr exec) = None ->
      JSON_parse (rawStdout exec) = Some json ->
      optProp (Some json) "session_id" = Some (JStr sid) ->
      let stored := (createSessionForGroup (t_created clock) (t_used clock) g sid reg).2 in
      match execClaude clock name prompt options reg with
      | Returned r f reg' => reg' = stored
      | OutsideTypes reg' => reg' = Some stored
      end /\
      forall now, exists e,
        (getSessionForGroup now g stored).1 = Some e /\ sessionId e = sid /\ group e = g).
Proof.
  intros Hn.
  assert (Hp : prepare clock options reg = (None, reg)).
  { unfold Runner.prepare. by rewrite Hn. }
  split_and!; [done|unfold Invocation.argsOf; by rewrite Hp|..].
  - intros Hg. rewrite execClaude_parts, Hp. cbn [fst snd].
    pose proof (finish_registry options true (lastRun clock prompt options reg) clock
                  (1 <? length (runs spawn settings (argsOf clock prompt options reg) options))%nat
                  reg) as H.
    assert (Hs : forall v, store options clock v reg = Some reg).
    { intros v. unfold store. by rewrite Hg, Hn. }
    destruct (finish _ _ _ _ _ _) as [r f reg'|stored].
    + destruct H as (_ & _ & _ & [[-> _]|(_ & _ & _ & json & v & _ & _ & Hst)]); [done|].
      rewrite Hs in Hst. by injection Hst.
    + destruct H as (_ & _ & _ & json & v & _ & _ & <-). apply Hs.
  - intros g json sid Hg exec Hexit Hrl Hparse Hsid stored.
    destruct (given_Some _ _ Hg) as [Hsg _].
    assert (Htg : truthyGroup options = true) by (unfold truthyGroup; by rewrite Hg).
    assert (Hgo : groupOf options = g) by (unfold groupOf; by rewrite Hsg).
    assert (Hprop : prop json "session_id" = Normal (Some (JStr sid))).
    { destruct json; try done. simpl in *. by rewrite Hsid. }
    split.
    + rewrite execClaude_parts, Hp. cbn [fst snd]. fold exec.
      unfold Runner.finish, store. rewrite Hrl, Hexit, Hparse, Hprop, Htg, Hgo.
      cbn [andb Z.eqb readString].
      by destruct (readString (optProp (Some json) "result")).
    + intros now.
      destruct (create_found (t_created clock) (t_used clock) g sid reg)
        as (i & e & Fe & Hs & Hc).
      exists (set_lastUsedAt now e). split; [by eapply get_found|].
      apply findGroup_Some in Fe as (_ & He & _). done.
Qed.

Lemma getSession_groups (now : string) (reg : Registry) :
  group <$> sessions (getSession now reg).2 = group <$> sessions reg /\
  (forall g, g <> "default" -> findGroup g (getSession now reg).2 = findGroup g reg) /\
  ((getSession now reg).1 = None -> findGroup "default" reg = None /\ (getSession now reg).2 = reg).
Proof.
  unfold getSession, getSessionForGroup.
  destruct (findGroup "default" reg) as [[i e]|] eqn:F; cbn [fst snd]; [|done].
  destruct (findGroup_lookup _ _ _ _ F) as [Hi Hg]. split_and!; [|  |done].
  - simpl. by apply (fmap_insert_same _ _ _ e).
  - intros g Hne. unfold findGroup. simpl.
    apply (list_find_insert_other _ _ _ e); simpl; congruence.
Qed.

(** X15: a persistent run without a session group works on the entry of
    the group default and never rotates it: [checkAndRotate] is not called, so
    whatever the CLI returns no entry is archived, the entries of the other
    groups are found as before, and the only entry that can appear is one for
    default, when a first run stores its session. *)
Theorem ungrouped_run_never_rotates (clock : Clock) (name prompt : string)
    (options : RunOptions) (reg : Registry) :
  noSessionPersistence options = false -> truthyGroup options = false ->
  prepare clock options reg = getSession (t_get clock) reg /\
  let kept := fun reg' : Registry =>
    (forall g, g <> "default" -> findGroup g reg' = findGroup g reg) /\
    (group <$> sessions reg' = group <$> sessions reg \/
     (findGroup "default" reg = None /\
      group <$> sessions reg' = (group <$> sessions reg) ++ ["default"] /\
      exists sid, (getSession (t_get clock) reg').1 = Some sid)) in
  match execClaude clock name prompt options reg with
  | Returned r f reg' => kept reg'
  | OutsideTypes (Some reg') => kept reg'
  | OutsideTypes None => True
  end.
Proof.
  intros Hn Hg.
  assert (Hp : prepare clock options reg = getSession (t_get clock) reg).
  { unfold Runner.prepare. by rewrite Hn, Hg. }
  split; [done|]. intros kept. rewrite execClaude_parts, Hp.
  destruct (getSession_groups (t_get clock) reg) as (Hgr & Hiso & Hnone).
  set (reg1 := (getSession (t_get clock) reg).2) in *.
  assert (Hkept1 : kept reg1) by (split; [done|by left]).
  assert (Hstore : forall v reg',
            (getSession (t_get clock) reg).1 = None ->
            store options clock v reg1 = Some reg' -> kept reg').
  { intros v reg' E1 Hst.
    apply store_cases in Hst as [(sid & _ & ->)|(_ & Hn' & _)]; [|congruence].
    rewrite Hg. destruct (Hnone E1) as [F Ereg]. unfold reg1 in *. rewrite Ereg in *.
    unfold createSession, createSessionForGroup. rewrite F. cbn [snd sessions].
    split.
    - intros g Hne. unfold findGroup. simpl. apply list_find_snoc_other. simpl. congruence.
    - right. split_and!; [done|simpl; by rewrite fmap_app|].
      exists sid.
      pose proof (getSession_createSession (t_created clock) (t_used clock)
                    (t_get clock) sid reg) as Hc.
      unfold createSession, createSessionForGroup in Hc. rewrite F in Hc. exact Hc. }
  pose proof (finish_registry options
                (match (getSession (t_get clock) reg).1 with None => true | Some _ => false end)
                (lastRun clock prompt options reg) clock
                (1 <? length (runs spawn settings (argsOf clock prompt options reg) options))%nat
                reg1) as H.
  destruct (finish _ _ _ _ _ _) as [r f reg'|[reg'|]]; [| |done].
  - destruct H as (_ & _ & _ & [[-> _]|(Hnew & _ & _ & json & v & _ & _ & Hst)]); [done|].
    apply (Hstore v); [|done]. by destruct ((getSession (t_get clock) reg).1).
  - destruct H as (Hnew & _ & _ & json & v & _ & _ & Hst).
    apply (Hstore v); [|done]. by destruct ((getSession (t_get clock) reg).1).
Qed.

(** X16: a session is stored only by a first run that goes through.  When
    the run resumes a session, exits with another code than 0, shows the
    rate-limit message or prints something [JSON.parse] rejects, [execClaude]
    returns what the CLI gave: the exit code and the standard error as they
    are, the standard output or in its place the rate-limit message; and the
    registry is the one the preparation left, with no entry added or
    replaced. *)
Theorem only_a_first_success_stores (clock : Clock) (name prompt : string)
    (options : RunOptions) (reg : Registry) :
  let prepared := prepare clock options reg in
  let exec := lastRun clock prompt options reg in
  prepared.1 <> None \/ proc_exitCode exec <> 0 \/
  extractRateLimitMessage (rawStdout exec) (proc_stderr exec) <> None \/
  JSON_parse (rawStdout exec) = None ->
  execClaude clock name prompt options reg =
  Returned
    (mkRunResult
       (match extractRateLimitMessage (rawStdout exec) (proc_stderr exec) with
        | Some m => m
        | None => rawStdout exec
        end)
       (proc_stderr exec) (proc_exitCode exec))
    (1 <? length (runs spawn settings (argsOf clock prompt options reg) options))%nat
    prepared.2.
Proof.
  intros prepared exec H. rewrite execClaude_parts. fold prepared exec.
  unfold Runner.finish.
  destruct (extractRateLimitMessage _ _) as [m|] eqn:E; [done|].
  destruct H as [H|[H|[H|H]]]; [| |done|].
  - by destruct (prepared.1).
  - apply Z.eqb_neq in H. rewrite H. by rewrite andb_false_r.
  - rewrite H. by destruct (_ && _).
Qed.

(** X17: [bootstrap] starts a session once.  With a session for the group
    default it runs nothing and only stamps that entry; without one it runs
    the CLI on the wake-up prompt with no options, and when that run stores a
    session the next [bootstrap] finds it and runs nothing, while a run that
    stores none leaves the next [bootstrap] to try again. *)
Theorem bootstrap_starts_once (now : string) (clock : Clock) (reg : Registry) :
  (is_Some (findGroup "default" reg) ->
   bootstrap now clock reg = AlreadyLive (getSession now reg).2 /\
   sessionId <$> sessions (getSession now reg).2 = sessionId <$> sessions reg) /\
  (findGroup "default" reg = None ->
   bootstrap now clock reg =
     Ran (execClaude clock "bootstrap" "Wakeup, my friend!" noOptions reg) /\
   forall r f reg',
     execClaude clock "bootstrap" "Wakeup, my friend!" noOptions reg = Returned r f reg' ->
     forall now' clock',
       (reg' = reg /\
        bootstrap now' clock' reg' =
          Ran (execClaude clock' "bootstrap" "Wakeup, my friend!" noOptions reg)) \/
       (exists sid, (getSession now' reg').1 = Some sid /\
                    bootstrap now' clock' reg' = AlreadyLive (getSession now' reg').2)).
Proof.
  split.
  - intros [[i e] F]. unfold Invocation.bootstrap, getSession, getSessionForGroup.
    rewrite F. cbn [fst snd]. split; [done|].
    destruct (findGroup_lookup _ _ _ _ F) as [Hi _]. simpl.
    by apply (fmap_insert_same _ _ _ e).
  - intros F.
    assert (Hb : forall n c, bootstrap n c reg =
                   Ran (execClaude c "bootstrap" "Wakeup, my friend!" noOptions reg)).
    { intros n c. unfold Invocation.bootstrap, getSession, getSessionForGroup. by rewrite F. }
    split; [apply Hb|]. intros r f reg' E now' clock'.
    rewrite execClaude_parts in E.
    pose proof (finish_registry noOptions
      (match (prepare clock noOptions reg).1 with None => true | Some _ => false end)
      (lastRun clock "Wakeup, my friend!" noOptions reg) clock
      (1 <? length (runs spawn settings
                      (argsOf clock "Wakeup, my friend!" noOptions reg) noOptions))%nat
      (prepare clock noOptions reg).2) as H.
    rewrite E in H.
    assert (Hp : (prepare clock noOptions reg).2 = reg).
    { unfold Runner.prepare, getSession, getSessionForGroup. simpl. by rewrite F. }
    rewrite Hp in H.
    destruct H as (_ & _ & _ & [[-> _]|(_ & _ & _ & json & v & _ & _ & Hst)]).
    + left. split; [done|apply Hb].
    + apply store_cases in Hst as [(sid & _ & ->)|(_ & Hn' & _)]; [|done].
      right. exists sid. cbn [truthyGroup noOptions sessionGroup given noSessionPersistence negb].
      pose proof (getSession_createSession (t_created clock) (t_used clock) now' sid reg) as Hs.
      split; [done|]. unfold Invocation.bootstrap.
      destruct (getSession now' (createSession (t_created clock) (t_used clock) sid reg))
        as [[s|] reg1]; [done|done].
Qed.

End WithEnvironment.

(** A stateless run for the group ops, on a registry that holds a session
    for it: the session the CLI starts takes its place. *)
Lemma stateless_run_reads_no_session_witness :
  match Runner.execClaude sample_estimate sample_JSON_parse sample_fresh_spawn
          sample_settings sample_files sample_clock "job" "hello" sample_stateless_ops
          sample_registry with
  | Returned r f reg' =>
      reg' = (createSessionForGroup (t_created sample_clock) (t_used sample_clock)
                "ops" "abc123" sample_registry).2
  | OutsideTypes reg' =>
      reg' = Some (createSessionForGroup (t_created sample_clock) (t_used sample_clock)
                     "ops" "abc123" sample_registry).2
  end.
Proof.
  destruct (stateless_run_reads_no_session sample_estimate sample_JSON_parse
              sample_fresh_spawn sample_settings sample_files sample_clock "job" "hello"
              sample_stateless_ops sample_registry eq_refl) as (_ & _ & _ & H).
  exact (proj1 (H "ops" (JObj [("session_id", JStr "abc123"); ("result", JStr "hello back")])
                  "abc123" eq_refl eq_refl eq_refl eq_refl eq_refl)).
Defined.

Lemma ungrouped_run_never_rotates_witness :
  Runner.prepare sample_estimate sample_settings sample_clock noOptions sample_registry
  = getSession (t_get sample_clock) sample_registry.
Proof.
  exact (proj1 (ungrouped_run_never_rotates sample_estimate sample_JSON_parse sample_spawn
                  sample_settings sample_files sample_clock "job" "hello" noOptions
                  sample_registry eq_refl eq_refl)).
Defined.

Lemma only_a_first_success_stores_witness :
  Runner.execClaude sample_estimate sample_JSON_parse sample_spawn sample_locked
    sample_files sample_clock "job1" "hello" sample_options sample_start
  = Returned (mkRunResult "You've hit your limit - resets 3pm" "" 1) false
      sample_start.
Proof.
  rewrite (only_a_first_success_stores sample_estimate sample_JSON_parse sample_spawn
             sample_locked sample_files sample_clock "job1" "hello" sample_options
             sample_start).
  - reflexivity.
  - right. left. by vm_compute.
Defined.

Lemma bootstrap_starts_once_witness :
  Invocation.bootstrap sample_estimate sample_JSON_parse sample_fresh_spawn sample_settings
    sample_files "t9" sample_clock Sessions.sample_default_registry
  = AlreadyLive (getSession "t9" Sessions.sample_default_registry).2.
Proof.
  destruct (bootstrap_starts_once sample_estimate sample_JSON_parse sample_fresh_spawn
              sample_settings sample_files "t9" sample_clock Sessions.sample_default_registry)
    as [H _].
  destruct H as [H _]; [by eexists|exact H].
Defined.

End InvocationLaws.

(** ** The reply-route map *)

Module ReplyRouteFacts.
Import JsString Json Router.

Lemma length_sliceLast (n : nat) (l : list (Z * string)) :
  (length (sliceLast n l) <= n)%nat.
Proof. unfold sliceLast. rewrite length_skipn. lia. Qed.

Lemma mapSet_fresh (k : Z) (v : string) (m : MessageMap) :
  k ∉ keys m -> mapSet k v m = m ++ [(k, v)].
Proof.
  unfold keys. induction m as [|[k' v'] m IH]; intros Hk; simpl; [done|].
  rewrite fmap_cons, not_elem_of_cons in Hk. destruct Hk as [Hne Hk]. simpl in Hne.
  destruct (Z.eqb_spec k' k); [congruence|]. by rewrite IH.
Qed.

Lemma keys_mapSet_present (k : Z) (v : string) (m : MessageMap) :
  k ∈ keys m -> keys (mapSet k v m) = keys m.
Proof.
  unfold keys. induction m as [|[k' v'] m IH]; intros Hk; simpl.
  - by apply elem_of_nil in Hk.
  - destruct (Z.eqb_spec k' k); [done|]. rewrite !fmap_cons. f_equal. apply IH.
    rewrite fmap_cons, elem_of_cons in Hk. destruct Hk; simpl in *; [congruence|done].
Qed.

Lemma length_mapSet (k : Z) (v : string) (m : MessageMap) :
  (length (mapSet k v m) <= S (length m))%nat.
Proof.
  induction m as [|[k' v'] m IH]; simpl; [lia|].
  destruct (k' =? k); simpl; lia.
Qed.

Lemma NoDup_mapSet (k : Z) (v : string) (m : MessageMap) :
  NoDup (keys m) -> NoDup (keys (mapSet k v m)).
Proof.
  intros Hm. destruct (decide (k ∈ keys m)) as [Hin|Hout].
  - by rewrite keys_mapSet_present.
  - rewrite mapSet_fresh by done. unfold keys in *. rewrite fmap_app. simpl.
    apply NoDup_app. split_and!; [done| |apply NoDup_singleton].
    intros x Hx Hx'. apply list_elem_of_singleton in Hx'. by subst.
Qed.

Lemma foldl_mapSet_NoDup (acc : MessageMap) (l : list (Z * string)) :
  NoDup (keys acc) -> NoDup (keys (foldl (fun m kv => mapSet kv.1 kv.2 m) acc l)).
Proof.
  revert acc. induction l as [|[k v] l IH]; intros acc H; simpl; [done|].
  by apply IH, NoDup_mapSet.
Qed.

Lemma newMap_NoDup (l : list (Z * string)) : NoDup (keys (newMap l)).
Proof. apply foldl_mapSet_NoDup. constructor. Qed.

Lemma foldl_mapSet_length (acc : MessageMap) (l : list (Z * string)) :
  (length (foldl (fun m kv => mapSet kv.1 kv.2 m) acc l) <= length acc + length l)%nat.
Proof.
  revert acc. induction l as [|[k v] l IH]; intros acc; simpl; [lia|].
  specialize (IH (mapSet k v acc)). pose proof (length_mapSet k v acc). lia.
Qed.

Lemma length_newMap (l : list (Z * string)) : (length (newMap l) <= length l)%nat.
Proof. apply (foldl_mapSet_length [] l). Qed.

Lemma foldl_mapSet_id (acc : MessageMap) (l : list (Z * string)) :
  NoDup (keys (acc ++ l)) -> foldl (fun m kv => mapSet kv.1 kv.2 m) acc l = acc ++ l.
Proof.
  revert acc. induction l as [|[k v] l IH]; intros acc H; simpl.
  - by rewrite app_nil_r.
  - assert (Hk : k ∉ keys acc).
    { unfold keys in *. rewrite fmap_app in H. apply NoDup_app in H as (_ & Hd & _).
      intros Hin. apply (Hd k Hin). simpl. left. }
    rewrite mapSet_fresh by done. rewrite IH; rewrite <- app_assoc; done.
Qed.

(** Building a map from the entries of a map gives the same entries. *)
Lemma newMap_id (l : list (Z * string)) : NoDup (keys l) -> newMap l = l.
Proof. intros H. by apply (foldl_mapSet_id [] l). Qed.

Lemma NoDup_sliceLast (n : nat) (l : list (Z * string)) :
  NoDup (keys l) -> NoDup (keys (sliceLast n l)).
Proof.
  unfold sliceLast, keys. intros H.
  rewrite <- (take_drop (length l - n) l), fmap_app in H.
  by apply NoDup_app in H as (_ & _ & H).
Qed.

Lemma loadMap_NoDup (st : RouterState) :
  NoDup (keys (messageSessionMap st)) -> NoDup (keys (messageSessionMap (loadMap st))).
Proof.
  intros H. unfold loadMap. destruct (mapLoaded st); [done|].
  destruct (mapFile st); simpl; [done|constructor|apply newMap_NoDup].
Qed.

(** C9: after [recordMessageSession] the map holds at most 500 entries, in the
    state that very call returns, and the file holds the same entries; what
    is kept is the last 500 entries of the map as written, in insertion
    order, so that the entries dropped are the oldest ones. *)
Theorem reply_route_bounded (botMessageId : Z) (group : string) (st : RouterState) :
  let st' := recordMessageSession botMessageId group st in
  let written := mapSet botMessageId group (messageSessionMap (loadMap st)) in
  MAX_ENTRIES = 500%nat /\
  (length (messageSessionMap st') <= MAX_ENTRIES)%nat /\
  NoDup (keys (messageSessionMap st')) /\
  (NoDup (keys (messageSessionMap st)) ->
   messageSessionMap st' = sliceLast MAX_ENTRIES written /\
   mapFile st' = Stored (messageSessionMap st') /\
   written = take (length written - MAX_ENTRIES) written ++ messageSessionMap st' /\
   length (messageSessionMap st') = Nat.min (length written) MAX_ENTRIES).
Proof.
  intros st' written. split_and!.
  - done.
  - unfold st', recordMessageSession, saveMap. cbn [messageSessionMap].
    etrans; [apply length_newMap|apply length_sliceLast].
  - apply newMap_NoDup.
  - intros Hnd.
    assert (Hw : NoDup (keys written)) by by apply NoDup_mapSet, loadMap_NoDup.
    assert (E : messageSessionMap st' = sliceLast MAX_ENTRIES written).
    { unfold st', recordMessageSession, saveMap. cbn [messageSessionMap].
      by apply newMap_id, NoDup_sliceLast. }
    split_and!.
    + done.
    + unfold st', recordMessageSession, saveMap. cbn [messageSessionMap mapFile].
      f_equal. symmetry. by apply newMap_id, NoDup_sliceLast.
    + rewrite E. unfold sliceLast. by rewrite take_drop.
    + rewrite E. unfold sliceLast. rewrite length_skipn. lia.
Qed.

Lemma reply_route_bounded_witness :
  messageSessionMap (recordMessageSession 501 "secretary" sample_router_state) =
  sliceLast MAX_ENTRIES (mapSet 501 "secretary" sample_full_map).
Proof.
  destruct (reply_route_bounded 501 "secretary" sample_router_state) as (_ & _ & _ & H).
  destruct H as (E & _).
  - apply (bool_decide_unpack _). vm_compute. reflexivity.
  - exact E.
Defined.

End ReplyRouteFacts.

(** ** Reply routes: what is found again *)

Module ReplyRouteLaws.
Import JsString Json Router ReplyRouteFacts.

Lemma mapGet_mapSet_same (k : Z) (v : string) (m : MessageMap) :
  mapGet k (mapSet k v m) = Some v.
Proof.
  induction m as [|[k0 v0] m IH]; simpl.
  - by rewrite Z.eqb_refl.
  - destruct (k0 =? k) eqn:E; simpl; by rewrite E.
Qed.

Lemma mapGet_mapSet_other (k k' : Z) (v : string) (m : MessageMap) :
  k' <> k -> mapGet k' (mapSet k v m) = mapGet k' m.
Proof.
  intros Hne. induction m as [|[k0 v0] m IH]; simpl.
  - by rewrite (proj2 (Z.eqb_neq k k')).
  - destruct (k0 =? k) eqn:E; simpl.
    + apply Z.eqb_eq in E. subst k0. by rewrite (proj2 (Z.eqb_neq k k')).
    + by rewrite IH.
Qed.

Lemma mapGet_None (k : Z) (m : MessageMap) : mapGet k m = None <-> k ∉ keys m.
Proof.
  induction m as [|[k0 v0] m IH]; simpl.
  - split; [intros _ H; by apply elem_of_nil in H|done].
  - unfold keys in *. cbn [fmap list_fmap fst]. rewrite not_elem_of_cons.
    destruct (k0 =? k) eqn:E.
    + apply Z.eqb_eq in E. split; [done|]. intros [? _]. congruence.
    + apply Z.eqb_neq in E. rewrite IH. split; [|tauto]. intros ?. split; congruence.
Qed.

Lemma mapGet_app (k : Z) (l1 l2 : MessageMap) :
  mapGet k (l1 ++ l2) =
  match mapGet k l1 with Some v => Some v | None => mapGet k l2 end.
Proof.
  induction l1 as [|[k0 v0] l1 IH]; simpl; [done|]. by destruct (k0 =? k).
Qed.

Lemma length_mapSet_present (k : Z) (v : string) (m : MessageMap) :
  k ∈ keys m -> length (mapSet k v m) = length m.
Proof.
  intros H. apply (keys_mapSet_present k v) in H. unfold keys in H.
  by rewrite <- (length_fmap fst), H, length_fmap.
Qed.

Lemma loadMap_loaded (st : RouterState) : mapLoaded (loadMap st) = true.
Proof.
  unfold loadMap. destruct (mapLoaded st) eqn:E; [done|]. by destruct (mapFile st).
Qed.

(** The map a call of [recordMessageSession] leaves, and the state after it
    is one that has loaded its file. *)
Lemma record_map (id : Z) (g : string) (st : RouterState) :
  NoDup (keys (messageSessionMap st)) ->
  messageSessionMap (recordMessageSession id g st) =
    sliceLast MAX_ENTRIES (mapSet id g (messageSessionMap (loadMap st))) /\
  loadMap (recordMessageSession id g st) = recordMessageSession id g st.
Proof.
  intros Hnd. split.
  - unfold recordMessageSession, saveMap. cbn [messageSessionMap].
    by apply newMap_id, NoDup_sliceLast, NoDup_mapSet, loadMap_NoDup.
  - unfold loadMap at 1.
    assert (mapLoaded (recordMessageSession id g st) = true) as ->; [|done].
    unfold recordMessageSession, saveMap. cbn [mapLoaded]. apply loadMap_loaded.
Qed.

Lemma sliceLast_all (n : nat) (l : list (Z * string)) :
  (length l <= n)%nat -> sliceLast n l = l.
Proof.
  intros H. unfold sliceLast. by replace (length l - n)%nat with 0%nat by lia.
Qed.

(** X9: a reply route that has just been recorded is found: after
    [recordMessageSession(id, group)], [routeByReplyTo(id)] returns the
    group and leaves the state alone, as long as the map held 500 entries at
    most, as it does when only this module writes the file. *)
Theorem recorded_route_found (id : Z) (g : string) (st : RouterState) :
  NoDup (keys (messageSessionMap st)) ->
  (length (messageSessionMap (loadMap st)) <= MAX_ENTRIES)%nat ->
  let st' := recordMessageSession id g st in
  routeByReplyTo id st' = (Some g, st').
Proof.
  intros Hnd Hlen st'.
  destruct (record_map id g st Hnd) as [Em El]. fold st' in Em, El.
  unfold routeByReplyTo. rewrite El, Em. f_equal.
  set (m1 := messageSessionMap (loadMap st)) in *.
  assert (Hnd1 : NoDup (keys m1)) by by apply loadMap_NoDup.
  destruct (decide (id ∈ keys m1)) as [Hin|Hout].
  - rewrite sliceLast_all by (by rewrite length_mapSet_present).
    apply mapGet_mapSet_same.
  - rewrite mapSet_fresh by done. unfold sliceLast. rewrite length_app. simpl.
    destruct (decide (length m1 + 1 - MAX_ENTRIES = 0)%nat) as [->|Hpos].
    + rewrite drop_0, mapGet_app. apply mapGet_None in Hout. rewrite Hout. simpl.
      by rewrite Z.eqb_refl.
    + assert (length m1 + 1 - MAX_ENTRIES = 1)%nat as -> by lia.
      destruct m1 as [|[k0 v0] rest]; [simpl in *; unfold MAX_ENTRIES in *; lia|].
      rewrite <- app_comm_cons. cbn [drop]. rewrite drop_0, mapGet_app.
      assert (mapGet id rest = None) as ->.
      { apply mapGet_None. unfold keys in *. rewrite fmap_cons in Hout.
        by apply not_elem_of_cons in Hout as [_ ?]. }
      simpl. by rewrite Z.eqb_refl.
Qed.

Lemma recorded_route_found_witness :
  routeByReplyTo 501 (recordMessageSession 501 "secretary" sample_router_state)
  = (Some "secretary", recordMessageSession 501 "secretary" sample_router_state).
Proof.
  apply (recorded_route_found 501 "secretary" sample_router_state).
  - apply (bool_decide_unpack _). vm_compute. reflexivity.
  - vm_compute. lia.
Defined.

(** X10: recording a route leaves the other routes alone, except that a
    full map gives up its oldest entry for a new message: with fewer than 500
    entries, or for a message that already has a route (whose place in the
    order is then not renewed), every other message is routed as before; with
    500 entries and a new message the first entry of the map is dropped and
    no other. *)
Theorem other_routes_survive (id : Z) (g : string) (st : RouterState) :
  NoDup (keys (messageSessionMap st)) ->
  (length (messageSessionMap (loadMap st)) <= MAX_ENTRIES)%nat ->
  let m1 := messageSessionMap (loadMap st) in
  let st' := recordMessageSession id g st in
  (id ∈ keys m1 \/ (length m1 < MAX_ENTRIES)%nat ->
   (forall id', id' <> id -> (routeByReplyTo id' st').1 = mapGet id' m1) /\
   (id ∈ keys m1 -> keys (messageSessionMap st') = keys m1)) /\
  (id ∉ keys m1 -> length m1 = MAX_ENTRIES ->
   exists k0 v0 rest,
     m1 = (k0, v0) :: rest /\
     messageSessionMap st' = rest ++ [(id, g)] /\
     (routeByReplyTo k0 st').1 = None /\
     forall id', id' <> id -> id' <> k0 -> (routeByReplyTo id' st').1 = mapGet id' m1).
Proof.
  intros Hnd Hlen m1 st'.
  destruct (record_map id g st Hnd) as [Em El]. fold st' m1 in Em, El.
  assert (Hnd1 : NoDup (keys m1)) by by apply loadMap_NoDup.
  assert (Hroute : forall k, (routeByReplyTo k st').1 = mapGet k (messageSessionMap st')).
  { intros k. unfold routeByReplyTo. by rewrite El. }
  split.
  - intros Hcase.
    assert (Eall : messageSessionMap st' = mapSet id g m1).
    { rewrite Em. apply sliceLast_all.
      destruct (decide (id ∈ keys m1)) as [Hin|Hout].
      - by rewrite length_mapSet_present.
      - destruct Hcase as [?|Hlt]; [done|].
        rewrite mapSet_fresh, length_app by done. simpl. lia. }
    split.
    + intros id' Hne. rewrite Hroute, Eall. by apply mapGet_mapSet_other.
    + intros Hin. rewrite Eall. by apply keys_mapSet_present.
  - intros Hout Hfull.
    destruct m1 as [|[k0 v0] rest] eqn:E1; [by unfold MAX_ENTRIES in Hfull|].
    exists k0, v0, rest.
    assert (Ekeep : messageSessionMap st' = rest ++ [(id, g)]).
    { rewrite Em, mapSet_fresh by done. unfold sliceLast. rewrite length_app.
      replace (length ((k0, v0) :: rest) + length [(id, g)] - MAX_ENTRIES)%nat
        with 1%nat by (unfold MAX_ENTRIES in *; simpl in *; lia).
      rewrite <- app_comm_cons. cbn [drop]. by rewrite drop_0. }
    unfold keys in Hnd1, Hout. cbn [fmap list_fmap fst] in Hnd1, Hout.
    apply NoDup_cons in Hnd1 as [Hk0 Hndr].
    apply not_elem_of_cons in Hout as [Hne0 Houtr].
    split_and!; [done|done| |].
    + rewrite Hroute, Ekeep, mapGet_app.
      assert (mapGet k0 rest = None) as -> by by apply mapGet_None.
      simpl. by rewrite (proj2 (Z.eqb_neq id k0)).
    + intros id' Hne Hne'. rewrite Hroute, Ekeep, mapGet_app. simpl.
      rewrite (proj2 (Z.eqb_neq id id')) by done.
      rewrite (proj2 (Z.eqb_neq k0 id')) by done.
      by destruct (mapGet id' rest).
Qed.

Lemma other_routes_survive_witness :
  (routeByReplyTo 1 (recordMessageSession 501 "secretary" sample_router_state)).1 = None /\
  (routeByReplyTo 2 (recordMessageSession 501 "secretary" sample_router_state)).1
  = Some "general".
Proof.
  destruct (other_routes_survive 501 "secretary" sample_router_state) as [_ H].
  - apply (bool_decide_unpack _). vm_compute. reflexivity.
  - vm_compute. lia.
  - destruct H as (k0 & v0 & rest & E & _ & Hk0 & Hrest).
    + apply (bool_decide_unpack _). vm_compute. reflexivity.
    + reflexivity.
    + assert (k0 = 1) as -> by (vm_compute in E; congruence).
      split; [done|]. by rewrite Hrest.
Defined.

End ReplyRouteLaws.

(** ** The classifier *)

Module ClassifierFacts.
Import JsString Json Router.

Section WithEnvironment.
Variable JSON_parse : string -> option json.
Variable spawnClassifier : string -> Spawned.

Lemma classifyTry_secretary (prompt : string) (r : ClassifyResult) :
  classifyTry JSON_parse spawnClassifier prompt = Normal r ->
  category r = secretary ->
  classifiedSecretary JSON_parse spawnClassifier prompt.
Proof.
  unfold classifyTry, classifiedSecretary.
  destruct (spawnClassifier prompt) as [|stdout code]; [done|].
  destruct (Z.eqb_spec code 0) as [->|]; simpl; [|by intros [= <-]].
  destruct (JSON_parse stdout) as [parsed|] eqn:P; [|done].
  destruct (prop parsed "result") as [res|] eqn:R; [|done].
  destruct (matchCategoryObject _) as [jsonMatch|] eqn:M; [|by intros [= <-]].
  destruct (JSON_parse jsonMatch) as [classification|] eqn:C; [|done].
  destruct (prop classification "category") as [[[| | |c| |]|]|] eqn:K;
    try (by intros [= <-]).
  destruct (String.eqb_spec c "secretary") as [->|]; [|by intros [= <-]].
  intros _ _. by exists stdout, parsed, res, jsonMatch, classification.
Qed.

Lemma classifyTry_classified (prompt : string) :
  classifiedSecretary JSON_parse spawnClassifier prompt ->
  exists r, classifyTry JSON_parse spawnClassifier prompt = Normal r /\
            category r = secretary.
Proof.
  intros (stdout & parsed & res & jsonMatch & classification & S & P & R & M & C & K).
  unfold classifyTry. rewrite S. simpl. rewrite P, R, M, C, K. simpl. eauto.
Qed.


End WithEnvironment.


End ClassifierFacts.

(** ** The task list *)

Module TasksFacts.
Import JsString Tasks.

Lemma find_id_None (taskId : string) (tasks : list Task) :
  list_find (fun t => id t = taskId) tasks = None <-> taskId ∉ id <$> tasks.
Proof.
  rewrite list_find_None, Forall_forall, list_elem_of_fmap. split.
  - intros H (t & -> & Hin). by apply (H t).
  - intros H t Hin E. apply H. by exists t.
Qed.

Lemma find_id_Some (taskId : string) (tasks : list Task) (i : nat) (t : Task) :
  list_find (fun t => id t = taskId) tasks = Some (i, t) ->
  tasks !! i = Some t /\ id t = taskId /\
  tasks = take i tasks ++ t :: drop (S i) tasks /\
  Forall (fun x => id x <> taskId) (take i tasks).
Proof.
  intros (Hi & Hid & Hpre)%list_find_Some. split_and!; [done|done| |].
  - by rewrite take_drop_middle.
  - apply Forall_forall. intros x Hx. apply list_elem_of_lookup in Hx as [j Hj].
    pose proof (lookup_lt_Some _ _ _ Hj) as Hlt. rewrite length_take in Hlt.
    rewrite lookup_take_lt in Hj by lia. apply (Hpre j); [done|lia].
Qed.

Lemma length_sliceTo (n : nat) (s : string) : (String.length (sliceTo n s) <= n)%nat.
Proof.
  revert s. induction n as [|n IH]; intros [|c s]; simpl; try lia.
  specialize (IH s). lia.
Qed.

(** X21: [createTask] adds a pending task at the end of the list, whatever
    the file held (nothing, when it was missing or unreadable), under the
    first eight characters of the identifier drawn; and when no task had that
    short identifier yet, [updateTask] on it reaches the task just made. *)
Theorem created_task_is_listed (uuid : string) (now : Z) (description : string)
    (f : TasksFile) :
  let t := (createTask uuid now description f).1 in
  let f' := (createTask uuid now description f).2 in
  listTasks f' = listTasks f ++ [t] /\
  t = mkTask (sliceTo 8 uuid) description pending now None None /\
  (String.length (id t) <= 8)%nat /\
  (id t ∉ id <$> listTasks f ->
   forall now' patch,
     (updateTask now' (id t) patch f').1 = Some (applyPatch now' patch t)).
Proof.
  intros t f'. split_and!; [done|done| |].
  - apply length_sliceTo.
  - intros Hfresh now' patch. unfold updateTask, f'. cbn [createTask snd readTasks writeTasks].
    change (mkTask (sliceTo 8 uuid) description pending now None None) with t.
    assert (list_find (fun x => id x = id t) (readTasks f ++ [t])
            = Some (length (readTasks f), t)) as ->; [|done].
    apply list_find_Some. split_and!.
    + by rewrite lookup_app_r, Nat.sub_diag.
    + done.
    + intros j y Hj Hlt E. rewrite lookup_app_l in Hj by done.
      apply Hfresh. apply list_elem_of_fmap. exists y. split; [done|].
      by eapply list_elem_of_lookup_2.
Qed.

(** X22: [updateTask] changes the first task with the identifier and no
    other, and stamps it whenever it ends up finished: a task that is
    completed or failed after the patch gets the time of the update as its
    completion time, also when it was finished before and the patch does not
    touch its status; an unknown identifier gives null and writes nothing. *)
Theorem update_stamps_finished_tasks (now : Z) (taskId : string) (patch : Patch)
    (f : TasksFile) :
  match updateTask now taskId patch f with
  | (None, f') => f' = f /\ taskId ∉ id <$> listTasks f
  | (Some t', f') =>
      exists i t,
        listTasks f !! i = Some t /\ id t = taskId /\
        Forall (fun x => id x <> taskId) (take i (listTasks f)) /\
        listTasks f' = <[i := t']> (listTasks f) /\
        id t' = taskId /\ description t' = description t /\ createdAt t' = createdAt t /\
        status t' = default (status t) (patch_status patch) /\
        result t' = match patch_result patch with Some r => Some r | None => result t end /\
        completedAt t' = if isFinished (status t') then Some now else completedAt t
  end.
Proof.
  unfold updateTask, listTasks.
  destruct (list_find _ (readTasks f)) as [[i t]|] eqn:F.
  - destruct (find_id_Some _ _ _ _ F) as (Hi & Hid & _ & Hpre).
    exists i, t. by split_and!.
  - split; [done|]. by apply find_id_None.
Qed.

(** X23: [deleteTask] removes the first task with the identifier and only
    that one, keeping the order of the others; it answers false exactly when
    no task has the identifier, and then leaves the file as it is. *)
Theorem delete_removes_first_match (taskId : string) (f : TasksFile) :
  let ok := (deleteTask taskId f).1 in
  let f' := (deleteTask taskId f).2 in
  (ok = true <-> taskId ∈ id <$> listTasks f) /\
  (ok = false -> f' = f) /\
  (ok = true ->
   exists pre t post,
     listTasks f = pre ++ t :: post /\ id t = taskId /\
     Forall (fun x => id x <> taskId) pre /\
     listTasks f' = pre ++ post).
Proof.
  intros ok f'. unfold ok, f', deleteTask, listTasks.
  destruct (list_find _ (readTasks f)) as [[i t]|] eqn:F; cbn [fst snd].
  - destruct (find_id_Some _ _ _ _ F) as (Hi & Hid & Hsplit & Hpre).
    split_and!; [|done|].
    + split; [|done]. intros _. apply list_elem_of_fmap. exists t. split; [done|].
      by eapply list_elem_of_lookup_2.
    + intros _. exists (take i (readTasks f)), t, (drop (S i) (readTasks f)).
      split_and!; [done..|]. simpl. by rewrite delete_take_drop.
  - apply find_id_None in F. split_and!; [|done|done].
    split; [done|]. intros H. by destruct F.
Qed.

Lemma filter_length_same {A} (p : A -> bool) (l : list A) :
  length (List.filter p l) = length l -> List.filter p l = l.
Proof.
  induction l as [|a l IH]; simpl; [done|].
  destruct (p a); simpl.
  - intros [=]. by rewrite IH.
  - intros E. pose proof (List.filter_length_le p l). lia.
Qed.

Lemma filter_idem {A} (p : A -> bool) (l : list A) :
  List.filter p (List.filter p l) = List.filter p l.
Proof.
  induction l as [|a l IH]; simpl; [done|].
  destruct (p a) eqn:E; simpl; [by rewrite E, IH|done].
Qed.

(** X24: [cleanupOldTasks] drops the finished tasks whose completion time
    (or creation time, when they have none) lies [maxAge] or more in the past
    and nothing else: the tasks left are those the filter keeps, in their
    order; no task that is pending or in progress is ever dropped; the number
    returned is the number of tasks dropped; and a second cleanup at the same
    time drops nothing. *)
Theorem cleanup_drops_only_old_finished_tasks (maxAge now : Z) (f : TasksFile) :
  let removed := (cleanupOldTasks maxAge now f).1 in
  let f' := (cleanupOldTasks maxAge now f).2 in
  listTasks f' = List.filter (kept maxAge now) (listTasks f) /\
  removed = Z.of_nat (length (listTasks f)) - Z.of_nat (length (listTasks f')) /\
  0 <= removed /\
  (removed = 0 -> f' = f) /\
  (forall t, t ∈ listTasks f -> isFinished (status t) = false -> t ∈ listTasks f') /\
  (forall t, t ∈ listTasks f ->
     (t ∈ listTasks f' <->
      isFinished (status t) = false \/
      now < default (createdAt t) (completedAt t) + maxAge)) /\
  (cleanupOldTasks maxAge now f').1 = 0.
Proof.
  intros removed f'.
  set (tasks := readTasks f). set (keptTasks := List.filter (kept maxAge now) tasks).
  assert (Hle : (length keptTasks <= length tasks)%nat) by apply List.filter_length_le.
  assert (Hf' : listTasks f' = keptTasks).
  { unfold f', cleanupOldTasks, listTasks. fold tasks keptTasks. cbn [snd].
    destruct (0 <? _) eqn:E; [done|]. apply Z.ltb_ge in E.
    symmetry. apply filter_length_same. unfold keptTasks, tasks in *. lia. }
  assert (Hkept : forall t, kept maxAge now t = true <->
            isFinished (status t) = false \/
            now < default (createdAt t) (completedAt t) + maxAge).
  { intros t. unfold kept. destruct (isFinished (status t)); simpl.
    - rewrite Z.ltb_lt. destruct (completedAt t); simpl; split; [by right| |by right|];
        by intros [?|?].
    - split; [by left|done]. }
  assert (Hin : forall t, t ∈ keptTasks <-> t ∈ tasks /\ kept maxAge now t = true).
  { intros t. unfold keptTasks. by rewrite !list_elem_of_In, List.filter_In. }
  split_and!.
  - done.
  - rewrite Hf'. done.
  - unfold removed, cleanupOldTasks. cbn [fst]. fold tasks keptTasks. lia.
  - unfold removed, f', cleanupOldTasks. cbn [fst snd]. fold tasks keptTasks.
    intros ->. done.
  - intros t Ht Hopen. rewrite Hf'. apply Hin. split; [done|]. apply Hkept. by left.
  - intros t Ht. rewrite Hf', Hin, Hkept. tauto.
  - unfold cleanupOldTasks at 1. cbn [fst].
    change (readTasks f') with (listTasks f'). rewrite Hf'. unfold keptTasks.
    rewrite filter_idem. lia.
Qed.

End TasksFacts.

(** ** The classifier: what is cut out of the answer, and the prompt *)

Module ClassifierLaws.
Import JsString JsStringFacts JsStringLaws Json Router.

(** *** The pieces of the matcher *)

Lemma star_None (next : string -> option nat) (s : string) :
  star next s = None -> forall a r, s = a +:+ r -> next r = None.
Proof.
  revert next. induction s as [|c s IH]; intros next H a r E.
  - simpl in H. destruct a; unapp; [by subst|done].
  - simpl in H. destruct (star next s) as [n|] eqn:Es; [done|].
    destruct a as [|x a]; unapp; [by subst|].
    injection E as -> E. by apply (IH next Es a).
Qed.

Lemma star_Some (next : string -> option nat) (s : string) (n : nat) :
  star next s = Some n ->
  exists a r m, s = a +:+ r /\ next r = Some m /\ n = (String.length a + m)%nat /\
    forall a' r', s = a' +:+ r' -> (String.length a < String.length a')%nat ->
                  next r' = None.
Proof.
  revert n. induction s as [|c s IH]; intros n H.
  - simpl in H. exists "", "", n. split_and!; [done..|].
    intros a' r' E Hlt. destruct a'; unapp; simpl in *; [lia|done].
  - simpl in H. destruct (star next s) as [n'|] eqn:Es.
    + injection H as <-. destruct (IH n' eq_refl) as (a & r & m & -> & Hr & -> & Hg).
      exists (String c a), r, m. split_and!; [done..|].
      intros a' r' E Hlt. destruct a' as [|x a']; unapp; simpl in *; [lia|].
      injection E as -> E. apply (Hg a' r' E). lia.
    + exists "", (String c s), n. split_and!; [done..|].
      intros a' r' E Hlt. destruct a' as [|x a']; unapp; simpl in *; [lia|].
      injection E as -> E. by apply (star_None next s Es a').
Qed.

Lemma literal_Some (word : string) (next : string -> option nat) (s : string) (n : nat) :
  literal word next s = Some n ->
  exists r m, s = word +:+ r /\ next r = Some m /\ n = (String.length word + m)%nat.
Proof.
  unfold literal. destruct (String.prefix word s) eqn:P; [|done].
  apply prefix_inv in P as [r ->]. rewrite sliceFrom_app.
  destruct (next r) as [m|] eqn:E; [|done]. intros [= <-]. by exists r, m.
Qed.

Lemma literal_None (word : string) (next : string -> option nat) (r : string) :
  literal word next (word +:+ r) = None -> next r = None.
Proof.
  unfold literal. rewrite prefix_app_r, sliceFrom_app. by destruct (next r).
Qed.

(** The match at the start of a text. *)
Lemma matchHere_Some (s : string) (n : nat) :
  matchHere s = Some n ->
  exists a b post,
    s = "{" +:+ a +:+ lit "category" +:+ b +:+ "}" +:+ post /\
    sliceTo n s = "{" +:+ a +:+ lit "category" +:+ b +:+ "}" /\
    includes post "}" = false.
Proof.
  unfold matchHere. intros H.
  apply literal_Some in H as (r1 & m1 & -> & H & ->).
  apply star_Some in H as (a & r2 & m2 & -> & H & -> & _).
  apply literal_Some in H as (r3 & m3 & -> & H & ->).
  apply star_Some in H as (b & r4 & m4 & -> & H & -> & Hgreedy).
  apply literal_Some in H as (post & m5 & -> & [= <-] & ->).
  exists a, b, post. split_and!; [done| |].
  - replace (String.length "{" + (String.length a + (String.length (lit "category") +
              (String.length b + (String.length "}" + 0)))))%nat
      with (String.length ("{" +:+ a +:+ lit "category" +:+ b +:+ "}")).
    + rewrite <- (sliceTo_app ("{" +:+ a +:+ lit "category" +:+ b +:+ "}") post) at 2.
      by rewrite !app_assoc_s.
    + rewrite !length_append. simpl. lia.
  - apply includes_false. intros (x & y & ->).
    specialize (Hgreedy (b +:+ "}" +:+ x) ("}" +:+ y)).
    rewrite !app_assoc_s in Hgreedy. specialize (Hgreedy eq_refl).
    rewrite !length_append in Hgreedy. simpl in Hgreedy.
    assert (literal "}" (fun _ => Some 0%nat) ("}" +:+ y) = None) as Hn by (apply Hgreedy; lia).
    by apply literal_None in Hn.
Qed.

Lemma matchHere_None (a b post : string) :
  matchHere ("{" +:+ a +:+ lit "category" +:+ b +:+ "}" +:+ post) <> None.
Proof.
  unfold matchHere. intros H.
  apply literal_None in H.
  pose proof (star_None _ _ H a _ eq_refl) as H2.
  apply literal_None in H2.
  pose proof (star_None _ _ H2 b _ eq_refl) as H3.
  by apply literal_None in H3.
Qed.

(** X25: what [classifyMessage] cuts out of the classifier's answer with
    [/\{[\s\S]*"category"[\s\S]*\}/].  A match runs from an opening brace,
    over the quoted word category, to the last closing brace of the whole text,
    not to the brace that closes the object; there is a match exactly when the
    text has an opening brace, the quoted word after it, and a closing brace
    after that. *)
Theorem category_object_runs_to_last_brace (s : string) :
  match matchCategoryObject s with
  | Some m =>
      exists pre a b post,
        s = pre +:+ m +:+ post /\
        m = "{" +:+ a +:+ lit "category" +:+ b +:+ "}" /\
        includes post "}" = false
  | None =>
      ~ exists pre a b post,
          s = pre +:+ "{" +:+ a +:+ lit "category" +:+ b +:+ "}" +:+ post
  end.
Proof.
  induction s as [|c s IH].
  - cbn [matchCategoryObject].
    destruct (matchHere "") as [n|] eqn:E; [by vm_compute in E|].
    intros (pre & a & b & post & H). destruct pre; discriminate H.
  - cbn [matchCategoryObject]. destruct (matchHere (String c s)) as [n|] eqn:E.
    + destruct (matchHere_Some _ _ E) as (a & b & post & Hs & Hm & Hp).
      exists "", a, b, post. split_and!; [|done..].
      rewrite Hm. simpl. rewrite Hs. by rewrite !app_assoc_s.
    + destruct (matchCategoryObject s) as [m|].
      * destruct IH as (pre & a & b & post & -> & Hm & Hp).
        by exists (String c pre), a, b, post.
      * intros (pre & a & b & post & H). destruct pre as [|x pre].
        -- simpl in H. rewrite H in E. by apply matchHere_None in E.
        -- simpl in H. injection H as -> ->. apply IH. by exists pre, a, b, post.
Qed.

(** *** The prompt *)

(** The prompt is one text around the message. *)
Lemma prompt_shape :
  exists head tail, forall text,
    buildClassifierPrompt text
    = head +:+ "Message: " +:+ lit (sliceTo 500 (escapeQuotes text)) +:+ tail.
Proof.
  exists
    ("You are a message classifier. Classify this Telegram message into exactly one category." +:+
     newline +:+ newline +:+ "Categories:" +:+ newline +:+
     "- " +:+ lit "secretary" +:+ ": Messages about PostSale work - WhatsApp alerts, customer issues, network incidents, partner escalations, project status (MINEDU, COAR, PRONATEL), team coordination, department mentions (NOC, PMO, SMO, KAM, Presale, TRA, IP, Infrastructure). Also messages starting with " +:+
     lit "sec " +:+ " or mentioning postsale-secretary." +:+ newline +:+
     "- " +:+ lit "general" +:+ ": Everything else - personal questions, general AI queries, coding help, casual conversation." +:+
     newline +:+ newline),
    (newline +:+ newline +:+
     "Respond with ONLY valid JSON: {" +:+ lit "category" +:+ ": " +:+ lit "secretary" +:+
     " or " +:+ lit "general" +:+ ", " +:+ lit "reason" +:+ ": " +:+ lit "brief reason" +:+ "}").
  intros text. unfold buildClassifierPrompt.
  generalize (sliceTo 500 (escapeQuotes text)). intros m.
  unfold lit at 3 10. generalize (dq +:+ m +:+ dq). clear. intros x.
  reflexivity.
Qed.

(** X26: the classifier's prompt carries 500 characters of the message at
    most, quotes counted with the backslash put before them, so the prompt is
    never longer than the prompt of the empty message plus 500; a message of up
    to 500 characters without a double quote is carried as it is. *)
Theorem classifier_prompt_is_bounded (text : string) :
  (String.length (buildClassifierPrompt text)
   <= String.length (buildClassifierPrompt "") + 500)%nat /\
  (includes text dq = false -> (String.length text <= 500)%nat ->
   exists head tail,
     buildClassifierPrompt text = head +:+ "Message: " +:+ lit text +:+ tail /\
     buildClassifierPrompt "" = head +:+ "Message: " +:+ lit "" +:+ tail).
Proof.
  destruct prompt_shape as (head & tail & Hshape). split.
  - rewrite (Hshape text), (Hshape ""). unfold lit. rewrite !length_append.
    pose proof (length_sliceTo_le 500 (escapeQuotes text)).
    simpl (String.length (sliceTo 500 (escapeQuotes ""))). lia.
  - intros Hq Hlen.
    assert (Hesc : escapeQuotes text = text).
    { clear Hlen. induction text as [|c t IH]; [done|].
      cbn [includes] in Hq. apply orb_false_iff in Hq as [Hp Hq].
      simpl. destruct (Ascii.eqb c "034") eqn:E.
      - apply Ascii.eqb_eq in E. subst c. by destruct t.
      - by rewrite IH. }
    assert (Hcut : sliceTo 500 text = text).
    { clear Hq Hesc. revert Hlen. generalize 500%nat.
      induction text as [|c t IH]; intros [|n] Hlen; simpl in *; try done; try lia.
      rewrite IH; [done|lia]. }
    exists head, tail. rewrite (Hshape text), (Hshape ""), Hesc, Hcut. done.
Qed.

End ClassifierLaws.

(** ** Job files *)

Module JobsFacts.
Import JsString JsStringFacts JsStringLaws Json Runner Jobs.

(** *** White space *)

(** A text of white space only. *)
#[local] Abbreviation blank s := (trimStart s = "").

Lemma white_newline : isWhite "010" = true.
Proof. done. Qed.

Lemma nonwhite_not_newline (c : ascii) : isWhite c = false -> Ascii.eqb c "010" = false.
Proof.
  intros H. destruct (Ascii.eqb c "010") eqn:E; [|done].
  apply Ascii.eqb_eq in E. by subst.
Qed.

Lemma trimStart_split (s : string) : exists w, s = w +:+ trimStart s /\ blank w.
Proof.
  induction s as [|c s (w & E & Hw)]; [by exists ""|].
  cbn [trimStart]. destruct (isWhite c) eqn:Hc.
  - exists (String c w). unapp. split; [by rewrite <- E|]. simpl. by rewrite Hc.
  - by exists "".
Qed.

Lemma trimStart_head (s : string) (c : ascii) (r : string) :
  trimStart s = String c r -> isWhite c = false.
Proof.
  induction s as [|d s IH]; [done|]. cbn [trimStart].
  destruct (isWhite d) eqn:Hd; [done|]. by intros [= <- _].
Qed.

Lemma trimStart_blank_app (w s : string) : blank w -> trimStart (w +:+ s) = trimStart s.
Proof.
  induction w as [|c w IH]; [done|]. unapp. cbn [trimStart].
  destruct (isWhite c); [done|discriminate].
Qed.

Lemma trimStart_app (s w : string) : trimStart s <> "" -> trimStart (s +:+ w) = trimStart s +:+ w.
Proof.
  induction s as [|c s IH]; [done|]. unapp. cbn [trimStart].
  destruct (isWhite c); [done|]. by unapp.
Qed.

Lemma blank_app (a b : string) : blank a -> blank b -> blank (a +:+ b).
Proof. intros Ha Hb. by rewrite trimStart_blank_app. Qed.

Lemma trimEnd_blank (w : string) : blank w -> trimEnd w = "".
Proof.
  induction w as [|c w IH]; [done|]. cbn [trimStart trimEnd].
  destruct (isWhite c); [|done]. intros H. by rewrite IH.
Qed.

Lemma trimEnd_split (s : string) : exists w, s = trimEnd s +:+ w /\ blank w.
Proof.
  induction s as [|c s (w & E & Hw)]; [by exists ""|].
  cbn [trimEnd]. destruct (isWhite c && isEmpty (trimEnd s)) eqn:Hc.
  - apply andb_true_iff in Hc as [Hc He]. exists (String c s). split; [done|].
    cbn [trimStart]. rewrite Hc. destruct (trimEnd s); [|done].
    unapp. by subst s.
  - exists w. unapp. by rewrite <- E.
Qed.

Lemma trimEnd_app_blank (s w : string) : blank w -> trimEnd (s +:+ w) = trimEnd s.
Proof.
  intros Hw. induction s as [|c s IH]; [by apply trimEnd_blank|].
  unapp. cbn [trimEnd]. by rewrite IH.
Qed.

Lemma trimEnd_head (s : string) (c : ascii) (r : string) :
  trimEnd s = String c r -> exists r', s = String c r'.
Proof.
  destruct s as [|d s]; [done|]. cbn [trimEnd].
  destruct (isWhite d && isEmpty (trimEnd s)); [done|]. intros [= <- _]. by exists s.
Qed.

Lemma trim_head (s : string) (c : ascii) (r : string) :
  trim s = String c r -> isWhite c = false.
Proof.
  unfold trim. intros H. destruct (trimEnd_head _ _ _ H) as [r' E].
  by apply (trimStart_head _ _ _ E).
Qed.

Lemma trim_blank_l (w s : string) : blank w -> trim (w +:+ s) = trim s.
Proof. intros Hw. unfold trim. by rewrite trimStart_blank_app. Qed.

Lemma trim_blank_r (s w : string) : blank w -> trim (s +:+ w) = trim s.
Proof.
  intros Hw. unfold trim. destruct (decide (trimStart s = "")) as [Hs|Hs].
  - rewrite (blank_app _ _ Hs Hw). by rewrite Hs.
  - rewrite trimStart_app by done. by apply trimEnd_app_blank.
Qed.

(** *** Lines *)

Lemma splitLines_nonempty (s : string) : splitLines s <> [].
Proof.
  induction s as [|c s IH]; [done|]. cbn [splitLines].
  destruct (Ascii.eqb c "010"); [done|]. by destruct (splitLines s).
Qed.

(** Cutting a text at a line feed cuts its lines in two. *)
Lemma splitLines_app_newline (a b : string) :
  splitLines (a +:+ newline +:+ b) = splitLines a ++ splitLines b.
Proof.
  induction a as [|c a IH]; [done|]. unapp. cbn [splitLines]. rewrite IH.
  destruct (Ascii.eqb c "010"); [done|].
  pose proof (splitLines_nonempty a). by destruct (splitLines a).
Qed.

(** A line holds no line feed. *)
Lemma splitLines_line (s l : string) : l ∈ splitLines s -> splitLines l = [l].
Proof.
  revert l. induction s as [|c s IH]; intros l; cbn [splitLines].
  - by intros ->%list_elem_of_singleton.
  - destruct (Ascii.eqb c "010") eqn:Ec.
    + intros [->|H]%elem_of_cons; [done|by apply IH].
    + pose proof (splitLines_nonempty s). destruct (splitLines s) as [|l0 ls]; [done|].
      intros [->|H']%elem_of_cons.
      * cbn [splitLines]. rewrite Ec, (IH l0) by left. done.
      * apply IH. by right.
Qed.

Lemma splitLines_joinWith (ls : list string) :
  ls <> [] -> (forall l, l ∈ ls -> splitLines l = [l]) ->
  splitLines (joinWith newline ls) = ls.
Proof.
  induction ls as [|x ls IH]; [done|]. intros _ H.
  destruct ls as [|y ls]; [apply H; left|].
  change (joinWith newline (x :: y :: ls)) with (x +:+ newline +:+ joinWith newline (y :: ls)).
  rewrite splitLines_app_newline, IH, (H x); [done|left|done|].
  intros l Hl. apply H. by right.
Qed.

(** The lines of two texts put together: the last line of the first runs on
    into the first line of the second. *)
Lemma splitLines_app (a b : string) :
  exists la x lb y,
    splitLines a = la ++ [x] /\ splitLines b = y :: lb /\
    splitLines (a +:+ b) = la ++ [x +:+ y] ++ lb.
Proof.
  pose proof (splitLines_nonempty b) as Hb.
  destruct (splitLines b) as [|y lb] eqn:Eb; [done|]. clear Hb.
  induction a as [|c a (la & x & lb' & y' & Ea & [= <- <-] & E)].
  - exists [], "", lb, y. by rewrite <- Eb.
  - unapp. cbn [splitLines]. rewrite E, Ea. destruct (Ascii.eqb c "010").
    + by exists ("" :: la), x, lb, y.
    + destruct la as [|l0 la]; simpl.
      * by exists [], (String c x), lb, y.
      * by exists (String c l0 :: la), x, lb, y.
Qed.

Lemma splitLines_blank (w l : string) : blank w -> l ∈ splitLines w -> blank l.
Proof.
  revert l. induction w as [|c w IH]; intros l Hw; cbn [splitLines].
  - by intros ->%list_elem_of_singleton.
  - cbn [trimStart] in Hw. destruct (isWhite c) eqn:Hc; [|done].
    destruct (Ascii.eqb c "010").
    + intros [->|H]%elem_of_cons; [done|by apply IH].
    + pose proof (splitLines_nonempty w). destruct (splitLines w) as [|l0 ls]; [done|].
      intros [->|H']%elem_of_cons.
      * cbn [trimStart]. rewrite Hc. apply IH; [done|left].
      * apply IH; [done|by right].
Qed.

(** Every line of a trimmed text is, but for white space at its ends, a line
    of the text. *)
Lemma splitLines_trimStart (s l : string) :
  l ∈ splitLines (trimStart s) -> exists l0, l0 ∈ splitLines s /\ trim l = trim l0.
Proof.
  destruct (trimStart_split s) as (w & E & Hw).
  destruct (splitLines_app w (trimStart s)) as (la & x & lb & y & Ew & Et & Hs).
  rewrite <- E in Hs. rewrite Et, Hs. intros [->|H]%elem_of_cons.
  - exists (x +:+ y). split; [set_solver|].
    rewrite trim_blank_l; [done|]. apply (splitLines_blank w); [done|]. rewrite Ew. set_solver.
  - exists l. split; [set_solver|done].
Qed.

Lemma splitLines_trimEnd (s l : string) :
  l ∈ splitLines (trimEnd s) -> exists l0, l0 ∈ splitLines s /\ trim l = trim l0.
Proof.
  destruct (trimEnd_split s) as (w & E & Hw).
  destruct (splitLines_app (trimEnd s) w) as (la & x & lb & y & Et & Ew & Hs).
  rewrite <- E in Hs. rewrite Et, Hs. intros [H| ->%list_elem_of_singleton]%elem_of_app.
  - exists l. split; [set_solver|done].
  - exists (x +:+ y). split; [set_solver|].
    rewrite trim_blank_r; [done|]. apply (splitLines_blank w); [done|]. rewrite Ew. left.
Qed.

Lemma splitLines_trim (s l : string) :
  l ∈ splitLines (trim s) -> exists l0, l0 ∈ splitLines s /\ trim l = trim l0.
Proof.
  intros (l1 & H1 & E1)%splitLines_trimEnd. destruct (splitLines_trimStart _ _ H1) as (l0 & H0 & E0).
  exists l0. split; [done|congruence].
Qed.

(** *** The matcher *)

Lemma spaces_nonwhite {A : Type} (next : string -> option A) (c : ascii) (x : string) :
  isWhite c = false -> spacesThenNewline next (String c x) = None.
Proof. intros H. cbn [spacesThenNewline]. by rewrite H, nonwhite_not_newline. Qed.

Lemma spaces_newline {A : Type} (next : string -> option A) (x : string) :
  spacesThenNewline next (newline +:+ x)
  = match spacesThenNewline next x with Some r => Some r | None => next x end.
Proof. done. Qed.

(** What [\s*\n] passes over is white space and a line feed. *)
Lemma spaces_Some (s b : string) :
  spacesThenNewline Some s = Some b -> exists w, blank w /\ s = w +:+ newline +:+ b.
Proof.
  induction s as [|c s IH]; [done|]. cbn [spacesThenNewline].
  destruct (isWhite c) eqn:Hc.
  - destruct (spacesThenNewline Some s) as [r|].
    + intros [= ->]. destruct (IH eq_refl) as (w & Hw & ->).
      exists (String c w). split; [|done]. cbn [trimStart]. by rewrite Hc.
    + destruct (Ascii.eqb c "010") eqn:Ec; [|done]. apply Ascii.eqb_eq in Ec as ->.
      intros [= ->]. by exists "".
  - by rewrite nonwhite_not_newline.
Qed.

Lemma closing_fence (x : string) :
  exists b, closing (newline +:+ "---" +:+ newline +:+ x) = Some b /\ trim b = trim x.
Proof.
  unfold closing.
  change (String.prefix _ _) with true. cbn iota.
  change (sliceFrom 4 _) with (newline +:+ x).
  rewrite spaces_newline. destruct (spacesThenNewline Some x) as [r|] eqn:E.
  - exists r. split; [done|]. destruct (spaces_Some _ _ E) as (w & Hw & ->).
    symmetry. rewrite <- app_assoc_s. apply trim_blank_l. by apply blank_app.
  - by exists x.
Qed.

Lemma closing_Some (s b : string) :
  closing s = Some b -> exists r, s = newline +:+ "---" +:+ r.
Proof.
  unfold closing. destruct (String.prefix (newline +:+ "---") s) eqn:E; [|done].
  intros _. apply prefix_inv in E as [r ->]. by exists r.
Qed.

(** The first group stops at the first place from where the closing line
    matches. *)
Lemma lazyGroup_app (F R : string) (b0 : string) :
  closing R = Some b0 ->
  exists g t b,
    F = g +:+ t /\ lazyGroup (F +:+ R) = Some (g, b) /\ closing (t +:+ R) = Some b /\
    (t = "" \/ exists rest, t = newline +:+ rest).
Proof.
  intros HR. induction F as [|c F (g & t & b & EF & E & Hc & Ht)].
  - exists "", "", b0. unapp. split_and!; [done| |done|by left].
    destruct R; [done|]. cbn [lazyGroup]. by rewrite HR.
  - unapp. cbn [lazyGroup]. destruct (closing (String c (F +:+ R))) as [b1|] eqn:Ec.
    + exists "", (String c F), b1. unapp. split_and!; [done..|]. right.
      destruct (closing_Some _ _ Ec) as [r Er]. injection Er as -> _. by exists F.
    + rewrite E. exists (String c g), t, b. unapp. split_and!; [by rewrite EF|done..].
Qed.

Lemma lazyGroup_None (s : string) :
  includes s (newline +:+ "---") = false -> lazyGroup s = None.
Proof.
  induction s as [|c s IH]; [done|]. cbn [includes lazyGroup].
  intros [Hp Hi]%orb_false_iff. unfold closing. rewrite Hp, IH; done.
Qed.

(** *** The front matter *)

Section WithNumber.

Variable number : Type.
Variable Number : string -> number.
Variable finitePositive : number -> bool.

#[local] Abbreviation jobOf := (Jobs.jobOf number Number finitePositive).
#[local] Abbreviation parseJobFile := (Jobs.parseJobFile number Number finitePositive).

Lemma find_none_all (f : string -> bool) (lines : list string) :
  (forall l, l ∈ lines -> f l = false) -> List.find f lines = None.
Proof.
  induction lines as [|l ls IH]; [done|]. intros H. simpl.
  rewrite (H l) by left. apply IH. intros l' Hl'. apply H. by right.
Qed.

Lemma jobOf_no_schedule (name frontmatter body : string) :
  (forall l, l ∈ splitLines frontmatter -> String.prefix "schedule:" (trim l) = false) ->
  jobOf name frontmatter body = None.
Proof.
  intros H. unfold Jobs.jobOf, get.
  change ("schedule" +:+ ":") with "schedule:".
  rewrite find_none_all; [done|].
  intros l (l0 & -> & Hl0)%list_elem_of_fmap. by apply H.
Qed.

Lemma jobOf_body (name frontmatter body body' : string) :
  trim body' = trim body -> jobOf name frontmatter body' = jobOf name frontmatter body.
Proof. intros E. unfold Jobs.jobOf. by rewrite E. Qed.

Lemma filtered_lines (frontmatter l : string) :
  filteredFrontmatter frontmatter <> "" ->
  l ∈ splitLines (filteredFrontmatter frontmatter) ->
  String.prefix "schedule:" (trim l) = false.
Proof.
  unfold filteredFrontmatter.
  set (ls := List.filter _ _). intros Hne (l0 & H0 & ->)%splitLines_trim.
  assert (Hls : forall x, x ∈ ls ->
            x ∈ splitLines frontmatter /\ String.prefix "schedule:" (trim x) = false).
  { intros x Hx%list_elem_of_In. apply filter_In in Hx as [Hx Hp].
    apply list_elem_of_In in Hx. split; [done|]. by apply negb_true_iff. }
  rewrite splitLines_joinWith in H0.
  - by apply Hls.
  - intros E. by rewrite E in Hne.
  - intros x Hx. apply (splitLines_line frontmatter), Hls, Hx.
Qed.

(** Where [matchJob] starts its first group when the front matter starts with
    a character that is not white space. *)
Lemma matchJob_jobFile (c : ascii) (r rest : string) :
  isWhite c = false ->
  matchJob ("---" +:+ newline +:+ String c r +:+ rest) = lazyGroup (String c r +:+ rest).
Proof.
  intros Hc. unfold matchJob.
  change (String.prefix _ _) with true. cbn iota.
  change (sliceFrom 3 _) with (newline +:+ String c r +:+ rest).
  rewrite spaces_newline. unapp. by rewrite spaces_nonwhite.
Qed.

(** X27: a job whose schedule was cleared is not loaded again.  When the file
    has the shape of a job file, [clearJobSchedule] writes a text that
    [parseJobFile] turns down, provided something is left of the front matter
    once the schedule lines are out, or else no line of the body starts with
    three dashes.  ([sample_dashes] is a file outside both: its only front
    matter is the schedule, and what follows its second line of dashes is
    read as the front matter of the text written.) *)
Theorem cleared_job_is_not_loaded (name content frontmatter body : string) :
  matchJob content = Some (frontmatter, body) ->
  filteredFrontmatter frontmatter <> "" \/
  includes (newline +:+ trim body +:+ newline) (newline +:+ "---") = false ->
  exists next,
    clearJobSchedule content = Some next /\ parseJobFile name next = None.
Proof.
  intros Hm Hcase. unfold clearJobSchedule. rewrite Hm. eexists. split; [done|].
  unfold Jobs.parseJobFile.
  destruct (filteredFrontmatter frontmatter) as [|c r] eqn:EF.
  - destruct Hcase as [|Hbody]; [done|]. unapp.
    set (B := trim body +:+ newline) in *.
    match goal with
    | |- context [matchJob ?x] =>
        assert (Hm2 : matchJob x = lazyGroup (newline +:+ "---" +:+ newline +:+ B))
    end.
    { unfold matchJob. change (String.prefix _ _) with true. cbn iota.
      change (sliceFrom 3 _) with (newline +:+ newline +:+ "---" +:+ newline +:+ B).
      rewrite !spaces_newline.
      change ("---" +:+ newline +:+ B) with (String "-" ("--" +:+ newline +:+ B)).
      rewrite spaces_nonwhite by done.
      rewrite lazyGroup_None; [done|]. exact Hbody. }
    rewrite Hm2. destruct (closing_fence B) as (b & Hb & _).
    change (newline +:+ "---" +:+ newline +:+ B)
      with (String "010" ("---" +:+ newline +:+ B)) in *.
    cbn [lazyGroup]. by rewrite Hb.
  - pose proof (trim_head _ _ _ EF) as Hc.
    rewrite matchJob_jobFile by done.
    destruct (closing_fence (trim body +:+ newline)) as (b0 & Hb0 & _).
    destruct (lazyGroup_app (String c r) _ _ Hb0) as (g & t & b & Eg & -> & _ & Ht).
    apply jobOf_no_schedule. intros l Hl.
    apply (filtered_lines frontmatter); [by rewrite EF|]. rewrite EF, Eg.
    destruct Ht as [->|[rest ->]].
    + by rewrite app_nil_r_s.
    + rewrite splitLines_app_newline. apply elem_of_app. by left.
Qed.

(** X28: a job file is read back.  The text made of a line of three dashes,
    the front matter, a line of three dashes and the body is parsed as that
    front matter and that body, when the front matter starts with a character
    that is not white space and none of its lines after the first starts with
    three dashes. *)
Theorem job_file_is_read_back (name frontmatter body : string) (c : ascii) (r : string) :
  frontmatter = String c r -> isWhite c = false ->
  includes frontmatter (newline +:+ "---") = false ->
  parseJobFile name (jobFile frontmatter body) = jobOf name frontmatter body.
Proof.
  intros -> Hc Hinc. unfold Jobs.parseJobFile, jobFile.
  rewrite matchJob_jobFile by done.
  destruct (closing_fence body) as (b0 & Hb0 & Htrim).
  destruct (lazyGroup_app (String c r) _ _ Hb0) as (g & t & b & Eg & -> & Hcl & Ht).
  destruct Ht as [->|[rest ->]].
  - rewrite app_nil_r_s in Eg. subst g. unapp. rewrite Hb0 in Hcl.
    injection Hcl as <-. by apply jobOf_body.
  - exfalso. apply closing_Some in Hcl as [x Hx].
    apply includes_false in Hinc. apply Hinc.
    rewrite app_assoc_s in Hx. apply app_inv_head_s in Hx.
    destruct rest as [|d1 [|d2 [|d3 rest]]]; unapp; try discriminate Hx.
    injection Hx as -> -> -> _. exists g, rest. by rewrite Eg.
Qed.

End WithNumber.

Lemma cleared_job_is_not_loaded_witness :
  exists next,
    clearJobSchedule sample_once = Some next /\
    parseJobFile Z sample_Number sample_finitePositive "once" next = None.
Proof.
  apply (cleared_job_is_not_loaded Z sample_Number sample_finitePositive
           "once" sample_once sample_frontmatter sample_body).
  - reflexivity.
  - left. vm_compute. discriminate.
Defined.

Lemma job_file_is_read_back_witness :
  parseJobFile Z sample_Number sample_finitePositive "once"
    (jobFile sample_frontmatter sample_body)
  = jobOf Z sample_Number sample_finitePositive "once" sample_frontmatter sample_body.
Proof.
  apply (job_file_is_read_back Z sample_Number sample_finitePositive
           "once" sample_frontmatter sample_body "s" _ eq_refl); reflexivity.
Defined.

(** The file [sample_dashes] after its schedule was cleared is a job again,
    with a schedule that stood in the body. *)
Example cleared_job_with_dashes :
  exists next job,
    clearJobSchedule sample_dashes = Some next /\
    parseJobFile Z sample_Number sample_finitePositive "report" next = Some job /\
    job_schedule Z job = "0 10 * * *".
Proof. eexists _, _. split_and!; [reflexivity| vm_compute; reflexivity |reflexivity]. Qed.

(** *** Values *)

Lemma trim_blank (w : string) : trim w = "" -> blank w.
Proof.
  unfold trim. destruct (trimStart w) as [|c r] eqn:E; [done|].
  pose proof (trimStart_head _ _ _ E) as Hc. cbn [trimEnd]. by rewrite Hc.
Qed.

Lemma quote_not_white (q : ascii) : isQuote q = true -> isWhite q = false.
Proof. by intros [->%Ascii.eqb_eq| ->%Ascii.eqb_eq]%orb_true_iff. Qed.

Lemma trimEnd_keep (a : string) (q : ascii) :
  isWhite q = false -> trimEnd (a +:+ String q "") = a +:+ String q "".
Proof.
  intros Hq. induction a as [|c a IH]; unapp; cbn [trimEnd].
  - by rewrite Hq.
  - rewrite IH. destruct a; unapp; cbn [isEmpty]; by rewrite andb_false_r.
Qed.

Lemma stripLast_snoc (v : string) (q : ascii) :
  isQuote q = true -> stripLast (v +:+ String q "") = v.
Proof.
  intros Hq. induction v as [|c v IH]; unapp; [simpl; by rewrite Hq|].
  destruct v as [|d v]; unapp; [simpl; by rewrite Hq|].
  change (stripLast (String c (String d ?x))) with (String c (stripLast (String d x))).
  by rewrite IH.
Qed.

Lemma parseFrontmatterValue_quoted (w1 w2 value : string) (q1 q2 : ascii) :
  trim w1 = "" -> trim w2 = "" -> isQuote q1 = true -> isQuote q2 = true ->
  parseFrontmatterValue (w1 +:+ String q1 (value +:+ String q2 w2)) = value.
Proof.
  intros H1%trim_blank H2%trim_blank Hq1 Hq2. unfold parseFrontmatterValue, trim.
  rewrite trimStart_blank_app by done. cbn [trimStart].
  rewrite (quote_not_white q1) by done.
  replace (String q1 (value +:+ String q2 w2))
    with ((String q1 value +:+ String q2 "") +:+ w2) by (by rewrite app_assoc_s).
  rewrite trimEnd_app_blank, trimEnd_keep by auto using quote_not_white.
  unapp. cbn [stripFirst]. rewrite Hq1. by apply stripLast_snoc.
Qed.

Lemma find_first (f : string -> bool) (before after : list string) (l : string) :
  (forall x, x ∈ before -> f x = false) -> f l = true ->
  List.find f (before ++ l :: after) = Some l.
Proof.
  intros Hb Hl. induction before as [|x before IH]; simpl; [by rewrite Hl|].
  rewrite (Hb x) by left. apply IH. intros y Hy. apply Hb. by right.
Qed.

(** X29: a value between quotes is read exactly.  For the first line of the
    front matter that starts with the key and a colon, [get] gives what stands
    between the quote after the colon and the quote at the end of the line,
    white space inside the quotes included; the two quotes may be of different
    kinds, and later lines with the same key are not looked at. *)
Theorem quoted_value_is_read_exactly (key value w1 w2 : string) (q1 q2 : ascii)
    (before after : list string) :
  trim w1 = "" -> trim w2 = "" -> isQuote q1 = true -> isQuote q2 = true ->
  (forall l, l ∈ before -> String.prefix (key +:+ ":") l = false) ->
  get (before ++ (key +:+ ":" +:+ w1 +:+ String q1 (value +:+ String q2 w2)) :: after) key
  = Some value.
Proof.
  intros H1 H2 Hq1 Hq2 Hb. unfold get.
  rewrite <- (app_assoc_s key ":").
  rewrite find_first; [|done|apply prefix_app_r].
  replace (String.length key + 1)%nat with (String.length (key +:+ ":"))
    by (by rewrite length_append).
  rewrite sliceFrom_app. by rewrite parseFrontmatterValue_quoted.
Qed.

Lemma quoted_value_is_read_exactly_witness :
  get ["notify: error"; "schedule: '0 9 * * *" +:+ dq; "schedule: never"] "schedule"
  = Some "0 9 * * *".
Proof.
  apply (quoted_value_is_read_exactly "schedule" "0 9 * * *" " " "" "'" "034"
           ["notify: error"] ["schedule: never"]); try reflexivity.
  intros l ->%list_elem_of_singleton. reflexivity.
Defined.

End JobsFacts.

(** ** The execution queue *)

Module QueueFacts.
Import JsString Queue.

(** *** The microtask queue drains *)

Lemma heapWeight_insert_new (ps : gmap Pid Promise) (p : Pid) (c : Promise) :
  ps !! p = None -> heapWeight (<[p := c]> ps) = (cellWeight c + heapWeight ps)%nat.
Proof.
  intros H. unfold heapWeight. rewrite map_fold_insert_L; [done| |done].
  intros. lia.
Qed.

Lemma heapWeight_insert (ps : gmap Pid Promise) (p : Pid) (c : Promise) :
  (heapWeight (<[p := c]> ps) + from_option cellWeight 0 (ps !! p) =
   cellWeight c + heapWeight ps)%nat.
Proof.
  destruct (ps !! p) as [c0|] eqn:E; simpl.
  - rewrite <- (insert_delete_id ps p c0 E) at 2.
    rewrite <- (insert_delete_eq ps).
    rewrite !heapWeight_insert_new by apply lookup_delete_eq. lia.
  - rewrite heapWeight_insert_new by done. lia.
Qed.

Lemma sum_list_app (l k : list nat) : sum_list (l ++ k) = (sum_list l + sum_list k)%nat.
Proof. induction l as [|x l IH]; simpl; [done|]. rewrite IH. lia. Qed.

Lemma potential_unfold (s : State) :
  potential s = (sum_list (jobWeight <$> microtasks s) + heapWeight (promises s))%nat.
Proof. done. Qed.

Lemma sum_weights_jobs (o : Outcome) (rs : list Reaction) :
  sum_list (jobWeight <$> ((fun r => ReactionJob r o) <$> rs)) =
  sum_list (reactionWeight <$> rs).
Proof. by rewrite <- list_fmap_compose. Qed.

Lemma potential_settle (p : Pid) (o : Outcome) (s : State) :
  potential (settle p o s) = potential s.
Proof.
  unfold settle. destruct (promises s !! p) as [c|] eqn:E; [|done].
  destruct (pstate c); [done|].
  rewrite !potential_unfold. cbn [promises microtasks set_microtasks set_promises].
  pose proof (heapWeight_insert (promises s) p (mkPromise (Some o) [])) as H.
  rewrite E in H. cbn [from_option] in H. unfold cellWeight in H. cbn [reactions fmap list_fmap sum_list] in H.
  rewrite fmap_app, sum_list_app, sum_weights_jobs. lia.
Qed.

Lemma potential_subscribe (p : Pid) (r : Reaction) (s : State) :
  (potential (subscribe p r s) <= potential s + reactionWeight r)%nat.
Proof.
  unfold subscribe. destruct (promises s !! p) as [c|] eqn:E; [|lia].
  destruct (pstate c).
  - rewrite !potential_unfold. cbn [promises microtasks set_microtasks set_promises].
    rewrite fmap_app, sum_list_app. simpl. lia.
  - rewrite !potential_unfold. cbn [promises microtasks set_microtasks set_promises].
    pose proof (heapWeight_insert (promises s) p (mkPromise None (reactions c ++ [r]))) as H.
    rewrite E in H. cbn [from_option] in H. unfold cellWeight in H. cbn [reactions] in H.
    rewrite fmap_app, sum_list_app in H. simpl in H. lia.
Qed.

Lemma potential_alloc_empty (d : Pid) (st : option Outcome) (s : State) :
  (potential (alloc d (mkPromise st []) s) <= potential s)%nat.
Proof.
  rewrite !potential_unfold. cbn [promises microtasks alloc set_promises].
  pose proof (heapWeight_insert (promises s) d (mkPromise st [])) as H.
  assert (cellWeight (mkPromise st []) = 0%nat) as E0 by done.
  rewrite E0 in H. lia.
Qed.

Lemma handlerWeight_pos (h : Handler) : (1 <= handlerWeight h)%nat.
Proof. destruct h; simpl; lia. Qed.

Lemma jobWeight_pos (j : Job) : (1 <= jobWeight j)%nat.
Proof.
  destruct j as [r o]. unfold jobWeight, reactionWeight.
  pose proof (handlerWeight_pos (onFulfilled r)). lia.
Qed.

(** A turn of a non-empty queue lowers the potential. *)
Lemma potential_tick (s : State) (j : Job) (rest : list Job) :
  microtasks s = j :: rest -> (potential (tick s) < potential s)%nat.
Proof.
  intros E. unfold tick. rewrite E.
  set (s0 := set_microtasks (fun _ => rest) s).
  assert (H0 : (potential s0 + jobWeight j = potential s)%nat).
  { rewrite !potential_unfold. unfold s0. cbn [promises microtasks set_microtasks].
    rewrite E, fmap_cons. change (sum_list (?x :: ?l)) with (x + sum_list l)%nat. lia. }
  destruct j as [r o]. unfold runJob.
  set (h := match o with Fulfilled _ => onFulfilled r | Rejected _ => onRejected r end).
  assert (Hh : (handlerWeight h <= jobWeight (ReactionJob r o))%nat).
  { unfold jobWeight, reactionWeight, h. destruct o; lia. }
  pose proof (handlerWeight_pos h).
  destruct h as [| |fn] eqn:Eh.
  - rewrite potential_settle. lia.
  - rewrite potential_settle. lia.
  - eapply Nat.le_lt_trans; [apply potential_subscribe|].
    assert (potential (add_event (Started fn) (alloc (PResult fn) (mkPromise None []) s0))
            <= potential s0)%nat by apply (potential_alloc_empty (PResult fn) None s0).
    change (handlerWeight (CallTask fn)) with 2%nat in Hh.
    change (reactionWeight (mkReaction (target r) Identity Identity)) with 1%nat. lia.
Qed.

Lemma tick_idle (s : State) : microtasks s = [] -> tick s = s.
Proof. unfold tick. by intros ->. Qed.

Lemma iter_tick_idle (n : nat) (s : State) : microtasks s = [] -> Nat.iter n tick s = s.
Proof. intros H. induction n as [|n IH]; simpl; [done|]. by rewrite IH, tick_idle. Qed.

Lemma iter_tick_drains (n : nat) (s : State) :
  (potential s <= n)%nat -> microtasks (Nat.iter n tick s) = [].
Proof.
  revert s. induction n as [|n IH]; intros s H.
  - simpl. destruct (microtasks s) as [|j rest] eqn:E; [done|].
    rewrite potential_unfold, E in H. simpl in H. pose proof (jobWeight_pos j). lia.
  - rewrite Nat.iter_succ_r. destruct (microtasks s) as [|j rest] eqn:E.
    + rewrite tick_idle by done. by rewrite iter_tick_idle.
    + apply IH. pose proof (potential_tick s j rest E). lia.
Qed.

Lemma drain_empty (s : State) : microtasks (drain s) = [].
Proof. by apply iter_tick_drains. Qed.

(** *** Reading jobs and keys *)

Lemma jobOf_cases (s : State) (fn : TaskId) (tk : Task) (j : Job) :
  jobOf s fn tk = Some j ->
  (exists o, j = ReactionJob (R1 fn) o /\ promises s !! PResult fn = None /\
             stateOf s (prev tk) = Some o) \/
  (exists cr o, j = ReactionJob (Ra fn) o /\ promises s !! PResult fn = Some cr /\
                stateOf s (PReturned fn) = None /\ pstate cr = Some o) \/
  (exists cr o, j = ReactionJob (Rc fn) o /\ promises s !! PResult fn = Some cr /\
                stateOf s (PReturned fn) = Some o /\ stateOf s (PTail fn) = None).
Proof.
  unfold jobOf. destruct (promises s !! PResult fn) as [cr|] eqn:Er.
  - destruct (stateOf s (PReturned fn)) as [o|] eqn:Eb.
    + destruct (stateOf s (PTail fn)) eqn:Ec; [done|].
      intros [= <-]. right. right. eauto 10.
    + destruct (pstate cr) as [o|] eqn:Eo; [|done].
      intros [= <-]. right. left. eauto 10.
  - destruct (stateOf s (prev tk)) as [o|] eqn:Ep; [|done].
    intros [= <-]. left. eauto.
Qed.

Lemma jobOf_task (s : State) (fn : TaskId) (tk : Task) (j : Job) :
  jobOf s fn tk = Some j -> jobTask j = fn.
Proof.
  intros H. apply jobOf_cases in H as [(o & -> & _)|[(cr & o & -> & _)|(cr & o & -> & _)]]; done.
Qed.

Lemma keyOf_app_l (s s' : State) (x : Task) (fn : TaskId) :
  tasks s' = tasks s ++ [x] -> (fn < length (tasks s))%nat -> keyOf s' fn = keyOf s fn.
Proof. intros E H. unfold keyOf. by rewrite E, lookup_app_l. Qed.

Lemma keyOf_app_r (s s' : State) (x : Task) :
  tasks s' = tasks s ++ [x] -> keyOf s' (length (tasks s)) = Some (key x).
Proof. intros E. unfold keyOf. by rewrite E, list_lookup_middle. Qed.

Lemma keyOf_Some_lt (s : State) (fn : TaskId) (k : string) :
  keyOf s fn = Some k -> (fn < length (tasks s))%nat.
Proof.
  unfold keyOf. destruct (tasks s !! fn) eqn:E; [|done]. intros _. by eapply lookup_lt_Some.
Qed.

Lemma before_app (s s' : State) (x : Task) (a b : TaskId) :
  tasks s' = tasks s ++ [x] -> (b < length (tasks s))%nat ->
  before s' a b <-> before s a b.
Proof.
  intros E H. unfold before.
  split; intros (Hab & Hs & Hk); split_and!; try done.
  - by rewrite <- (keyOf_app_l s s' x b).
  - by rewrite <- (keyOf_app_l s s' x a), <- (keyOf_app_l s s' x b) by (done || lia).
  - by rewrite (keyOf_app_l s s' x b).
  - by rewrite (keyOf_app_l s s' x a), (keyOf_app_l s s' x b) by (done || lia).
Qed.

Lemma before_lt (s : State) (a b : TaskId) : before s a b -> (b < length (tasks s))%nat.
Proof. intros (_ & [k Hk] & _). by eapply keyOf_Some_lt. Qed.

Lemma snoc_split {A} (l l1 l2 : list A) (e x : A) :
  l ++ [e] = l1 ++ x :: l2 ->
  (l2 = [] /\ l1 = l /\ x = e) \/ exists l2', l2 = l2' ++ [e] /\ l = l1 ++ x :: l2'.
Proof.
  destruct l2 as [|y l2 _] using rev_ind; intros H.
  - apply app_inj_tail in H as [-> ->]. by left.
  - right. exists l2. change (l1 ++ x :: l2 ++ [y]) with (l1 ++ (x :: l2) ++ [y]) in H.
    rewrite app_assoc in H. apply app_inj_tail in H as [-> ->]. done.
Qed.

(** A task whose promises a transition leaves alone stays well formed. *)
Lemma TaskOk_frame (s s' : State) (fn : TaskId) (tk : Task) :
  TaskOk s fn tk ->
  (forall a, before s' a fn <-> before s a fn) ->
  promises s' !! PReturned fn = promises s !! PReturned fn ->
  promises s' !! PResult fn = promises s !! PResult fn ->
  stateOf s' (PTail fn) = stateOf s (PTail fn) ->
  (exists cc, promises s' !! PTail fn = Some cc /\
              (pstate cc <> None -> reactions cc = []) /\
              NoDup (reactions cc) /\
              forall r, r ∈ reactions cc ->
                exists fn' tk', tasks s' !! fn' = Some tk' /\ r = R1 fn' /\ prev tk' = PTail fn) ->
  stateOf s' (prev tk) = stateOf s (prev tk) ->
  (forall cp, promises s !! prev tk = Some cp ->
     exists cp', promises s' !! prev tk = Some cp' /\
                 forall r, r ∈ reactions cp -> r ∈ reactions cp') ->
  (forall j, jobOf s fn tk = Some j -> j ∈ microtasks s -> j ∈ microtasks s') ->
  TaskOk s' fn tk.
Proof.
  intros [Hb Hc Hr Hw Ha Hp Hj] Hbef Eb Er Sc Hc' Ep Hcp Hjobs.
  assert (Sb : stateOf s' (PReturned fn) = stateOf s (PReturned fn))
    by (unfold stateOf; by rewrite Eb).
  assert (Ej : jobOf s' fn tk = jobOf s fn tk).
  { unfold jobOf. by rewrite Er, Sb, Sc, Ep. }
  constructor.
  - by rewrite Eb.
  - done.
  - rewrite Er, Sb, Ep. done.
  - rewrite Er, Sb, Ep. intros Hn. destruct (Hw Hn) as [? Hw2]. split; [done|].
    intros Hpn. destruct (Hw2 Hpn) as (cp & Hcp1 & Hcp2).
    destruct (Hcp cp Hcp1) as (cp' & ? & ?). eauto.
  - by rewrite Sb, Sc.
  - destruct (prev tk) as [f0|f0|f0|f0]; try done.
    + destruct Hp as (-> & Hf & Hno). split_and!; [done|by rewrite Ep|].
      intros fn'. by rewrite Hbef.
    + destruct Hp as (Hb1 & Hb2). split; [by apply Hbef|].
      intros fn''. rewrite Hbef. apply Hb2.
  - rewrite Ej. intros j Hjj. apply Hjobs; [done|]. by apply Hj.
Qed.

(** The description of a tail carries over when the cell and the tasks it
    names are kept. *)
Lemma ok_tail_keep (s s' : State) (fn : TaskId) (tk : Task) :
  TaskOk s fn tk ->
  promises s' !! PTail fn = promises s !! PTail fn ->
  (forall f t, tasks s !! f = Some t -> tasks s' !! f = Some t) ->
  exists cc, promises s' !! PTail fn = Some cc /\
             (pstate cc <> None -> reactions cc = []) /\
             NoDup (reactions cc) /\
             forall r, r ∈ reactions cc ->
               exists fn' tk', tasks s' !! fn' = Some tk' /\ r = R1 fn' /\ prev tk' = PTail fn.
Proof.
  intros H E Hts. destruct (ok_tail s fn tk H) as (cc & ? & ? & ? & Hrs).
  exists cc. rewrite E. split_and!; try done.
  intros r Hin. destruct (Hrs r Hin) as (fn' & tk' & ? & ? & ?). eauto 10.
Qed.

Lemma Inv_initial : Inv initial.
Proof.
  constructor; simpl; try done.
  - intros j Hj. by apply elem_of_nil in Hj.
  - constructor.
  - intros fn. split; [by intros ?%elem_of_nil|]. rewrite lookup_empty. by intros [? ?].
  - intros fn o. split; [by intros ?%elem_of_nil|]. unfold stateOf. simpl.
    by rewrite lookup_empty.
  - constructor.
  - intros l1 l2 fn H. by destruct l1.
  - intros l1 l2 fn o H. by destruct l1.
Qed.

(** *** Submitting a task *)

Lemma subscribe_settled (p : Pid) (r : Reaction) (s : State) (c : Promise) (o : Outcome) :
  promises s !! p = Some c -> pstate c = Some o ->
  subscribe p r s = set_microtasks (fun js => js ++ [ReactionJob r o]) s.
Proof. intros H1 H2. unfold subscribe. by rewrite H1, H2. Qed.

Lemma subscribe_pending (p : Pid) (r : Reaction) (s : State) (c : Promise) :
  promises s !! p = Some c -> pstate c = None ->
  subscribe p r s =
  set_promises (fun ps => <[p := mkPromise None (reactions c ++ [r])]> ps) s.
Proof. intros H1 H2. unfold subscribe. by rewrite H1, H2. Qed.

Lemma settle_pending (p : Pid) (o : Outcome) (s : State) (c : Promise) :
  promises s !! p = Some c -> pstate c = None ->
  settle p o s =
  set_microtasks (fun js => js ++ ((fun r => ReactionJob r o) <$> reactions c))
    (set_promises (fun ps => <[p := mkPromise (Some o) []]> ps) s).
Proof. intros H1 H2. unfold settle. by rewrite H1, H2. Qed.

Ltac heap :=
  cbn [promises microtasks groupQueues tasks log statelessCounter
       set_promises set_microtasks add_event alloc Promise_resolve pstate reactions];
  repeat first
    [ rewrite lookup_insert_eq
    | rewrite lookup_insert_ne by (intros [=]; subst; (done || lia))
    | rewrite lookup_insert_ne by congruence ].

(** What [enqueue] does to a state of the right shape. *)
Lemma enqueue_spec (k : string) (s : State) :
  Inv s ->
  let s' := enqueue k s in
  let fn := length (tasks s) in
  exists prv,
    tasks s' = tasks s ++ [mkTask k prv] /\
    log s' = log s /\
    groupQueues s' = <[k := PTail fn]> (groupQueues s) /\
    promises s' !! PReturned fn = Some (mkPromise None [Rc fn]) /\
    promises s' !! PTail fn = Some (mkPromise None []) /\
    promises s' !! PResult fn = None /\
    (forall q, owner q <> fn -> q <> prv -> promises s' !! q = promises s !! q) /\
    ((groupQueues s !! k = None /\ prv = PFresh fn /\
      promises s' !! PFresh fn = Some (settledCell (Fulfilled Undefined)) /\
      microtasks s' = microtasks s ++ [ReactionJob (R1 fn) (Fulfilled Undefined)]) \/
     (exists f' cc,
         groupQueues s !! k = Some (PTail f') /\ prv = PTail f' /\ (f' < fn)%nat /\
         promises s !! PTail f' = Some cc /\
         ((pstate cc = None /\
           promises s' !! PTail f' = Some (mkPromise None (reactions cc ++ [R1 fn])) /\
           microtasks s' = microtasks s) \/
          (exists o, pstate cc = Some o /\ promises s' !! PTail f' = Some cc /\
                     microtasks s' = microtasks s ++ [ReactionJob (R1 fn) o])))).
Proof.
  intros HI s' fn.
  assert (Hnew : forall q, owner q = fn -> promises s !! q = None).
  { intros q Hq. apply (inv_unused s HI). lia. }
  destruct (groupQueues s !! k) as [p|] eqn:Eq.
  - destruct (inv_queue_Some s HI k p Eq) as (f' & -> & Hk & _).
    pose proof (keyOf_Some_lt _ _ _ Hk) as Hlt. fold fn in Hlt.
    assert (exists tk', tasks s !! f' = Some tk') as [tk' Htk'].
    { unfold keyOf in Hk. destruct (tasks s !! f'); [eauto|done]. }
    destruct (ok_tail s f' tk' (inv_tasks s HI f' tk' Htk')) as (cc & Hcc & _).
    exists (PTail f'). unfold s', enqueue. rewrite Eq. fold fn. unfold then_.
    destruct (pstate cc) as [o|] eqn:Eo.
    + erewrite (subscribe_settled (PTail f')); [|heap; exact Hcc|exact Eo].
      erewrite (subscribe_pending (PReturned fn)); [|heap; reflexivity|reflexivity].
      heap. split_and!; try done; heap; try done.
      * by apply Hnew.
      * intros q Hq1 Hq2. rewrite !lookup_insert_ne; [done|intros <-; done..].
      * right. exists f', cc. split_and!; try done. right. exists o. split_and!; try done.
        by heap.
    + erewrite (subscribe_pending (PTail f')); [|heap; exact Hcc|exact Eo].
      erewrite (subscribe_pending (PReturned fn)); [|heap; reflexivity|reflexivity].
      heap. split_and!; try done; heap; try done.
      * by apply Hnew.
      * intros q Hq1 Hq2. rewrite !lookup_insert_ne; [done|intros <-; done..].
      * right. exists f', cc. split_and!; try done. left. split_and!; try done.
        by heap.
  - exists (PFresh fn). unfold s', enqueue. rewrite Eq. fold fn. unfold then_.
    erewrite (subscribe_settled (PFresh fn)); [|heap; reflexivity|reflexivity].
    erewrite (subscribe_pending (PReturned fn)); [|heap; reflexivity|reflexivity].
    heap. split_and!; try done; heap; try done.
    + by apply Hnew.
    + intros q Hq1 Hq2. rewrite !lookup_insert_ne; [done|intros <-; done..].
    + left. split_and!; try done.
Qed.

(** Submitting a task keeps the shape. *)
Lemma Inv_enqueue (k : string) (s : State) : Inv s -> Inv (enqueue k s).
Proof.
  intros HI.
  destruct (enqueue_spec k s HI) as (prv & Ets & Elog & Egq & Hret & Htl & Hres & Hframe & Hprev).
  set (s' := enqueue k s) in *. set (fn := length (tasks s)) in *.
  assert (Hprv : owner prv = fn \/ exists f', prv = PTail f' /\ (f' < fn)%nat).
  { destruct Hprev as [(_ & -> & _)|(f' & cc & _ & -> & ? & _)]; eauto. }
  assert (Hst : forall q, owner q <> fn -> stateOf s' q = stateOf s q).
  { intros q Hq. unfold stateOf. destruct (decide (q = prv)) as [->|Hne].
    - destruct Hprev as [(_ & -> & _)|(f' & cc & _ & -> & ? & Hcc & Hcase)]; [done|].
      rewrite Hcc. destruct Hcase as [(? & -> & _)|(o & ? & -> & _)]; done.
    - by rewrite Hframe. }
  assert (Hsub : forall j, j ∈ microtasks s -> j ∈ microtasks s').
  { intros j Hj.
    destruct Hprev as [(_ & _ & _ & ->)|(f' & cc & _ & _ & _ & _ & [(_ & _ & ->)|(o & _ & _ & ->)])];
      try done; apply elem_of_app; by left. }
  assert (Hold : forall f tk, tasks s !! f = Some tk ->
                              (f < fn)%nat /\ tasks s' !! f = Some tk).
  { intros f tk H. pose proof (lookup_lt_Some _ _ _ H). split; [done|].
    rewrite Ets. by apply lookup_app_l_Some. }
  assert (Hres_old : forall f, f <> fn -> promises s' !! PResult f = promises s !! PResult f).
  { intros f Hf. apply Hframe; [done|]. intros <-.
    destruct Hprv as [?|(f' & ? & _)]; done. }
  assert (Hret_old : forall f, f <> fn -> promises s' !! PReturned f = promises s !! PReturned f).
  { intros f Hf. apply Hframe; [done|]. intros <-.
    destruct Hprv as [?|(f' & ? & _)]; done. }
  assert (Hprev_old : forall f tk, tasks s !! f = Some tk -> owner (prev tk) <> fn).
  { intros f tk H. pose proof (lookup_lt_Some _ _ _ H) as Hlt. fold fn in Hlt.
    pose proof (ok_prev s f tk (inv_tasks s HI f tk H)) as Hp.
    destruct (prev tk) as [f0|f0|f0|f0]; try done; simpl.
    - destruct Hp as (-> & _). lia.
    - destruct Hp as ((? & _) & _). lia. }
  assert (Hjob_old : forall f tk, tasks s !! f = Some tk -> jobOf s' f tk = jobOf s f tk).
  { intros f tk H. destruct (Hold f tk H) as [Hlt _].
    unfold jobOf. rewrite Hres_old by lia.
    rewrite (Hst (prev tk)) by (by eapply Hprev_old).
    rewrite (Hst (PReturned f)) by (simpl; lia).
    rewrite (Hst (PTail f)) by (simpl; lia). done. }
  assert (Hbef : forall a b, (b < fn)%nat -> before s' a b <-> before s a b).
  { intros a b Hb. by eapply before_app. }
  assert (Hkey_new : keyOf s' fn = Some k).
  { apply (keyOf_app_r s s' _ Ets). }
  assert (Hkey_old : forall f, (f < fn)%nat -> keyOf s' f = keyOf s f).
  { intros f Hf. by eapply keyOf_app_l. }
  assert (Hbef_new : forall a, before s' a fn <-> (a < fn)%nat /\ keyOf s a = Some k).
  { intros a. unfold before. rewrite Hkey_new. split.
    - intros (Ha & _ & E). split; [done|]. by rewrite <- Hkey_old.
    - intros [Ha E]. split_and!; [done|eauto|]. by rewrite Hkey_old. }
  assert (HtaskOld : forall f tk, tasks s !! f = Some tk -> TaskOk s' f tk).
  { intros f tk H. destruct (Hold f tk H) as [Hlt Hs'].
    pose proof (inv_tasks s HI f tk H) as Hok.
    apply (TaskOk_frame s s' f tk Hok).
    - intros a. by apply Hbef.
    - apply Hret_old. lia.
    - apply Hres_old. lia.
    - apply Hst. simpl. lia.
    - destruct (decide (PTail f = prv)) as [E|Hne].
      + destruct Hprev as [(_ & -> & _)|(f' & cc & _ & -> & ? & Hcc & Hcase)]; [done|].
        injection E as ->.
        destruct (ok_tail s f' tk Hok) as (cc0 & Hcc0 & Hset & Hnd & Hrs).
        assert (cc0 = cc) as -> by congruence.
        destruct Hcase as [(Hpend & Hnew & _)|(o & ? & Hsame & _)].
        * eexists. split; [exact Hnew|]. cbn [pstate reactions]. split_and!; [done| |].
          -- apply NoDup_app. split_and!; [done| |apply NoDup_singleton].
             intros r Hr Hr'. apply list_elem_of_singleton in Hr'. subst r.
             destruct (Hrs _ Hr) as (f2 & tk2 & Htk2 & E2 & _).
             injection E2 as E2. apply Hold in Htk2 as [? _]. lia.
          -- intros r [Hr|Hr]%elem_of_app.
             ++ destruct (Hrs _ Hr) as (f2 & tk2 & Htk2 & E2 & Ep2).
                exists f2, tk2. split_and!; [by apply Hold|done|done].
             ++ apply list_elem_of_singleton in Hr. subst r.
                exists fn, (mkTask k (PTail f')). split_and!; [|done|done].
                rewrite Ets. by apply list_lookup_middle.
        * exists cc. split_and!; [done|done|done|].
          intros r Hr. destruct (Hrs _ Hr) as (f2 & tk2 & Htk2 & E2 & Ep2).
          exists f2, tk2. split_and!; [by apply Hold|done|done].
      + apply (ok_tail_keep s s' f tk Hok).
        * apply Hframe; [simpl; lia|done].
        * intros f2 t2 H2. by apply Hold.
    - apply Hst. by eapply Hprev_old.
    - intros cp Hcp. destruct (decide (prev tk = prv)) as [E|Hne].
      + destruct Hprev as [(_ & -> & _)|(f' & cc & _ & -> & ? & Hcc & Hcase)].
        { exfalso. eapply Hprev_old; [done|]. by rewrite E. }
        rewrite E in Hcp |- *. assert (cp = cc) as -> by congruence.
        destruct Hcase as [(Hpend & Hnew & _)|(o & ? & Hsame & _)].
        * eexists. split; [exact Hnew|]. cbn [reactions].
          intros r Hr. apply elem_of_app. by left.
        * eauto.
      + exists cp. split; [|done]. rewrite Hframe; [done| |done].
        by eapply Hprev_old.
    - intros j _. apply Hsub. }
  assert (Hgq : forall f', groupQueues s !! k = Some (PTail f') ->
                 keyOf s f' = Some k /\ forall f, keyOf s f = Some k -> (f <= f')%nat).
  { intros f' Hf'. destruct (inv_queue_Some s HI k _ Hf') as (f0 & [= <-] & ? & ?). done. }
  assert (HtaskNew : TaskOk s' fn (mkTask k prv)).
  { constructor; cbn [prev key].
    - eexists. split; [exact Hret|]. done.
    - eexists. split; [exact Htl|]. cbn [pstate reactions].
      split_and!; [done|constructor|]. intros r Hr. by apply elem_of_nil in Hr.
    - rewrite Hres. done.
    - intros _. split; [unfold stateOf; by rewrite Hret|].
      unfold stateOf.
      destruct Hprev as [(_ & -> & -> & _)|(f' & cc & _ & -> & ? & Hcc & Hcase)]; [done|].
      destruct Hcase as [(Hpend & -> & _)|(o & Ho & -> & _)].
      + intros _. eexists. split; [done|]. cbn [reactions]. apply elem_of_app. right.
        by apply list_elem_of_singleton.
      + by rewrite Ho.
    - unfold stateOf at 1. by rewrite Htl.
    - destruct Hprev as [(Hnone & -> & Hf & _)|(f' & cc & Hsome & -> & ? & Hcc & Hcase)].
      + split_and!; [done|unfold stateOf; by rewrite Hf|].
        intros a [_ Ha]%Hbef_new. by eapply (inv_queue_None s HI k Hnone).
      + destruct (Hgq f' Hsome) as [Hk Hmax]. split.
        * by apply Hbef_new.
        * intros a [_ Ha]%Hbef_new. by apply Hmax.
    - intros j. unfold jobOf. rewrite Hres. cbn [prev]. unfold stateOf.
      destruct Hprev as [(_ & -> & -> & ->)|(f' & cc & _ & -> & ? & Hcc & Hcase)].
      + cbn. intros [= <-]. apply elem_of_app. right. by apply list_elem_of_singleton.
      + destruct Hcase as [(Hpend & -> & _)|(o & Ho & -> & ->)]; [done|].
        rewrite Ho. cbn. intros [= <-]. apply elem_of_app. right.
        by apply list_elem_of_singleton. }
  assert (Hfresh_job : forall o, ReactionJob (R1 fn) o ∉ microtasks s).
  { intros o Hin. destruct (inv_jobs s HI _ Hin) as (f & tk & Htk & Hj).
    apply jobOf_task in Hj. cbn in Hj. subst f.
    apply lookup_lt_Some in Htk. unfold fn in Htk. lia. }
  assert (Hlog_lt : forall f, is_Some (promises s !! PResult f) -> (f < fn)%nat).
  { intros f [c Hc]. destruct (decide (f < fn)%nat); [done|].
    rewrite (inv_unused s HI (PResult f)) in Hc; [done|]. simpl. unfold fn in *. lia. }
  constructor.
  - intros f tk. rewrite Ets. intros [H|[Hf H]]%lookup_app_Some.
    + by apply HtaskOld.
    + apply list_lookup_singleton_Some in H as [H <-].
      assert (f = fn) as -> by (unfold fn; lia). done.
  - intros p. rewrite Ets, length_app. cbn [length]. fold fn. intros Hp.
    rewrite Hframe.
    + apply (inv_unused s HI). unfold fn in *. lia.
    + lia.
    + intros ->. destruct Hprv as [?|(f' & -> & ?)]; simpl in *; lia.
  - intros j Hj.
    assert (Hcase : j ∈ microtasks s \/ exists o, j = ReactionJob (R1 fn) o /\
                                                  jobOf s' fn (mkTask k prv) = Some j).
    { destruct Hprev as [(_ & -> & Hf & Hm)|(f' & cc & _ & -> & ? & Hcc & Hcase)].
      - rewrite Hm in Hj. apply elem_of_app in Hj as [?|Hj]; [by left|].
        apply list_elem_of_singleton in Hj. subst j. right. eexists. split; [done|].
        unfold jobOf. rewrite Hres. cbn [prev]. unfold stateOf. by rewrite Hf.
      - destruct Hcase as [(Hpend & _ & Hm)|(o & Ho & Hsame & Hm)].
        + rewrite Hm in Hj. by left.
        + rewrite Hm in Hj. apply elem_of_app in Hj as [?|Hj]; [by left|].
          apply list_elem_of_singleton in Hj. subst j. right. eexists. split; [done|].
          unfold jobOf. rewrite Hres. cbn [prev]. unfold stateOf. by rewrite Hsame, Ho. }
    destruct Hcase as [Hin|(o & -> & Hjob)].
    + destruct (inv_jobs s HI j Hin) as (f & tk & Htk & Hjf).
      exists f, tk. split; [by apply Hold|]. by rewrite Hjob_old.
    + exists fn, (mkTask k prv). split; [|done].
      rewrite Ets. by apply list_lookup_middle.
  - pose proof (inv_jobs_NoDup s HI) as Hnd.
    destruct Hprev as [(_ & _ & _ & ->)|(f' & cc & _ & _ & _ & _ & [(_ & _ & ->)|(o & _ & _ & ->)])];
      try done.
    + apply NoDup_app. split_and!; [done| |apply NoDup_singleton].
      intros j Hj Hj'. apply list_elem_of_singleton in Hj'. subst j. by eapply Hfresh_job.
    + apply NoDup_app. split_and!; [done| |apply NoDup_singleton].
      intros j Hj Hj'. apply list_elem_of_singleton in Hj'. subst j. by eapply Hfresh_job.
  - intros k2. rewrite Egq. intros [Hk2 Hne]%lookup_insert_None f Hf.
    pose proof (keyOf_Some_lt _ _ _ Hf) as Hlt. rewrite Ets, length_app in Hlt.
    cbn [length] in Hlt. fold fn in Hlt.
    destruct (decide (f = fn)) as [->|Hf'].
    + congruence.
    + rewrite Hkey_old in Hf by lia. by eapply (inv_queue_None s HI k2).
  - intros k2 p. rewrite Egq. intros [[<- <-]|[Hne Hp]]%lookup_insert_Some.
    + exists fn. split_and!; [done|done|].
      intros f Hf. pose proof (keyOf_Some_lt _ _ _ Hf) as Hlt.
      rewrite Ets, length_app in Hlt. cbn [length] in Hlt. fold fn in Hlt. lia.
    + destruct (inv_queue_Some s HI k2 p Hp) as (f0 & -> & Hk0 & Hmax).
      pose proof (keyOf_Some_lt _ _ _ Hk0) as Hlt0. fold fn in Hlt0.
      exists f0. split_and!; [done|by rewrite Hkey_old|].
      intros f Hf. pose proof (keyOf_Some_lt _ _ _ Hf) as Hlt.
      rewrite Ets, length_app in Hlt. cbn [length] in Hlt. fold fn in Hlt.
      destruct (decide (f = fn)) as [->|Hf']; [congruence|].
      apply Hmax. by rewrite <- Hkey_old by lia.
  - intros f. rewrite Elog, (inv_started s HI f).
    destruct (decide (f = fn)) as [->|Hf].
    + rewrite Hres. split; [|by intros [? ?]]. intros Hs. apply Hlog_lt in Hs. lia.
    + by rewrite Hres_old.
  - intros f o. rewrite Elog, (inv_settled s HI f o).
    destruct (decide (f = fn)) as [->|Hf].
    + unfold stateOf. rewrite Hres.
      rewrite (inv_unused s HI (PResult fn)) by (simpl; unfold fn; lia). done.
    + by rewrite Hst.
  - rewrite Elog. apply (inv_log_once s HI).
  - intros l1 l2 f. rewrite Elog. intros Hl a Ha.
    assert (Hf : (f < fn)%nat).
    { apply Hlog_lt, (inv_started s HI f). rewrite Hl. apply elem_of_app. right. left. }
    apply (inv_start_order s HI l1 l2 f Hl a). by apply Hbef.
  - intros l1 l2 f o. rewrite Elog. intros Hl.
    destruct (inv_settle_order s HI l1 l2 f o Hl) as [Hs Hb]. split; [done|].
    intros a Ha.
    assert (Hf : (f < fn)%nat).
    { apply Hlog_lt, (inv_started s HI f). rewrite Hl. apply elem_of_app. left. done. }
    apply Hb. by apply Hbef.
Qed.

(** *** Turns of the microtask queue *)

Lemma keyOf_tasks_eq (s s' : State) (fn : TaskId) :
  tasks s' = tasks s -> keyOf s' fn = keyOf s fn.
Proof. unfold keyOf. by intros ->. Qed.

Lemma before_tasks_eq (s s' : State) (a b : TaskId) :
  tasks s' = tasks s -> before s' a b <-> before s a b.
Proof. intros E. unfold before. by rewrite !(keyOf_tasks_eq s s' _ E). Qed.

(** When the promise a task is chained on is settled, every earlier task of
    its key has settled. *)
Lemma predecessors_settled (s : State) (fn : TaskId) (tk : Task) :
  Inv s -> tasks s !! fn = Some tk -> stateOf s (prev tk) <> None ->
  forall a, before s a fn -> exists o, Settled a o ∈ log s.
Proof.
  intros HI Htk Hprev a Ha.
  pose proof (ok_prev s fn tk (inv_tasks s HI fn tk Htk)) as Hp.
  destruct (prev tk) as [f0|f0|f'|f0]; try done.
  - destruct Hp as (_ & _ & Hno). by destruct (Hno a).
  - destruct Hp as (Hbf & Hmax).
    assert (exists tk', tasks s !! f' = Some tk') as [tk' Htk'].
    { destruct Hbf as (_ & [k Hk] & E). rewrite Hk in E. unfold keyOf in E.
      destruct (tasks s !! f'); [eauto|done]. }
    pose proof (inv_tasks s HI f' tk' Htk') as Hok'.
    pose proof (ok_tail_after s f' tk' Hok' Hprev) as Hret.
    destruct (stateOf s (PReturned f')) as [o1|] eqn:Eret; [|done].
    assert (Hset : Settled f' o1 ∈ log s).
    { apply (inv_settled s HI). unfold stateOf.
      destruct (promises s !! PResult f') as [cr|] eqn:Er.
      - by apply (ok_result s f' tk' Hok' cr Er).
      - destruct (ok_waiting s f' tk' Hok' Er) as [? _]. congruence. }
    pose proof (Hmax a Ha) as Hle.
    destruct (decide (a = f')) as [->|Hne]; [eauto|].
    apply list_elem_of_split in Hset as (l1 & l2 & Hl).
    destruct (inv_settle_order s HI l1 l2 f' o1 Hl) as [_ Hb].
    destruct (Hb a) as [o' Ho'].
    { destruct Ha as (? & ? & Eka). destruct Hbf as (? & ? & Ekf).
      split_and!; [lia| |congruence]. rewrite Ekf. done. }
    exists o'. rewrite Hl. apply elem_of_app. by left.
Qed.

(** A kept queue job of another task stays in the queue when the head job
    is taken. *)
Lemma other_job_stays (s : State) (fn f : TaskId) (tk tkf : Task) (j j' : Job)
    (rest : list Job) :
  microtasks s = j :: rest ->
  jobOf s fn tk = Some j -> jobOf s f tkf = Some j' -> f <> fn ->
  j' ∈ microtasks s -> j' ∈ rest.
Proof.
  intros Hm Hj Hj' Hne Hin. rewrite Hm in Hin.
  apply elem_of_cons in Hin as [->|?]; [|done].
  apply jobOf_task in Hj, Hj'. congruence.
Qed.

(** The call of a task keeps the shape. *)
Lemma Inv_start (s s' : State) (fn : TaskId) (tk : Task) (o : Outcome) (rest : list Job) :
  Inv s -> tasks s !! fn = Some tk ->
  microtasks s = ReactionJob (R1 fn) o :: rest ->
  promises s !! PResult fn = None -> stateOf s (prev tk) = Some o ->
  promises s' = <[PResult fn := mkPromise None [Ra fn]]> (promises s) ->
  microtasks s' = rest -> groupQueues s' = groupQueues s ->
  tasks s' = tasks s -> log s' = log s ++ [Started fn] ->
  Inv s'.
Proof.
  intros HI Htk Hm Hres Hprev Eps Em Egq Ets Elog.
  assert (Hjob : jobOf s fn tk = Some (ReactionJob (R1 fn) o)).
  { unfold jobOf. by rewrite Hres, Hprev. }
  assert (Hp : forall q, q <> PResult fn -> promises s' !! q = promises s !! q).
  { intros q Hq. rewrite Eps. by rewrite lookup_insert_ne. }
  assert (Hpr : promises s' !! PResult fn = Some (mkPromise None [Ra fn])).
  { rewrite Eps. by rewrite lookup_insert_eq. }
  assert (Hst : forall q, stateOf s' q = stateOf s q).
  { intros q. unfold stateOf. destruct (decide (q = PResult fn)) as [->|Hq].
    - by rewrite Hpr, Hres.
    - by rewrite Hp. }
  pose proof (inv_jobs_NoDup s HI) as Hnd. rewrite Hm in Hnd.
  apply NoDup_cons in Hnd as [Hnotin Hnd].
  assert (Hbef : forall a b, before s' a b <-> before s a b).
  { intros a b. by apply before_tasks_eq. }
  assert (Hprev_pid : forall f tkf, tasks s !! f = Some tkf -> prev tkf <> PResult fn).
  { intros f tkf Hf E. pose proof (ok_prev s f tkf (inv_tasks s HI f tkf Hf)) as Hpp.
    by rewrite E in Hpp. }
  assert (Hother : forall f tkf, tasks s !! f = Some tkf -> f <> fn -> TaskOk s' f tkf).
  { intros f tkf Hf Hne. pose proof (inv_tasks s HI f tkf Hf) as Hok.
    apply (TaskOk_frame s s' f tkf Hok); try done.
    - apply Hp. congruence.
    - apply Hp. congruence.
    - apply (ok_tail_keep s s' f tkf Hok); [by apply Hp|]. by rewrite Ets.
    - intros cp Hcp. exists cp. split; [|done]. rewrite Hp; [done|]. by eapply Hprev_pid.
    - intros j' Hj' Hin. rewrite Em. by eapply other_job_stays. }
  pose proof (inv_tasks s HI fn tk Htk) as Hok.
  destruct (ok_waiting s fn tk Hok Hres) as [Hretp _].
  constructor.
  - intros f tkf. rewrite Ets. intros Hf.
    destruct (decide (f = fn)) as [->|Hne]; [|by apply Hother].
    assert (tkf = tk) as -> by congruence.
    constructor.
    + rewrite Hp by done. apply (ok_returned s fn tk Hok).
    + apply (ok_tail_keep s s' fn tk Hok); [by apply Hp|]. by rewrite Ets.
    + rewrite Hpr. intros cr [= <-]. split_and!; [done|by rewrite Hst, Hprev|].
      intros o'. rewrite Hst. congruence.
    + by rewrite Hpr.
    + rewrite !Hst. apply (ok_tail_after s fn tk Hok).
    + pose proof (ok_prev s fn tk Hok) as Hpp.
      destruct (prev tk) as [f0|f0|f0|f0]; try done.
      * destruct Hpp as (? & ? & Hno). split_and!; [done|by rewrite Hst|].
        intros a. by rewrite Hbef.
      * destruct Hpp as (? & Hmax). split; [by apply Hbef|].
        intros a. rewrite Hbef. apply Hmax.
    + intros j'. unfold jobOf. rewrite Hpr, Hst, Hretp. done.
  - intros p. rewrite Ets. intros Hlen. rewrite Hp.
    + by apply (inv_unused s HI).
    + intros ->. apply lookup_lt_Some in Htk. simpl in Hlen. lia.
  - intros j' Hin. rewrite Em in Hin.
    destruct (inv_jobs s HI j') as (f & tkf & Hf & Hjf).
    { rewrite Hm. by right. }
    assert (f <> fn).
    { intros ->. assert (tkf = tk) as -> by congruence. congruence. }
    exists f, tkf. split; [by rewrite Ets|].
    rewrite <- Hjf. unfold jobOf. rewrite Hp by congruence. by rewrite !Hst.
  - by rewrite Em.
  - intros k Hk f. rewrite (keyOf_tasks_eq s s' f Ets).
    apply (inv_queue_None s HI k). by rewrite <- Egq.
  - intros k p Hk. rewrite Egq in Hk.
    destruct (inv_queue_Some s HI k p Hk) as (f & ? & ? & Hmax).
    exists f. split_and!; [done|by rewrite (keyOf_tasks_eq s s' f Ets)|].
    intros f'. rewrite (keyOf_tasks_eq s s' f' Ets). apply Hmax.
  - intros f. rewrite Elog, elem_of_app, list_elem_of_singleton, (inv_started s HI f).
    destruct (decide (f = fn)) as [->|Hne].
    + rewrite Hpr. split; [eauto|]. by right.
    + rewrite Hp by congruence. split; [|by left]. intros [?|[=]]; done.
  - intros f o'. rewrite Elog, elem_of_app, list_elem_of_singleton, (inv_settled s HI f o'), Hst.
    split; [|by left]. intros [?|[=]]; done.
  - rewrite Elog, fmap_app. apply NoDup_app. split_and!.
    + apply (inv_log_once s HI).
    + intros x Hx Hx'. apply list_elem_of_singleton in Hx'. subst x.
      apply list_elem_of_fmap in Hx as (e & He & Hin).
      destruct e as [f|f o']; [|done]. injection He as <-.
      apply (inv_started s HI) in Hin. rewrite Hres in Hin. by destruct Hin.
    + apply NoDup_singleton.
  - intros l1 l2 f. rewrite Elog. intros Hl a Ha. apply Hbef in Ha.
    apply snoc_split in Hl as [(-> & -> & [= ->])|(l2' & -> & Hl)].
    + eapply predecessors_settled; [done..|by rewrite Hprev|done].
    + by eapply (inv_start_order s HI).
  - intros l1 l2 f o'. rewrite Elog. intros Hl.
    apply snoc_split in Hl as [(-> & -> & [=])|(l2' & -> & Hl)].
    destruct (inv_settle_order s HI l1 l2' f o' Hl) as [? Hb]. split; [done|].
    intros a Ha. apply Hb. by apply Hbef.
Qed.

(** The promise returned to the caller takes the outcome of the task. *)
Lemma Inv_adopt (s s' : State) (fn : TaskId) (tk : Task) (cr : Promise) (o : Outcome)
    (rest : list Job) :
  Inv s -> tasks s !! fn = Some tk ->
  microtasks s = ReactionJob (Ra fn) o :: rest ->
  promises s !! PResult fn = Some cr -> stateOf s (PReturned fn) = None ->
  pstate cr = Some o ->
  promises s' = <[PReturned fn := settledCell o]> (promises s) ->
  microtasks s' = rest ++ [ReactionJob (Rc fn) o] -> groupQueues s' = groupQueues s ->
  tasks s' = tasks s -> log s' = log s ->
  Inv s'.
Proof.
  intros HI Htk Hm Hres Hret Hcr Eps Em Egq Ets Elog.
  assert (Hjob : jobOf s fn tk = Some (ReactionJob (Ra fn) o)).
  { unfold jobOf. by rewrite Hres, Hret, Hcr. }
  assert (Hp : forall q, q <> PReturned fn -> promises s' !! q = promises s !! q).
  { intros q Hq. rewrite Eps. by rewrite lookup_insert_ne. }
  assert (Hpr : promises s' !! PReturned fn = Some (settledCell o)).
  { rewrite Eps. by rewrite lookup_insert_eq. }
  assert (Hst : forall q, q <> PReturned fn -> stateOf s' q = stateOf s q).
  { intros q Hq. unfold stateOf. by rewrite Hp. }
  assert (Hstr : stateOf s' (PReturned fn) = Some o).
  { unfold stateOf. by rewrite Hpr. }
  pose proof (inv_jobs_NoDup s HI) as Hnd. rewrite Hm in Hnd.
  apply NoDup_cons in Hnd as [Hnotin Hnd].
  assert (Hbef : forall a b, before s' a b <-> before s a b).
  { intros a b. by apply before_tasks_eq. }
  assert (Hprev_pid : forall f tkf, tasks s !! f = Some tkf -> prev tkf <> PReturned fn).
  { intros f tkf Hf E. pose proof (ok_prev s f tkf (inv_tasks s HI f tkf Hf)) as Hpp.
    by rewrite E in Hpp. }
  pose proof (inv_tasks s HI fn tk Htk) as Hok.
  assert (Htl : stateOf s (PTail fn) = None).
  { destruct (stateOf s (PTail fn)) eqn:E; [|done].
    destruct (ok_tail_after s fn tk Hok); [by rewrite E|done]. }
  assert (Hjobs : forall f tkf, tasks s !! f = Some tkf -> f <> fn ->
                    jobOf s' f tkf = jobOf s f tkf).
  { intros f tkf Hf Hne. unfold jobOf.
    rewrite (Hp (PResult f)) by done.
    rewrite (Hst (prev tkf)) by (by eapply Hprev_pid).
    rewrite (Hst (PReturned f)) by congruence.
    by rewrite (Hst (PTail f)). }
  assert (Hother : forall f tkf, tasks s !! f = Some tkf -> f <> fn -> TaskOk s' f tkf).
  { intros f tkf Hf Hne. pose proof (inv_tasks s HI f tkf Hf) as Hokf.
    apply (TaskOk_frame s s' f tkf Hokf); try done.
    - apply Hp. congruence.
    - by apply Hp.
    - by apply Hst.
    - apply (ok_tail_keep s s' f tkf Hokf); [by apply Hp|]. by rewrite Ets.
    - apply Hst. by eapply Hprev_pid.
    - intros cp Hcp. exists cp. split; [|done]. rewrite Hp; [done|]. by eapply Hprev_pid.
    - intros j' Hj' Hin. rewrite Em. apply elem_of_app. left. by eapply other_job_stays. }
  constructor.
  - intros f tkf. rewrite Ets. intros Hf.
    destruct (decide (f = fn)) as [->|Hne]; [|by apply Hother].
    assert (tkf = tk) as -> by congruence.
    constructor.
    + exists (settledCell o). by split.
    + apply (ok_tail_keep s s' fn tk Hok); [by apply Hp|]. by rewrite Ets.
    + rewrite Hp by done. rewrite Hres. intros ? [= <-].
      destruct (ok_result s fn tk Hok cr Hres) as (? & ? & ?).
      split_and!; [done| |].
      * rewrite Hst; [done|]. by eapply Hprev_pid.
      * intros o'. rewrite Hstr. congruence.
    + rewrite Hp by done. by rewrite Hres.
    + by rewrite Hstr.
    + pose proof (ok_prev s fn tk Hok) as Hpp.
      destruct (prev tk) as [f0|f0|f0|f0]; try done.
      * destruct Hpp as (? & ? & Hno). split_and!; [done|by rewrite Hst|].
        intros a. by rewrite Hbef.
      * destruct Hpp as (? & Hmax). split; [by apply Hbef|].
        intros a. rewrite Hbef. apply Hmax.
    + intros j'. unfold jobOf. rewrite Hp by done. rewrite Hres, Hstr, Hst by done.
      rewrite Htl. intros [= <-]. rewrite Em. apply elem_of_app. right. by left.
  - intros p. rewrite Ets. intros Hlen. rewrite Hp.
    + by apply (inv_unused s HI).
    + intros ->. apply lookup_lt_Some in Htk. simpl in Hlen. lia.
  - intros j' Hin. rewrite Em in Hin. apply elem_of_app in Hin as [Hin|Hin].
    + destruct (inv_jobs s HI j') as (f & tkf & Hf & Hjf).
      { rewrite Hm. by right. }
      assert (f <> fn).
      { intros ->. assert (tkf = tk) as -> by congruence. congruence. }
      exists f, tkf. split; [by rewrite Ets|]. by rewrite Hjobs.
    + apply list_elem_of_singleton in Hin as ->. exists fn, tk.
      split; [by rewrite Ets|]. unfold jobOf.
      rewrite Hp by done. by rewrite Hres, Hstr, Hst, Htl.
  - rewrite Em. apply NoDup_app. split_and!; [done| |apply NoDup_singleton].
    intros x Hx Hx'. apply list_elem_of_singleton in Hx' as ->.
    destruct (inv_jobs s HI (ReactionJob (Rc fn) o)) as (f & tkf & Hf & Hjf).
    { rewrite Hm. by right. }
    pose proof (jobOf_task _ _ _ _ Hjf) as E. simpl in E. subst f.
    assert (tkf = tk) as -> by congruence. congruence.
  - intros k Hk f. rewrite (keyOf_tasks_eq s s' f Ets).
    apply (inv_queue_None s HI k). by rewrite <- Egq.
  - intros k p Hk. rewrite Egq in Hk.
    destruct (inv_queue_Some s HI k p Hk) as (f & ? & ? & Hmax).
    exists f. split_and!; [done|by rewrite (keyOf_tasks_eq s s' f Ets)|].
    intros f'. rewrite (keyOf_tasks_eq s s' f' Ets). apply Hmax.
  - intros f. rewrite Elog, Hp by done. apply (inv_started s HI).
  - intros f o'. rewrite Elog, Hst by done. apply (inv_settled s HI).
  - rewrite Elog. apply (inv_log_once s HI).
  - intros l1 l2 f. rewrite Elog. intros Hl a Ha. apply Hbef in Ha.
    by eapply (inv_start_order s HI).
  - intros l1 l2 f o'. rewrite Elog. intros Hl.
    destruct (inv_settle_order s HI l1 l2 f o' Hl) as [? Hb]. split; [done|].
    intros a Ha. apply Hb. by apply Hbef.
Qed.

(** The tail of a key settles, and the tasks chained on it are queued. *)
Lemma Inv_tail (s s' : State) (fn : TaskId) (tk : Task) (cc : Promise) (o o' : Outcome)
    (rest : list Job) :
  Inv s -> tasks s !! fn = Some tk ->
  microtasks s = ReactionJob (Rc fn) o :: rest ->
  stateOf s (PReturned fn) = Some o -> promises s !! PTail fn = Some cc ->
  pstate cc = None ->
  promises s' = <[PTail fn := settledCell o']> (promises s) ->
  microtasks s' = rest ++ ((fun r => ReactionJob r o') <$> reactions cc) ->
  groupQueues s' = groupQueues s -> tasks s' = tasks s -> log s' = log s ->
  Inv s'.
Proof.
  intros HI Htk Hm Hret Htl Hcc Eps Em Egq Ets Elog.
  pose proof (inv_tasks s HI fn tk Htk) as Hok.
  assert (Htls : stateOf s (PTail fn) = None).
  { unfold stateOf. by rewrite Htl. }
  assert (exists cr, promises s !! PResult fn = Some cr) as [cr Hres].
  { destruct (promises s !! PResult fn) as [cr|] eqn:E; [by exists cr|].
    destruct (ok_waiting s fn tk Hok E) as [? _]. congruence. }
  assert (Hjob : jobOf s fn tk = Some (ReactionJob (Rc fn) o)).
  { unfold jobOf. by rewrite Hres, Hret, Htls. }
  assert (Hp : forall q, q <> PTail fn -> promises s' !! q = promises s !! q).
  { intros q Hq. rewrite Eps. by rewrite lookup_insert_ne. }
  assert (Hpr : promises s' !! PTail fn = Some (settledCell o')).
  { rewrite Eps. by rewrite lookup_insert_eq. }
  assert (Hst : forall q, q <> PTail fn -> stateOf s' q = stateOf s q).
  { intros q Hq. unfold stateOf. by rewrite Hp. }
  assert (Hstr : stateOf s' (PTail fn) = Some o').
  { unfold stateOf. by rewrite Hpr. }
  pose proof (inv_jobs_NoDup s HI) as Hnd. rewrite Hm in Hnd.
  apply NoDup_cons in Hnd as [Hnotin Hnd].
  assert (Hbef : forall a b, before s' a b <-> before s a b).
  { intros a b. by apply before_tasks_eq. }
  destruct (ok_tail s fn tk Hok) as (cc0 & Hcc0 & _ & Hndr & Hrs).
  assert (cc0 = cc) as -> by congruence.
  assert (Hchained : forall f tkf, tasks s !! f = Some tkf -> prev tkf = PTail fn ->
            promises s !! PResult f = None /\ R1 f ∈ reactions cc /\ f <> fn).
  { intros f tkf Hf Hpv. pose proof (inv_tasks s HI f tkf Hf) as Hokf.
    assert (promises s !! PResult f = None) as Hnone.
    { destruct (promises s !! PResult f) as [c|] eqn:E; [|done].
      destruct (ok_result s f tkf Hokf c E) as (_ & Hx & _).
      rewrite Hpv, Htls in Hx. done. }
    split_and!; [done| |].
    - destruct (ok_waiting s f tkf Hokf Hnone) as [_ Hw].
      destruct Hw as (cp & Hcp & Hin); [by rewrite Hpv|].
      rewrite Hpv in Hcp. congruence.
    - intros ->. congruence. }
  assert (Hjobs : forall f tkf j', tasks s !! f = Some tkf -> f <> fn ->
                    jobOf s f tkf = Some j' -> jobOf s' f tkf = Some j').
  { intros f tkf j' Hf Hne. unfold jobOf.
    rewrite (Hp (PResult f)) by done.
    rewrite (Hst (PReturned f)) by done.
    rewrite (Hst (PTail f)) by congruence.
    destruct (promises s !! PResult f); [done|].
    destruct (decide (prev tkf = PTail fn)) as [E|E].
    - by rewrite E, Htls.
    - by rewrite Hst. }
  constructor.
  - intros f tkf. rewrite Ets. intros Hf.
    pose proof (inv_tasks s HI f tkf Hf) as Hokf.
    destruct (decide (f = fn)) as [->|Hne].
    { assert (tkf = tk) as -> by congruence.
      assert (prev tk <> PTail fn) as Hpv.
      { intros E. destruct (Hchained fn tk Htk E) as (_ & _ & ?). done. }
      constructor.
      - rewrite Hp by done. apply (ok_returned s fn tk Hok).
      - exists (settledCell o'). split_and!; [done|done|apply NoDup_nil_2|].
        intros r Hr. by apply elem_of_nil in Hr.
      - rewrite Hp by done. rewrite !Hst by done. apply (ok_result s fn tk Hok).
      - rewrite Hp by done. by rewrite Hres.
      - rewrite (Hst (PReturned fn)) by done. by rewrite Hret.
      - pose proof (ok_prev s fn tk Hok) as Hpp.
        destruct (prev tk) as [f0|f0|f0|f0]; try done.
        + destruct Hpp as (? & ? & Hno). split_and!; [done|by rewrite Hst|].
          intros a. by rewrite Hbef.
        + destruct Hpp as (? & Hmax). split; [by apply Hbef|].
          intros a. rewrite Hbef. apply Hmax.
      - intros j'. unfold jobOf. rewrite Hp by done. rewrite Hres, Hst by done.
        by rewrite Hret, Hstr. }
    destruct (decide (prev tkf = PTail fn)) as [Epv|Epv].
    + destruct (Hchained f tkf Hf Epv) as (Hnone & Hin & _).
      constructor.
      * rewrite Hp by done. apply (ok_returned s f tkf Hokf).
      * apply (ok_tail_keep s s' f tkf Hokf); [apply Hp; congruence|]. by rewrite Ets.
      * rewrite Hp by done. by rewrite Hnone.
      * intros _. rewrite Hst by done. split.
        -- by destruct (ok_waiting s f tkf Hokf Hnone).
        -- by rewrite Epv, Hstr.
      * rewrite !Hst by congruence. apply (ok_tail_after s f tkf Hokf).
      * pose proof (ok_prev s f tkf Hokf) as Hpp. rewrite Epv in *.
        destruct Hpp as (? & Hmax). split; [by apply Hbef|].
        intros a. rewrite Hbef. apply Hmax.
      * intros j'. unfold jobOf. rewrite Hp by done. rewrite Hnone, Epv, Hstr.
        intros [= <-]. rewrite Em. apply elem_of_app. right.
        apply list_elem_of_fmap. by exists (R1 f).
    + apply (TaskOk_frame s s' f tkf Hokf); try done.
      * by apply Hp.
      * by apply Hp.
      * apply Hst. congruence.
      * apply (ok_tail_keep s s' f tkf Hokf); [apply Hp; congruence|]. by rewrite Ets.
      * by apply Hst.
      * intros cp Hcp. exists cp. split; [|done]. by rewrite Hp.
      * intros j' Hj' Hin'. rewrite Em. apply elem_of_app. left. by eapply other_job_stays.
  - intros p. rewrite Ets. intros Hlen. rewrite Hp.
    + by apply (inv_unused s HI).
    + intros ->. apply lookup_lt_Some in Htk. simpl in Hlen. lia.
  - intros j' Hin. rewrite Em in Hin. apply elem_of_app in Hin as [Hin|Hin].
    + destruct (inv_jobs s HI j') as (f & tkf & Hf & Hjf).
      { rewrite Hm. by right. }
      assert (f <> fn).
      { intros ->. assert (tkf = tk) as -> by congruence. congruence. }
      exists f, tkf. split; [by rewrite Ets|]. by apply Hjobs.
    + apply list_elem_of_fmap in Hin as (r & -> & Hr).
      destruct (Hrs r Hr) as (f & tkf & Hf & -> & Hpv).
      destruct (Hchained f tkf Hf Hpv) as (Hnone & _ & ?).
      exists f, tkf. split; [by rewrite Ets|]. unfold jobOf.
      rewrite Hp by done. by rewrite Hnone, Hpv, Hstr.
  - rewrite Em. apply NoDup_app. split_and!; [done| |].
    + intros x Hx Hx'. apply list_elem_of_fmap in Hx' as (r & -> & Hr).
      destruct (Hrs r Hr) as (f & tkf & Hf & -> & Hpv).
      destruct (Hchained f tkf Hf Hpv) as (Hnone & _ & ?).
      destruct (inv_jobs s HI (ReactionJob (R1 f) o')) as (f2 & tkf2 & Hf2 & Hjf).
      { rewrite Hm. by right. }
      pose proof (jobOf_task _ _ _ _ Hjf) as E. simpl in E. subst f2.
      assert (tkf2 = tkf) as -> by congruence.
      unfold jobOf in Hjf. by rewrite Hnone, Hpv, Htls in Hjf.
    + apply NoDup_fmap_2; [|done]. by intros ?? [=].
  - intros k Hk f. rewrite (keyOf_tasks_eq s s' f Ets).
    apply (inv_queue_None s HI k). by rewrite <- Egq.
  - intros k p Hk. rewrite Egq in Hk.
    destruct (inv_queue_Some s HI k p Hk) as (f & ? & ? & Hmax).
    exists f. split_and!; [done|by rewrite (keyOf_tasks_eq s s' f Ets)|].
    intros f'. rewrite (keyOf_tasks_eq s s' f' Ets). apply Hmax.
  - intros f. rewrite Elog, Hp by done. apply (inv_started s HI).
  - intros f o''. rewrite Elog, Hst by done. apply (inv_settled s HI).
  - rewrite Elog. apply (inv_log_once s HI).
  - intros l1 l2 f. rewrite Elog. intros Hl a Ha. apply Hbef in Ha.
    by eapply (inv_start_order s HI).
  - intros l1 l2 f o''. rewrite Elog. intros Hl.
    destruct (inv_settle_order s HI l1 l2 f o'' Hl) as [? Hb]. split; [done|].
    intros a Ha. apply Hb. by apply Hbef.
Qed.

(** The promise of a running task settles. *)
Lemma Inv_settle (s s' : State) (fn : TaskId) (cr : Promise) (o : Outcome) :
  Inv s -> promises s !! PResult fn = Some cr -> pstate cr = None ->
  promises s' = <[PResult fn := settledCell o]> (promises s) ->
  microtasks s' = microtasks s ++ [ReactionJob (Ra fn) o] ->
  groupQueues s' = groupQueues s -> tasks s' = tasks s ->
  log s' = log s ++ [Settled fn o] ->
  Inv s'.
Proof.
  intros HI Hres Hcr Eps Em Egq Ets Elog.
  assert (exists tk, tasks s !! fn = Some tk) as [tk Htk].
  { destruct (tasks s !! fn) as [tk|] eqn:E; [by exists tk|].
    apply lookup_ge_None in E.
    pose proof (inv_unused s HI (PResult fn) E). congruence. }
  pose proof (inv_tasks s HI fn tk Htk) as Hok.
  destruct (ok_result s fn tk Hok cr Hres) as (Hhold & Hprev & Hadopted).
  assert (Hret : stateOf s (PReturned fn) = None).
  { destruct (stateOf s (PReturned fn)) as [x|] eqn:E; [|done].
    specialize (Hadopted x eq_refl). congruence. }
  assert (Hjob : jobOf s fn tk = None).
  { unfold jobOf. by rewrite Hres, Hret, Hcr. }
  assert (Hp : forall q, q <> PResult fn -> promises s' !! q = promises s !! q).
  { intros q Hq. rewrite Eps. by rewrite lookup_insert_ne. }
  assert (Hpr : promises s' !! PResult fn = Some (settledCell o)).
  { rewrite Eps. by rewrite lookup_insert_eq. }
  assert (Hst : forall q, q <> PResult fn -> stateOf s' q = stateOf s q).
  { intros q Hq. unfold stateOf. by rewrite Hp. }
  assert (Hstr : stateOf s' (PResult fn) = Some o).
  { unfold stateOf. by rewrite Hpr. }
  assert (Hstn : stateOf s (PResult fn) = None).
  { unfold stateOf. by rewrite Hres. }
  assert (Hbef : forall a b, before s' a b <-> before s a b).
  { intros a b. by apply before_tasks_eq. }
  assert (Hprev_pid : forall f tkf, tasks s !! f = Some tkf -> prev tkf <> PResult fn).
  { intros f tkf Hf E. pose proof (ok_prev s f tkf (inv_tasks s HI f tkf Hf)) as Hpp.
    by rewrite E in Hpp. }
  assert (Hjobs : forall f tkf, tasks s !! f = Some tkf -> f <> fn ->
                    jobOf s' f tkf = jobOf s f tkf).
  { intros f tkf Hf Hne. unfold jobOf.
    rewrite (Hp (PResult f)) by congruence.
    rewrite (Hst (prev tkf)) by (by eapply Hprev_pid).
    rewrite (Hst (PReturned f)) by done.
    by rewrite (Hst (PTail f)). }
  constructor.
  - intros f tkf. rewrite Ets. intros Hf.
    pose proof (inv_tasks s HI f tkf Hf) as Hokf.
    destruct (decide (f = fn)) as [->|Hne].
    + assert (tkf = tk) as -> by congruence.
      constructor.
      * rewrite Hp by done. apply (ok_returned s fn tk Hok).
      * apply (ok_tail_keep s s' fn tk Hok); [by apply Hp|]. by rewrite Ets.
      * rewrite Hpr. intros ? [= <-]. split_and!; [done| |].
        -- rewrite Hst; [done|]. by eapply Hprev_pid.
        -- intros x. rewrite Hst by done. congruence.
      * by rewrite Hpr.
      * rewrite !Hst by done. apply (ok_tail_after s fn tk Hok).
      * pose proof (ok_prev s fn tk Hok) as Hpp.
        destruct (prev tk) as [f0|f0|f0|f0]; try done.
        -- destruct Hpp as (? & ? & Hno). split_and!; [done|by rewrite Hst|].
           intros a. by rewrite Hbef.
        -- destruct Hpp as (? & Hmax). split; [by apply Hbef|].
           intros a. rewrite Hbef. apply Hmax.
      * intros j'. unfold jobOf. rewrite Hpr, Hst by done. rewrite Hret. simpl.
        intros [= <-]. rewrite Em. apply elem_of_app. right. by left.
    + apply (TaskOk_frame s s' f tkf Hokf); try done.
      * by apply Hp.
      * apply Hp. congruence.
      * by apply Hst.
      * apply (ok_tail_keep s s' f tkf Hokf); [by apply Hp|]. by rewrite Ets.
      * apply Hst. by eapply Hprev_pid.
      * intros cp Hcp. exists cp. split; [|done]. rewrite Hp; [done|]. by eapply Hprev_pid.
      * intros j' Hj' Hin'. rewrite Em. apply elem_of_app. by left.
  - intros p. rewrite Ets. intros Hlen. rewrite Hp.
    + by apply (inv_unused s HI).
    + intros ->. apply lookup_lt_Some in Htk. simpl in Hlen. lia.
  - intros j' Hin. rewrite Em in Hin. apply elem_of_app in Hin as [Hin|Hin].
    + destruct (inv_jobs s HI j' Hin) as (f & tkf & Hf & Hjf).
      assert (f <> fn).
      { intros ->. assert (tkf = tk) as -> by congruence. congruence. }
      exists f, tkf. split; [by rewrite Ets|]. by rewrite Hjobs.
    + apply list_elem_of_singleton in Hin as ->. exists fn, tk.
      split; [by rewrite Ets|]. unfold jobOf.
      rewrite Hpr, Hst by done. by rewrite Hret.
  - rewrite Em. apply NoDup_app. split_and!;
      [apply (inv_jobs_NoDup s HI)| |apply NoDup_singleton].
    intros x Hx Hx'. apply list_elem_of_singleton in Hx' as ->.
    destruct (inv_jobs s HI _ Hx) as (f & tkf & Hf & Hjf).
    pose proof (jobOf_task _ _ _ _ Hjf) as E. simpl in E. subst f.
    assert (tkf = tk) as -> by congruence. congruence.
  - intros k Hk f. rewrite (keyOf_tasks_eq s s' f Ets).
    apply (inv_queue_None s HI k). by rewrite <- Egq.
  - intros k p Hk. rewrite Egq in Hk.
    destruct (inv_queue_Some s HI k p Hk) as (f & ? & ? & Hmax).
    exists f. split_and!; [done|by rewrite (keyOf_tasks_eq s s' f Ets)|].
    intros f'. rewrite (keyOf_tasks_eq s s' f' Ets). apply Hmax.
  - intros f. rewrite Elog, elem_of_app, list_elem_of_singleton, (inv_started s HI f).
    destruct (decide (f = fn)) as [->|Hne].
    + rewrite Hpr, Hres. split; [eauto|]. intros _. left. eauto.
    + rewrite Hp by congruence. split; [|by left]. intros [?|[=]]; done.
  - intros f x. rewrite Elog, elem_of_app, list_elem_of_singleton, (inv_settled s HI f x).
    destruct (decide (f = fn)) as [->|Hne].
    + rewrite Hstr, Hstn. split.
      * intros [?|[= ->]]; done.
      * intros [= ->]. by right.
    + rewrite Hst by congruence. split; [|by left]. intros [?|[=]]; done.
  - rewrite Elog, fmap_app. apply NoDup_app. split_and!.
    + apply (inv_log_once s HI).
    + intros x Hx Hx'. apply list_elem_of_singleton in Hx'. subst x.
      apply list_elem_of_fmap in Hx as (e & He & Hin).
      destruct e as [f|f x]; [done|]. injection He as <-.
      apply (inv_settled s HI) in Hin. congruence.
    + apply NoDup_singleton.
  - intros l1 l2 f. rewrite Elog. intros Hl a Ha. apply Hbef in Ha.
    apply snoc_split in Hl as [(-> & -> & [=])|(l2' & -> & Hl)].
    by eapply (inv_start_order s HI).
  - intros l1 l2 f x. rewrite Elog. intros Hl.
    apply snoc_split in Hl as [(-> & -> & [= -> ->])|(l2' & -> & Hl)].
    + split.
      * apply (inv_started s HI). by rewrite Hres.
      * intros a Ha. apply Hbef in Ha. by eapply predecessors_settled.
    + destruct (inv_settle_order s HI l1 l2' f x Hl) as [? Hb]. split; [done|].
      intros a Ha. apply Hb. by apply Hbef.
Qed.

(** The counter of the stateless calls is no part of the shape. *)
Lemma Inv_counter (s : State) (n : Z) :
  Inv s ->
  Inv (mkState (promises s) (microtasks s) (groupQueues s) n (tasks s) (log s)).
Proof.
  intros HI. set (s' := mkState _ _ _ _ _ _).
  constructor.
  - intros f tkf Hf. pose proof (inv_tasks s HI f tkf Hf) as Hok.
    apply (TaskOk_frame s s' f tkf Hok); try done.
    + apply (ok_tail s f tkf Hok).
    + intros cp Hcp. by exists cp.
  - apply (inv_unused s HI).
  - apply (inv_jobs s HI).
  - apply (inv_jobs_NoDup s HI).
  - apply (inv_queue_None s HI).
  - apply (inv_queue_Some s HI).
  - apply (inv_started s HI).
  - apply (inv_settled s HI).
  - apply (inv_log_once s HI).
  - apply (inv_start_order s HI).
  - apply (inv_settle_order s HI).
Qed.

Lemma Inv_run (options : Runner.RunOptions) (s : State) : Inv s -> Inv (run options s).
Proof.
  intros HI. unfold run. destruct (Runner.noSessionPersistence options).
  - by apply Inv_enqueue, Inv_counter.
  - by apply Inv_enqueue.
Qed.

Lemma Inv_tick (s : State) : Inv s -> Inv (tick s).
Proof.
  intros HI. unfold tick. destruct (microtasks s) as [|j rest] eqn:Hm; [done|].
  destruct (inv_jobs s HI j) as (fn & tk & Htk & Hj).
  { rewrite Hm. by left. }
  pose proof (inv_tasks s HI fn tk Htk) as Hok.
  set (s0 := set_microtasks (fun _ => rest) s).
  apply jobOf_cases in Hj
    as [(o & -> & Hres & Hprev)
       |[(cr & o & -> & Hres & Hret & Hcr)|(cr & o & -> & Hres & Hret & Htl)]].
  - assert (runJob (ReactionJob (R1 fn) o) s0 =
            mkState (<[PResult fn := mkPromise None [Ra fn]]> (promises s)) rest
              (groupQueues s) (statelessCounter s) (tasks s) (log s ++ [Started fn])) as ->.
    { unfold runJob.
      replace (match o with Fulfilled _ => onFulfilled (R1 fn) | Rejected _ => onRejected (R1 fn) end)
        with (CallTask fn) by (by destruct o).
      erewrite subscribe_pending; [|heap; reflexivity|done].
      unfold s0, set_promises, add_event, alloc, set_microtasks. simpl.
      by rewrite insert_insert_eq. }
    by eapply (Inv_start s _ fn tk o rest).
  - destruct (ok_returned s fn tk Hok) as (cb & Hcb & Hhold).
    assert (pstate cb = None) as Hpb.
    { unfold stateOf in Hret. by rewrite Hcb in Hret. }
    unfold holding in Hhold. rewrite Hpb in Hhold.
    assert (runJob (ReactionJob (Ra fn) o) s0 =
            mkState (<[PReturned fn := settledCell o]> (promises s))
              (rest ++ [ReactionJob (Rc fn) o])
              (groupQueues s) (statelessCounter s) (tasks s) (log s)) as ->.
    { unfold runJob.
      replace (match o with Fulfilled _ => onFulfilled (Ra fn) | Rejected _ => onRejected (Ra fn) end)
        with Identity by (by destruct o).
      erewrite settle_pending; [|unfold s0; heap; exact Hcb|done].
      unfold s0, set_promises, set_microtasks. simpl. by rewrite Hhold. }
    by eapply (Inv_adopt s _ fn tk cr o rest).
  - destruct (ok_tail s fn tk Hok) as (cc & Hcc & _).
    assert (pstate cc = None) as Hpc.
    { unfold stateOf in Htl. by rewrite Hcc in Htl. }
    set (o' := match o with Fulfilled _ => o | Rejected _ => Fulfilled Undefined end).
    assert (runJob (ReactionJob (Rc fn) o) s0 =
            mkState (<[PTail fn := settledCell o']> (promises s))
              (rest ++ ((fun r => ReactionJob r o') <$> reactions cc))
              (groupQueues s) (statelessCounter s) (tasks s) (log s)) as ->.
    { unfold runJob, o'. destruct o as [v|e]; cbn [Rc onFulfilled onRejected target];
        (erewrite settle_pending; [|unfold s0; heap; exact Hcc|done]);
        unfold s0, set_promises, set_microtasks; by simpl. }
    by eapply (Inv_tail s _ fn tk cc o o' rest).
Qed.

Lemma Inv_complete (fn : TaskId) (o : Outcome) (s : State) : Inv s -> Inv (complete fn o s).
Proof.
  intros HI. unfold complete.
  destruct (promises s !! PResult fn) as [cr|] eqn:Hres; [|done].
  destruct (pstate cr) eqn:Hcr; [done|].
  assert (exists tk, tasks s !! fn = Some tk) as [tk Htk].
  { destruct (tasks s !! fn) as [tk|] eqn:E; [by exists tk|].
    apply lookup_ge_None in E.
    pose proof (inv_unused s HI (PResult fn) E). congruence. }
  destruct (ok_result s fn tk (inv_tasks s HI fn tk Htk) cr Hres) as (Hhold & _).
  unfold holding in Hhold. rewrite Hcr in Hhold.
  erewrite settle_pending by done. rewrite Hhold.
  by eapply (Inv_settle s _ fn cr o).
Qed.

Lemma Inv_step (s : State) (i : Input) : Inv s -> Inv (step s i).
Proof.
  destruct i; simpl; [apply Inv_run|apply Inv_tick|apply Inv_complete].
Qed.

Lemma Inv_foldl (inputs : list Input) (s : State) : Inv s -> Inv (foldl step s inputs).
Proof.
  revert s. induction inputs as [|i inputs IH]; intros s HI; simpl; [done|].
  by apply IH, Inv_step.
Qed.

Lemma Inv_exec (inputs : list Input) : Inv (exec inputs).
Proof. apply Inv_foldl, Inv_initial. Qed.

Lemma Inv_iter_tick (n : nat) (s : State) : Inv s -> Inv (Nat.iter n tick s).
Proof. intros HI. induction n as [|n IH]; simpl; [done|]. by apply Inv_tick. Qed.

Lemma Inv_drain (s : State) : Inv s -> Inv (drain s).
Proof. apply Inv_iter_tick. Qed.

(** *** What a turn of the microtask queue leaves alone *)

Lemma settle_frame (p : Pid) (o : Outcome) (s : State) :
  tasks (settle p o s) = tasks s /\ log (settle p o s) = log s.
Proof. unfold settle. by repeat case_match. Qed.

Lemma subscribe_frame (p : Pid) (r : Reaction) (s : State) :
  tasks (subscribe p r s) = tasks s /\ log (subscribe p r s) = log s.
Proof. unfold subscribe. by repeat case_match. Qed.

Lemma tick_frame (s : State) :
  tasks (tick s) = tasks s /\ log s `prefix_of` log (tick s).
Proof.
  unfold tick. destruct (microtasks s) as [|[r o] rest]; [done|].
  unfold runJob. case_match.
  - destruct (settle_frame (target r) o (set_microtasks (fun _ => rest) s)) as [-> ->].
    done.
  - destruct (settle_frame (target r) (Fulfilled Undefined)
                (set_microtasks (fun _ => rest) s)) as [-> ->].
    done.
  - match goal with |- context [subscribe ?p ?r ?s] =>
      destruct (subscribe_frame p r s) as [-> ->] end.
    split; [done|]. by apply prefix_app_r.
Qed.

Lemma iter_tick_frame (n : nat) (s : State) :
  tasks (Nat.iter n tick s) = tasks s /\ log s `prefix_of` log (Nat.iter n tick s).
Proof.
  induction n as [|n [IH1 IH2]]; simpl; [done|].
  destruct (tick_frame (Nat.iter n tick s)) as [-> ?]. split; [done|]. by etrans.
Qed.

(** *** The queue at rest *)

(** With no job left, a task that has not been called waits for an earlier
    task of its key that has not settled. *)
Lemma idle_started (s : State) (fn : TaskId) :
  Inv s -> microtasks s = [] -> is_Some (keyOf s fn) ->
  (forall fn', before s fn' fn -> exists o, Settled fn' o ∈ log s) ->
  Started fn ∈ log s.
Proof.
  intros HI Hm [k Hk] Hsettled. apply (inv_started s HI).
  destruct (promises s !! PResult fn) as [cr|] eqn:Hres; [done|exfalso].
  unfold keyOf in Hk. destruct (tasks s !! fn) as [tk|] eqn:Htk; [|done].
  pose proof (inv_tasks s HI fn tk Htk) as Hok.
  assert (Hprev : stateOf s (prev tk) = None).
  { destruct (stateOf s (prev tk)) as [o|] eqn:E; [|done].
    assert (ReactionJob (R1 fn) o ∈ microtasks s) as Hin.
    { apply (ok_job s fn tk Hok). unfold jobOf. by rewrite Hres, E. }
    rewrite Hm in Hin. by apply elem_of_nil in Hin. }
  pose proof (ok_prev s fn tk Hok) as Hpp.
  destruct (prev tk) as [f0|f0|f0|f0] eqn:Epv; try done.
  { destruct Hpp as (-> & ? & _). congruence. }
  destruct Hpp as [Hb _]. destruct (Hsettled f0 Hb) as [o Ho].
  apply (inv_settled s HI) in Ho.
  destruct Hb as (_ & _ & Hkey). unfold keyOf in Hkey. rewrite Htk in Hkey.
  destruct (tasks s !! f0) as [tk0|] eqn:Htk0; [|done].
  pose proof (inv_tasks s HI f0 tk0 Htk0) as Hok0.
  assert (Hno : forall j, jobOf s f0 tk0 <> Some j).
  { intros j Hj. apply (ok_job s f0 tk0 Hok0) in Hj. rewrite Hm in Hj.
    by apply elem_of_nil in Hj. }
  unfold jobOf in Hno. unfold stateOf in Ho.
  destruct (promises s !! PResult f0) as [cr|]; [|done].
  rewrite Ho, Hprev in Hno.
  destruct (stateOf s (PReturned f0)) as [o1|]; by eapply Hno.
Qed.

(** With no job left, the promise returned to the caller of a settled task
    holds the outcome of the task. *)
Lemma idle_surfaced (s : State) (fn : TaskId) (o : Outcome) :
  Inv s -> microtasks s = [] -> Settled fn o ∈ log s ->
  stateOf s (PReturned fn) = Some o.
Proof.
  intros HI Hm Ho. apply (inv_settled s HI) in Ho.
  assert (exists cr, promises s !! PResult fn = Some cr /\ pstate cr = Some o)
    as (cr & Hres & Hcr).
  { unfold stateOf in Ho. destruct (promises s !! PResult fn) as [cr|]; [|done].
    by exists cr. }
  assert (exists tk, tasks s !! fn = Some tk) as [tk Htk].
  { destruct (tasks s !! fn) as [tk|] eqn:E; [by exists tk|].
    apply lookup_ge_None in E.
    pose proof (inv_unused s HI (PResult fn) E). congruence. }
  pose proof (inv_tasks s HI fn tk Htk) as Hok.
  destruct (ok_result s fn tk Hok cr Hres) as (_ & _ & Hadopted).
  destruct (stateOf s (PReturned fn)) as [o1|] eqn:Hret.
  - specialize (Hadopted o1 eq_refl). congruence.
  - assert (ReactionJob (Ra fn) o ∈ microtasks s) as Hin.
    { apply (ok_job s fn tk Hok). unfold jobOf. by rewrite Hres, Hret, Hcr. }
    rewrite Hm in Hin. by apply elem_of_nil in Hin.
Qed.

(** The caller of a task sees no outcome but the one of the task. *)
Lemma surfaced_settled (s : State) (fn : TaskId) (o : Outcome) :
  Inv s -> stateOf s (PReturned fn) = Some o -> Settled fn o ∈ log s.
Proof.
  intros HI Hret. apply (inv_settled s HI).
  assert (exists tk, tasks s !! fn = Some tk) as [tk Htk].
  { destruct (tasks s !! fn) as [tk|] eqn:E; [by exists tk|].
    apply lookup_ge_None in E.
    pose proof (inv_unused s HI (PReturned fn) E) as Hn.
    unfold stateOf in Hret. by rewrite Hn in Hret. }
  pose proof (inv_tasks s HI fn tk Htk) as Hok.
  destruct (promises s !! PResult fn) as [cr|] eqn:Hres.
  - destruct (ok_result s fn tk Hok cr Hres) as (_ & _ & Hadopted).
    unfold stateOf. rewrite Hres. by apply Hadopted.
  - destruct (ok_waiting s fn tk Hok Hres) as [? _]. congruence.
Qed.

(** C2: whatever calls of [run], turns of the microtask queue and completions
    of running tasks have happened: no task is called or settles twice; a task
    is called only after every task submitted before it under the same key has
    settled; tasks of one key settle in the order of their submission; once
    the microtask queue has been drained (which takes finitely many turns and
    changes neither the tasks nor the log so far), every task whose
    predecessors under its key have settled, with a result or with an error,
    has been called, and the promise returned to the caller of a settled task
    holds the outcome of that task, also when it is an error; and at no time
    does that promise hold anything else. *)
Theorem queue_serialises_per_key (inputs : list Input) :
  let s := exec inputs in
  let sd := drain s in
  NoDup (kindOf <$> log s) /\
  (forall fn' fn, before s fn' fn -> Started fn ∈ log s ->
     exists o, happensBefore (log s) (Settled fn' o) (Started fn)) /\
  (forall fn' fn o, before s fn' fn -> Settled fn o ∈ log s ->
     exists o', happensBefore (log s) (Settled fn' o') (Settled fn o)) /\
  (microtasks sd = [] /\ tasks sd = tasks s /\ log s `prefix_of` log sd) /\
  (forall fn, is_Some (keyOf sd fn) ->
     (forall fn', before sd fn' fn -> exists o, Settled fn' o ∈ log sd) ->
     Started fn ∈ log sd) /\
  (forall fn o, Settled fn o ∈ log sd -> stateOf sd (PReturned fn) = Some o) /\
  (forall fn o, stateOf s (PReturned fn) = Some o -> Settled fn o ∈ log s).
Proof.
  intros s sd.
  assert (HI : Inv s) by apply Inv_exec.
  assert (HId : Inv sd) by by apply Inv_drain.
  assert (Hm : microtasks sd = []) by apply drain_empty.
  split_and!.
  - apply (inv_log_once s HI).
  - intros fn' fn Hb Hin. apply list_elem_of_split in Hin as (l1 & l2 & Hl).
    destruct (inv_start_order s HI l1 l2 fn Hl fn' Hb) as [o Ho].
    exists o, l1, l2. by split.
  - intros fn' fn o Hb Hin. apply list_elem_of_split in Hin as (l1 & l2 & Hl).
    destruct (inv_settle_order s HI l1 l2 fn o Hl) as [_ Hord].
    destruct (Hord fn' Hb) as [o' Ho]. exists o', l1, l2. by split.
  - done.
  - apply iter_tick_frame.
  - apply iter_tick_frame.
  - intros fn. by apply idle_started.
  - intros fn o. by apply idle_surfaced.
  - intros fn o. by apply surfaced_settled.
Qed.

Lemma queue_serialises_per_key_witness :
  Started 1%nat ∈ log (drain (exec sample_inputs)) /\
  stateOf (drain (exec sample_inputs)) (PReturned 0%nat) = Some (Rejected (Value 7)).
Proof.
  destruct (queue_serialises_per_key sample_inputs)
    as (_ & _ & _ & _ & Hcalled & Hsurfaced & _).
  assert (Hlog : Settled 0%nat (Rejected (Value 7)) ∈ log (drain (exec sample_inputs))).
  { vm_compute. apply list_elem_of_further, list_elem_of_here. }
  split.
  - apply Hcalled.
    + vm_compute. eauto.
    + intros fn' (Hlt & _ & _). assert (fn' = 0%nat) as -> by lia. eauto.
  - by apply Hsurfaced.
Defined.

End QueueFacts.

(** ** The execution queue: stateless calls *)

Module QueueKeysFacts.
Import JsString JsStringFacts Digits DigitFacts Queue QueueFacts QueueKeys.

Lemma settle_counter (p : Pid) (o : Outcome) (s : State) :
  statelessCounter (settle p o s) = statelessCounter s.
Proof. unfold settle. by repeat case_match. Qed.

Lemma subscribe_counter (p : Pid) (r : Reaction) (s : State) :
  statelessCounter (subscribe p r s) = statelessCounter s.
Proof. unfold subscribe. by repeat case_match. Qed.

Lemma tick_counter (s : State) : statelessCounter (tick s) = statelessCounter s.
Proof.
  unfold tick. destruct (microtasks s) as [|[r o] rest]; [done|].
  unfold runJob. case_match; by rewrite ?settle_counter, ?subscribe_counter.
Qed.

Lemma complete_frame (fn : TaskId) (o : Outcome) (s : State) :
  tasks (complete fn o s) = tasks s /\
  statelessCounter (complete fn o s) = statelessCounter s.
Proof.
  unfold complete. repeat case_match; try done. simpl.
  by destruct (settle_frame (PResult fn) o s) as [-> _], (settle_counter (PResult fn) o s).
Qed.

Lemma then_frame (d p : Pid) (onF onR : Handler) (s : State) :
  tasks (then_ d p onF onR s) = tasks s /\
  statelessCounter (then_ d p onF onR s) = statelessCounter s.
Proof.
  unfold then_. by rewrite (proj1 (subscribe_frame _ _ _)), subscribe_counter.
Qed.

(** [enqueue] adds the task at the end, under the key it is given. *)
Lemma enqueue_frame (k : string) (s : State) :
  (exists prv, tasks (enqueue k s) = tasks s ++ [mkTask k prv]) /\
  statelessCounter (enqueue k s) = statelessCounter s.
Proof.
  unfold enqueue.
  destruct (groupQueues s !! k) as [p|]; cbn [tasks statelessCounter];
    rewrite !(proj1 (then_frame _ _ _ _ _)), !(proj2 (then_frame _ _ _ _ _));
    (split; [by eexists|done]).
Qed.

Lemma statelessKey_stateless (n : Z) : isStatelessKey (statelessKey n) = true.
Proof. apply prefix_app_r. Qed.

Lemma statelessKey_inj (n m : Z) : 0 <= n -> 0 <= m -> statelessKey n = statelessKey m -> n = m.
Proof.
  unfold statelessKey. intros Hn Hm E. apply decimal_inj; [done..|].
  by simplify_eq/=.
Qed.

Lemma KeysOk_push (s s' : State) (k : string) (prv : Pid) :
  KeysOk s -> tasks s' = tasks s ++ [mkTask k prv] ->
  statelessCounter s <= statelessCounter s' ->
  (isStatelessKey k = true ->
   k = statelessKey (statelessCounter s') /\ statelessCounter s < statelessCounter s') ->
  KeysOk s'.
Proof.
  intros [Hc Hmade Hfresh] Et Hle Hk. constructor.
  - lia.
  - intros fn tk Hfn Hs. rewrite Et in Hfn.
    apply lookup_app_Some in Hfn as [Hfn|[_ Hfn]].
    + destruct (Hmade fn tk Hfn Hs) as (n & ? & ?). exists n. split; [lia|done].
    + apply list_lookup_singleton_Some in Hfn as [_ <-]. simpl in Hs.
      destruct (Hk Hs) as [-> ?]. exists (statelessCounter s'). split; [lia|done].
  - intros fn fn' tk tk' Hfn Hfn' Hlt Hs. rewrite Et in Hfn, Hfn'.
    apply lookup_app_Some in Hfn as [Hfn|[Hge Hfn]].
    + assert (tasks s !! fn' = Some tk') as Hfn''.
      { apply lookup_lt_Some in Hfn. by rewrite lookup_app_l in Hfn' by lia. }
      by eapply Hfresh.
    + assert (fn = length (tasks s)) as ->.
      { apply lookup_lt_Some in Hfn. simpl in Hfn. lia. }
      rewrite Nat.sub_diag in Hfn. simplify_eq/=.
      rewrite lookup_app_l in Hfn' by done.
      destruct (Hk Hs) as [-> Hlt']. intros E.
      destruct (Hmade fn' tk' Hfn') as (n & Hn & En).
      { rewrite E. apply statelessKey_stateless. }
      rewrite En in E. apply statelessKey_inj in E; lia.
Qed.

Lemma KeysOk_same (s s' : State) :
  KeysOk s -> tasks s' = tasks s -> statelessCounter s' = statelessCounter s -> KeysOk s'.
Proof.
  intros [Hc Hmade Hfresh] Et Ec. constructor.
  - by rewrite Ec.
  - rewrite Et, Ec. apply Hmade.
  - rewrite Et. apply Hfresh.
Qed.

Lemma KeysOk_step (s : State) (i : Input) :
  KeysOk s -> reservedFree i = true -> KeysOk (step s i).
Proof.
  intros HK Hi. destruct i as [options| |fn o]; simpl.
  - unfold run. simpl in Hi. destruct (Runner.noSessionPersistence options) eqn:En.
    + set (s0 := mkState _ _ _ _ _ _).
      destruct (enqueue_frame ("__stateless_" +:+ decimal (statelessCounter s + 1)) s0)
        as [[prv Et] Ec].
      apply (KeysOk_push s _ _ prv HK Et).
      * rewrite Ec. simpl. lia.
      * intros _. rewrite Ec. simpl. split; [done|lia].
    + destruct (enqueue_frame (Runner.groupOf options) s) as [[prv Et] Ec].
      apply (KeysOk_push s _ _ prv HK Et); [lia|].
      intros Hs. simpl in Hi. by rewrite Hs in Hi.
  - apply (KeysOk_same s); [done|apply tick_frame|apply tick_counter].
  - apply (KeysOk_same s); [done|apply complete_frame..].
Qed.

Lemma KeysOk_foldl (inputs : list Input) (s : State) :
  KeysOk s -> forallb reservedFree inputs = true -> KeysOk (foldl step s inputs).
Proof.
  revert s. induction inputs as [|i inputs IH]; intros s HK H; simpl; [done|].
  simpl in H. apply andb_true_iff in H as [Hi H]. apply IH; [|done]. by apply KeysOk_step.
Qed.

Lemma KeysOk_initial : KeysOk initial.
Proof. by constructor. Qed.

(** X18: stateless calls never wait.  Every call of [run] with
    [noSessionPersistence] is queued under a key of its own, made from a
    counter, so that, when no session group is named like such a key, no other
    task of the queue has the key of a stateless task, before or after it; and
    once the microtask queue has been drained every stateless task has been
    called, whatever other tasks are still running. *)
Theorem stateless_calls_never_wait (inputs : list Input) :
  forallb reservedFree inputs = true ->
  let sd := drain (exec inputs) in
  forall fn tk, tasks sd !! fn = Some tk -> isStatelessKey (key tk) = true ->
    (Started fn ∈ log sd) /\
    (exists n, 1 <= n /\ key tk = statelessKey n) /\
    forall fn' tk', tasks sd !! fn' = Some tk' -> fn' <> fn -> key tk' <> key tk.
Proof.
  intros Hin sd fn tk Hfn Hs.
  assert (HK : KeysOk (exec inputs)) by (apply KeysOk_foldl; [apply KeysOk_initial|done]).
  assert (Et : tasks sd = tasks (exec inputs)) by apply iter_tick_frame.
  rewrite Et in *.
  assert (Hothers : forall fn' tk', tasks (exec inputs) !! fn' = Some tk' -> fn' <> fn ->
                      key tk' <> key tk).
  { intros fn' tk' Hfn' Hne. destruct (decide (fn' < fn)%nat) as [Hlt|Hge].
    - by eapply (keys_fresh _ HK fn fn').
    - intros E. apply (keys_fresh _ HK fn' fn tk' tk); [done|done|lia| |done].
      by rewrite E. }
  split_and!.
  - apply idle_started.
    + apply Inv_drain, Inv_exec.
    + apply drain_empty.
    + unfold keyOf. rewrite Et, Hfn. by eexists.
    + intros fn' (Hlt & _ & Hkey). exfalso. unfold keyOf in Hkey. rewrite Et, Hfn in Hkey.
      destruct (tasks (exec inputs) !! fn') as [tk'|] eqn:Hfn'; [|done].
      simplify_eq/=. apply (Hothers fn' tk'); [done|lia|done].
  - destruct (keys_made _ HK fn tk Hfn Hs) as (n & ? & ?). exists n. split; [lia|done].
  - done.
Qed.

Lemma stateless_calls_never_wait_witness :
  Started 1%nat ∈ log (drain (exec sample_mixed_inputs)) /\
  Started 2%nat ∈ log (drain (exec sample_mixed_inputs)).
Proof.
  pose proof (stateless_calls_never_wait sample_mixed_inputs eq_refl) as H.
  split.
  - refine (proj1 (H 1%nat (mkTask (statelessKey 1) (PFresh 1%nat)) _ eq_refl)).
    by vm_compute.
  - refine (proj1 (H 2%nat (mkTask (statelessKey 2) (PFresh 2%nat)) _ eq_refl)).
    by vm_compute.
Defined.

End QueueKeysFacts.
